(** * SakuraQAReview: quiz review storage, session and analytics

    A shallow embedding of the browser code of the repository
    (js/storage.js, js/app.js, js/analytics.js) and of the migration
    script scripts/migrate-progress.mjs, the properties of its
    specification that can be settled on it, and further properties
    that the code shows.

    Conventions of the embedding.
    - A JS string is a [string]; a property that may be missing on a JSON
      record is an [option]; [None] is JS [undefined].
    - A JS Number that holds a count or an index is a [nat] or a [Z];
      where the code divides, multiplies or calls [toFixed], the value is
      an IEEE binary64 [float], computed with the primitive operations.
    - The decimal string that [toFixed(1)] returns is kept as its number
      of tenths, a [Z]: ["33.3"] is [333]; that of [toFixed(2)] as its
      number of hundredths.
    - A plain object used as a dictionary is an association list of its
      own properties in insertion order; [Js.own_keys] gives the order in
      which [Object.keys] and [Object.values] enumerate it.  A lookup
      [o[k]] on such an object, [Js.lookup], also finds the members that
      the object inherits from [Object.prototype]: the code runs in
      sloppy mode on objects written [{}].
    - The pages are taken as they load: [Object.prototype] is as the
      engine made it.  A run that assigns an object to a property of
      [Object.prototype] is followed up to that point and no further
      ([Js.Polluted]).
    - A [string] holds the UTF-8 bytes of the JS string; where the code
      orders strings, they are compared by UTF-16 code units.
    - [localStorage] and the remote API are explicit arguments, and the
      remote calls a function makes are returned as a list of events.
      What a request meets and what the reviewer answers to a dialog are
      arguments as well; dialogs, alerts and the change of page are events
      of the session. *)

From Stdlib Require Import ZArith Floats.
From stdpp Require Import gmap strings list fin_maps sorting.

#[local] Open Scope Z_scope.

(** ** JavaScript values and built-ins used by the code *)

Module Js.

(** [undefined] and the empty string are the falsy strings. *)
Definition truthy (v : option string) : bool :=
  match v with
  | Some s => bool_decide (s ≠ EmptyString)
  | None => false
  end.

(** [a || b] on optional strings. *)
Definition or_else (a b : option string) : option string :=
  if truthy a then a else b.

(** [a || 'literal']. *)
Definition or_literal (a : option string) (d : string) : string :=
  match a with
  | Some s => if bool_decide (s ≠ EmptyString) then s else d
  | None => d
  end.

(** Truthiness of an optional boolean field. *)
Definition truthy_bool (v : option bool) : bool :=
  match v with
  | Some true => true
  | _ => false
  end.

(** The string a value turns into when it is used as a property key. *)
Definition prop_key (v : option string) : string :=
  match v with
  | Some s => s
  | None => "undefined"
  end.

(** *** Completions: a value or a thrown exception *)

Inductive Completion (A : Type) : Type :=
  | Normal (a : A)
  | Throw (msg : string).
Arguments Normal {A} a.
Arguments Throw {A} msg.

Definition bind {A B} (c : Completion A) (k : A → Completion B) : Completion B :=
  match c with
  | Normal a => k a
  | Throw m => Throw m
  end.

(** [try { c } catch (error) { h }] *)
Definition try_catch {A} (c : Completion A) (h : string → A) : A :=
  match c with
  | Normal a => a
  | Throw m => h m
  end.

(** [l.forEach(x => ...)], where the callback may throw: the passes run in
    order and the first exception ends the loop. *)
Fixpoint forEach {S X} (step : S → X → Completion S) (s : S) (l : list X) : Completion S :=
  match l with
  | [] => Normal s
  | x :: l' => bind (step s x) (λ s', forEach step s' l')
  end.

(** *** Runs that may write to [Object.prototype]

    A counter that [++] raises on [Object.prototype] holds NaN, which
    the tests [!o[k]], [o[k] || 0] and [if (o[k])] of js/analytics.js
    take for a missing property: there such a write changes nothing
    that the code reads, and is not recorded.  (js/app.js reads one
    lookup untested; for it the NaNs are kept, see
    [StorageManager.getStatistics_prototype].)  An object assigned to a
    property of [Object.prototype] is found from then on by every
    lookup of the page under that name; the embedding does not follow
    the page beyond such a write, and the run that makes it ends as
    [Polluted]. *)

Inductive Run (A : Type) : Type :=
  | Done (a : A)
  | Raised (msg : string)
  | Polluted.
Arguments Done {A} a.
Arguments Raised {A} msg.
Arguments Polluted {A}.

Definition run_bind {A B} (r : Run A) (k : A → Run B) : Run B :=
  match r with
  | Done a => k a
  | Raised m => Raised m
  | Polluted => Polluted
  end.

Fixpoint run_forEach {S X} (step : S → X → Run S) (s : S) (l : list X) : Run S :=
  match l with
  | [] => Done s
  | x :: l' => run_bind (step s x) (λ s', run_forEach step s' l')
  end.

(** *** Array.prototype.sort

    [l.sort(compare)], where [before a b] says that [compare(a, b) < 0].
    The language requires the sort to be stable, and a stable sort has
    one possible result, so insertion from the right stands for whatever
    algorithm the engine runs. *)

Section sort_by.
Context {A : Type} (before : A → A → Prop) `{∀ a b, Decision (before a b)}.

Fixpoint insert_by (x : A) (l : list A) : list A :=
  match l with
  | [] => [x]
  | y :: l' => if decide (before y x) then y :: insert_by x l' else x :: y :: l'
  end.

Fixpoint sort_by (l : list A) : list A :=
  match l with
  | [] => []
  | x :: l' => insert_by x (sort_by l')
  end.

End sort_by.

Definition key_lt {A} (key : A → Z) (a b : A) : Prop := key a < key b.

Definition key_le {A} (key : A → Z) (a b : A) : Prop := key a ≤ key b.

#[global] Instance key_lt_dec {A} (key : A → Z) a b : Decision (key_lt key a b).
Proof. unfold key_lt. apply _. Defined.

(** [l.sort((a, b) => key(a) - key(b))] *)
Definition sort_by_key {A} (key : A → Z) (l : list A) : list A :=
  sort_by (key_lt key) l.

(** A string of the embedding is the UTF-8 encoding of the JS string,
    and JS compares strings by their UTF-16 code units.  [code_units]
    decodes the bytes: a sequence of one, two or three bytes is one code
    unit, a sequence of four bytes a pair of surrogates.  A byte that
    opens no well-formed sequence, which the encoding of a JS string
    does not contain, stands for itself. *)
Definition byte_value (c : Ascii.ascii) : Z := Z.of_N (Ascii.N_of_ascii c).

Definition surrogates (cp : Z) : list Z :=
  [55296 + (cp - 65536) `div` 1024; 56320 + (cp - 65536) `mod` 1024].

Fixpoint code_units (s : string) : list Z :=
  match s with
  | EmptyString => []
  | String b0 s1 =>
      let n0 := byte_value b0 in
      if bool_decide (n0 < 192) then n0 :: code_units s1
      else if bool_decide (n0 < 224) then
        match s1 with
        | String b1 s2 => (n0 - 192) * 64 + (byte_value b1 - 128) :: code_units s2
        | _ => n0 :: code_units s1
        end
      else if bool_decide (n0 < 240) then
        match s1 with
        | String b1 (String b2 s3) =>
            (n0 - 224) * 4096 + (byte_value b1 - 128) * 64 + (byte_value b2 - 128)
            :: code_units s3
        | _ => n0 :: code_units s1
        end
      else
        match s1 with
        | String b1 (String b2 (String b3 s4)) =>
            surrogates ((n0 - 240) * 262144 + (byte_value b1 - 128) * 4096
                        + (byte_value b2 - 128) * 64 + (byte_value b3 - 128))
            ++ code_units s4
        | _ => n0 :: code_units s1
        end
  end.

(** The lexicographic order of two lists of code units. *)
Fixpoint units_lt (a b : list Z) : bool :=
  match a, b with
  | _, [] => false
  | [], _ :: _ => true
  | x :: a', y :: b' => bool_decide (x < y) || (bool_decide (x = y) && units_lt a' b')
  end.

Definition string_lt (a b : string) : Prop := units_lt (code_units a) (code_units b) = true.

#[global] Instance string_lt_dec a b : Decision (string_lt a b).
Proof. unfold string_lt. apply _. Defined.

(** [l.sort()] on strings: ascending by UTF-16 code units. *)
Definition sort_strings (l : list string) : list string :=
  sort_by string_lt l.

(** *** Property enumeration order

    [Object.keys] lists the keys that are array indices first, in
    ascending numeric order, and then the other keys in the order in
    which they were created. *)

Definition digit_of (c : Ascii.ascii) : option Z :=
  let n := Z.of_N (Ascii.N_of_ascii c) in
  if bool_decide (48 ≤ n ≤ 57) then Some (n - 48) else None.

Fixpoint digits_value (s : string) (acc : Z) : option Z :=
  match s with
  | EmptyString => Some acc
  | String c s' =>
      match digit_of c with
      | Some d => digits_value s' (10 * acc + d)
      | None => None
      end
  end.

(** The canonical numeric strings of the integers 0 .. 2^32 - 2. *)
Definition array_index (s : string) : option Z :=
  match s with
  | EmptyString => None
  | String c s' =>
      if bool_decide (s = "0") then Some 0
      else if bool_decide (digit_of c = Some 0) then None
      else match digits_value s 0 with
           | Some n => if bool_decide (n ≤ 4294967294) then Some n else None
           | None => None
           end
  end.

Definition is_index (s : string) : Prop := is_Some (array_index s).

Definition index_value (s : string) : Z := default 0 (array_index s).

(** Enumeration order of the keys [ks], given in creation order. *)
Definition own_keys (ks : list string) : list string :=
  sort_by_key index_value (filter is_index ks) ++ filter (λ k, ¬ is_index k) ks.

(** *** Plain objects used as dictionaries *)

Abbreviation obj V := (list (string * V)) (only parsing).

(** The own property [k] of [o]. *)
Fixpoint obj_get {V} (o : obj V) (k : string) : option V :=
  match o with
  | [] => None
  | (k', v) :: o' => if decide (k' = k) then Some v else obj_get o' k
  end.

(** An object written [{}] inherits the members of [Object.prototype]:
    eleven functions and, under [__proto__], an accessor that gives
    [Object.prototype] itself.  All of them are truthy. *)
Definition prototype_functions : list string :=
  ["constructor"; "__defineGetter__"; "__defineSetter__"; "hasOwnProperty";
   "__lookupGetter__"; "__lookupSetter__"; "isPrototypeOf"; "propertyIsEnumerable";
   "toString"; "valueOf"; "toLocaleString"].

Definition inherited (k : string) : bool :=
  bool_decide (k = "__proto__") || bool_decide (k ∈ prototype_functions).

(** What [o[k]] finds. *)
Inductive Lookup (V : Type) : Type :=
  | Own (v : V)
  | Method
  | Prototype
  | Missing.
Arguments Own {V} v.
Arguments Method {V}.
Arguments Prototype {V}.
Arguments Missing {V}.

(** [o[k]] on an object written [{}] whose own properties were all made
    by assignment, so that none is called [__proto__]. *)
Definition lookup {V} (o : obj V) (k : string) : Lookup V :=
  if bool_decide (k = "__proto__") then Prototype
  else match obj_get o k with
       | Some v => Own v
       | None => if bool_decide (k ∈ prototype_functions) then Method else Missing
       end.

(** [o[k] = v]: an existing key keeps its place, a new key goes last. *)
Fixpoint obj_set {V} (o : obj V) (k : string) (v : V) : obj V :=
  match o with
  | [] => [(k, v)]
  | (k', v') :: o' => if decide (k' = k) then (k, v) :: o' else (k', v') :: obj_set o' k v
  end.

Definition keys {V} (o : obj V) : list string := own_keys (o.*1).

Definition values {V} (o : obj V) : list V :=
  omap (obj_get o) (keys o).

(** *** Numbers *)

(** A count as a Number (exact below 2^53). *)
Definition number (n : nat) : float :=
  PrimFloat.of_uint63 (Uint63.of_Z (Z.of_nat n)).

(** [parseFloat] of the decimal string with [t] tenths, for [t >= 0]:
    the double nearest to [t / 10], which is what a correctly rounded
    division of the two integers gives. *)
Definition parseFloat_tenths (t : Z) : float :=
  PrimFloat.div (PrimFloat.of_uint63 (Uint63.of_Z t)) (number 10).

(** [x.toFixed(1)], as a number of tenths: the integer [n] for which
    [n / 10 - x] is closest to zero, the larger one when two are as
    close; [x] is taken at its exact binary value [m * 2^e], and a
    negative [x] is rounded on its absolute value.  The code calls it on
    finite values between 0 and 100 only; NaN and the infinities, which
    print as words, are given 0 here. *)
Definition toFixed1 (x : float) : Z :=
  match Prim2SF x with
  | S754_finite s m e =>
      let n := if bool_decide (0 ≤ e) then 10 * Z.pos m * 2 ^ e
               else (20 * Z.pos m + 2 ^ (- e)) `div` 2 ^ (1 - e) in
      if s then - n else n
  | _ => 0
  end.

(** [(correct / total) * 100] *)
Definition percent (correct total : nat) : float :=
  PrimFloat.mul (PrimFloat.div (number correct) (number total)) (number 100).

(** [l.reduce((sum, x) => sum + x, 0)] *)
Definition sum (l : list float) : float :=
  foldl PrimFloat.add PrimFloat.zero l.

(** [l.reduce((sum, x) => sum + x, 0) / l.length] *)
Definition mean (l : list float) : float :=
  PrimFloat.div (sum l) (number (length l)).

(** [x.toFixed(2)], as a number of hundredths, in the manner of
    [toFixed1]. *)
Definition toFixed2 (x : float) : Z :=
  match Prim2SF x with
  | S754_finite s m e =>
      let n := if bool_decide (0 ≤ e) then 100 * Z.pos m * 2 ^ e
               else (200 * Z.pos m + 2 ^ (- e)) `div` 2 ^ (1 - e) in
      if s then - n else n
  | _ => 0
  end.

(** *** Set

    A [Set] of strings lists its elements in the order in which they were
    first added. *)

(** [set.add(x)] *)
Definition Set_add (set : list string) (x : string) : list string :=
  if decide (x ∈ set) then set else set ++ [x].

End Js.

(** ** Records exchanged with the stores *)

(** An entry of the question catalog (quiz/questions.json).  [q_text],
    [q_category], [q_answer] and [q_keyword] are the properties
    [question], [category], [answer] and [keyword]. *)
Record Question := {
  questionID : string;
  q_text : string;
  q_category : string;
  authored_by : option string;
  choice : list string;
  q_answer : option string;
  q_keyword : option string
}.

(** A stored review.  [saveResult] writes the snake_case properties;
    [questionId], [reviewerName] and [isCorrect] are the older spellings
    that the analytics still read. *)
Record Review := {
  review_id : string;
  question_id : option string;
  question_set : option string;
  question_index : option Z;
  keyword : string;
  category : option string;
  question_text : option string;
  reviewer_name : option string;
  answer : option string;
  correct_answer : option string;
  is_correct : option bool;
  timestamp : string;
  comment : string;
  questionId : option string;
  reviewerName : option string;
  isCorrect : option bool
}.

(** [r.comment = c] *)
Definition set_comment (r : Review) (c : string) : Review :=
  {| review_id := review_id r; question_id := question_id r;
     question_set := question_set r; question_index := question_index r;
     keyword := keyword r; category := category r;
     question_text := question_text r; reviewer_name := reviewer_name r;
     answer := answer r; correct_answer := correct_answer r;
     is_correct := is_correct r; timestamp := timestamp r; comment := c;
     questionId := questionId r; reviewerName := reviewerName r;
     isCorrect := isCorrect r |}.

(** A progress marker, the value stored under ["reviewer__category"]. *)
Record Progress := {
  p_reviewerName : string;
  p_category : string;
  p_questionIndex : Z;
  p_timestamp : string
}.

(** [AWS_CONFIG]; the global may be undefined ([None]). *)
Record Config := {
  apiEndpoint : string;
  enableS3Upload : bool
}.

(** The outcome of one [fetch]: the promise rejects, or a response arrives
    with its [ok] flag and a body that [response.json()] parses or not. *)
Inductive Fetch (A : Type) : Type :=
  | Rejected
  | Responded (ok : bool) (body : option A).
Arguments Rejected {A}.
Arguments Responded {A} ok body.

(** The [reviews] property of the list response when it is truthy: an
    array, whose elements are taken to be records, or some other value. *)
Inductive JsReviews : Type :=
  | ReviewArray (l : list Review)
  | NotAnArray.

(** Body of [GET <endpoint>]; a falsy [reviews] is [None]. *)
Record ListBody := {
  success : bool;
  reviews : option JsReviews
}.

(** ** js/storage.js *)

Module StorageManager.
Import Js.

(** A stored item is a string that [JSON.parse] accepts or rejects. *)
Inductive Raw (A : Type) : Type :=
  | Json (a : A)
  | Garbage.
Arguments Json {A} a.
Arguments Garbage {A}.

Definition JSON_parse {A} (data : Raw A) : Completion A :=
  match data with
  | Json a => Normal a
  | Garbage => Throw "SyntaxError"
  end.

(** [localStorage]: the items under [STORAGE_KEY] and [PROGRESS_KEY];
    [None] is what [getItem] returns for a missing item.  Every
    [setItem] is taken to succeed. *)
Record LocalStorage := {
  review_results : option (Raw (list Review));
  review_progress : option (Raw (gmap string Progress))
}.

Definition setItem_results (ls : LocalStorage) (l : list Review) : LocalStorage :=
  {| review_results := Some (Json l); review_progress := review_progress ls |}.

Definition setItem_progress (ls : LocalStorage) (m : gmap string Progress) : LocalStorage :=
  {| review_results := review_results ls; review_progress := Some (Json m) |}.

(** What a call does to the outside, in order. *)
Inductive Event : Type :=
  | LocalSetProgress (data : gmap string Progress)
  | RemotePutProgress (reviewerName category : string) (questionIndex : Z).

Definition getAllResults (ls : LocalStorage) : list Review :=
  try_catch
    (match review_results ls with
     | Some data => JSON_parse data
     | None => Normal []
     end)
    (λ _, []).

(** The fields [app.js] hands to [saveResult]. *)
Record Submission := {
  s_questionId : string;
  s_questionSet : string;
  s_questionIndex : Z;
  s_keyword : option string;
  s_category : string;
  s_questionText : string;
  s_reviewerName : string;
  s_answer : string;
  s_correctAnswer : string;
  s_isCorrect : bool;
  s_comment : string
}.

(** [saveResult(result)]; [now] is [Date.now()] in decimal, [rnd] the
    random suffix and [iso] the ISO date.  Returns the new id. *)
Definition saveResult (now rnd iso : string) (result : Submission) (ls : LocalStorage)
  : string * LocalStorage :=
  let results := getAllResults ls in
  let reviewId := "review_" +:+ now +:+ "_" +:+ rnd in
  let reviewResult :=
    {| review_id := reviewId;
       question_id := Some (s_questionId result);
       question_set := Some (s_questionSet result);
       question_index := Some (s_questionIndex result);
       keyword := or_literal (s_keyword result) EmptyString;
       category := Some (s_category result);
       question_text := Some (s_questionText result);
       reviewer_name := Some (s_reviewerName result);
       answer := Some (s_answer result);
       correct_answer := Some (s_correctAnswer result);
       is_correct := Some (s_isCorrect result);
       timestamp := iso;
       comment := s_comment result;
       questionId := None; reviewerName := None; isCorrect := None |} in
  (reviewId, setItem_results ls (results ++ [reviewResult])).

(** [updateComment(reviewId, comment)].  The body stands in a [try]
    whose handler logs and returns [false]; with a store that takes every
    write, no statement of the body throws. *)
Definition updateComment (reviewId comment : string) (ls : LocalStorage)
  : bool * LocalStorage :=
  let results := getAllResults ls in
  match list_find (λ r, review_id r = reviewId) results with
  | Some (index, r) =>
      (true, setItem_results ls (<[index := set_comment r comment]> results))
  | None => (false, ls)
  end.

Definition getAllProgress (ls : LocalStorage) : gmap string Progress :=
  try_catch
    (match review_progress ls with
     | Some data => JSON_parse data
     | None => Normal ∅
     end)
    (λ _, ∅).

Definition progress_key (reviewerName category : string) : string :=
  reviewerName +:+ "__" +:+ category.

(** Whether the remote API is configured and switched on. *)
Definition api_enabled (cfg : option Config) : bool :=
  match cfg with
  | Some c => bool_decide (apiEndpoint c ≠ EmptyString) && enableS3Upload c
  | None => false
  end.

(** [saveProgressToAPI]: one PUT; every failure is caught and gives [false]. *)
Definition saveProgressToAPI (resp : Fetch (option string))
    (reviewerName category : string) (questionIndex : Z) : bool * list Event :=
  (try_catch
     (match resp with
      | Rejected => Throw "fetch failed"
      | Responded ok body =>
          if negb ok then
            bind (from_option Normal (Throw "invalid json") body) (λ errorData,
            Throw (or_literal errorData "HTTP error!"))
          else
            bind (from_option Normal (Throw "invalid json") body) (λ _, Normal true)
      end)
     (λ _, false),
   [RemotePutProgress reviewerName category questionIndex]).

(** [saveProgress(reviewerName, category, questionIndex)]; [iso] is the
    date written into the marker, [resp] what the PUT would meet. *)
Definition saveProgress (cfg : option Config) (resp : Fetch (option string)) (iso : string)
    (reviewerName category : string) (questionIndex : Z) (ls : LocalStorage)
  : LocalStorage * list Event :=
  let progressData := getAllProgress ls in
  let key := progress_key reviewerName category in
  let progressData :=
    <[key := {| p_reviewerName := reviewerName; p_category := category;
                p_questionIndex := questionIndex; p_timestamp := iso |}]> progressData in
  let ls := setItem_progress ls progressData in
  let log := [LocalSetProgress progressData] in
  if api_enabled cfg then
    let '(_, remote) := saveProgressToAPI resp reviewerName category questionIndex in
    (ls, log ++ remote)
  else (ls, log).

(** [clearProgress(reviewerName, category)] *)
Definition clearProgress (reviewerName category : string) (ls : LocalStorage) : LocalStorage :=
  setItem_progress ls (delete (progress_key reviewerName category) (getAllProgress ls)).

(** [getReviewsFromAPI()]: the value the promise resolves to. *)
Definition getReviewsFromAPI (cfg : option Config) (resp : Fetch ListBody) : JsReviews :=
  match cfg with
  | None => ReviewArray []
  | Some c =>
      if negb (enableS3Upload c) then ReviewArray []
      else if bool_decide (apiEndpoint c = EmptyString) then ReviewArray []
      else
        try_catch
          (match resp with
           | Rejected => Throw "fetch failed"
           | Responded ok body =>
               if negb ok then Throw "HTTP error!"
               else
                 bind (from_option Normal (Throw "invalid json") body) (λ result,
                 Normal (if success result
                         then default (ReviewArray []) (reviews result)
                         else ReviewArray []))
           end)
          (λ _, ReviewArray [])
  end.

(** [s3Reviews.filter(p)] *)
Definition array_filter (a : JsReviews) (P : Review → Prop) `{∀ r, Decision (P r)}
  : Completion (list Review) :=
  match a with
  | ReviewArray l => Normal (filter P l)
  | NotAnArray => Throw "TypeError: s3Reviews.filter is not a function"
  end.

(** The [for] loop of [getMissingQuestions]: [i] is the loop variable,
    [n] the number of iterations left, [missingIndexes] the array being
    filled. *)
Fixpoint missing_loop (savedIndexes : gset (option Z)) (i : Z) (n : nat)
    (missingIndexes : list Z) : list Z :=
  match n with
  | O => missingIndexes
  | S n' =>
      missing_loop savedIndexes (i + 1) n'
        (if decide (Some i ∈ savedIndexes) then missingIndexes
         else missingIndexes ++ [i])
  end.

(** The filter of [getMissingQuestions]:
    [r.reviewer_name === reviewerName && r.category === category]. *)
Definition relevant (who cat : string) (r : Review) : Prop :=
  reviewer_name r = Some who ∧ category r = Some cat.

#[global] Instance relevant_dec who cat r : Decision (relevant who cat r).
Proof. unfold relevant. apply _. Defined.

(** [getMissingQuestions(reviewerName, category, allQuestions)] *)
Definition getMissingQuestions (cfg : option Config) (resp : Fetch ListBody)
    (reviewerName category : string) (allQuestions : list Question) : list Z :=
  try_catch
    (let s3Reviews := getReviewsFromAPI cfg resp in
     bind (array_filter s3Reviews (relevant reviewerName category))
       (λ relevantReviews,
     let savedIndexes : gset (option Z) := list_to_set (question_index <$> relevantReviews) in
     Normal (missing_loop savedIndexes 0 (length allQuestions) [])))
    (λ _, []).

(** *** filterResults *)

(** The argument of [filterResults]; a missing property is [None]. *)
Record Filters := {
  f_reviewerName : option string;
  f_category : option string;
  f_questionSet : option string;
  f_isCorrect : option bool
}.

(** [filterResults(filters)] *)
Definition filterResults (filters : Filters) (ls : LocalStorage) : list Review :=
  let filtered := getAllResults ls in
  let filtered :=
    if truthy (f_reviewerName filters)
    then filter (λ r, reviewer_name r = f_reviewerName filters) filtered
    else filtered in
  let filtered :=
    if truthy (f_category filters)
    then filter (λ r, category r = f_category filters) filtered
    else filtered in
  let filtered :=
    if truthy (f_questionSet filters)
    then filter (λ r, question_set r = f_questionSet filters) filtered
    else filtered in
  match f_isCorrect filters with
  | Some b => filter (λ r, is_correct r = Some b) filtered
  | None => filtered
  end.

(** *** getStatistics *)

(** An entry of [byCategory], [byReviewer] or [byQuestionSet] while it is
    counted, and once its accuracy, in hundredths, is filled in. *)
Record GroupCount := {
  gc_total : nat;
  gc_correct : nat;
  gc_incorrect : nat
}.

Record GroupStat := {
  g_total : nat;
  g_correct : nat;
  g_incorrect : nat;
  g_accuracy : Z
}.

(** One pass of a [results.forEach] of [getStatistics] that counts by the
    property [key].  Under the name of a member of [Object.prototype] the
    test [!stats[key]] finds that member, no entry is made, and the
    counters that [++] raises are properties of the member: the
    dictionary stays as it is. *)
Definition count_by_step (key : Review → string) (stats : obj GroupCount) (r : Review)
  : obj GroupCount :=
  let stats :=
    match lookup stats (key r) with
    | Missing => obj_set stats (key r) {| gc_total := 0; gc_correct := 0; gc_incorrect := 0 |}
    | _ => stats
    end in
  match lookup stats (key r) with
  | Own s =>
      obj_set stats (key r)
        (if truthy_bool (is_correct r)
         then {| gc_total := S (gc_total s); gc_correct := S (gc_correct s);
                 gc_incorrect := gc_incorrect s |}
         else {| gc_total := S (gc_total s); gc_correct := gc_correct s;
                 gc_incorrect := S (gc_incorrect s) |})
  | _ => stats
  end.

(** The properties that such a pass puts on [Object.prototype]: under
    the key [__proto__] the counters raised are those of
    [Object.prototype] itself, which from then on holds NaN under their
    names. *)
Definition count_by_prototype (key : Review → string) (r : Review) : list string :=
  if bool_decide (key r = "__proto__")
  then ["total"; if truthy_bool (is_correct r) then "correct" else "incorrect"]
  else [].

(** [(s.correct / s.total * 100).toFixed(2)] *)
Definition group_finish (s : GroupCount) : GroupStat :=
  {| g_total := gc_total s; g_correct := gc_correct s; g_incorrect := gc_incorrect s;
     g_accuracy := toFixed2 (percent (gc_correct s) (gc_total s)) |}.

Definition count_by (key : Review → string) (results : list Review) : obj GroupStat :=
  prod_map id group_finish <$> foldl (count_by_step key) [] results.

(** The result of [getStatistics]; [st_accuracy] is the number that
    [parseFloat] reads from the two-decimal string, kept in hundredths. *)
Record Statistics := {
  st_total : nat;
  st_correct : nat;
  st_incorrect : nat;
  st_accuracy : Z;
  byCategory : obj GroupStat;
  byReviewer : obj GroupStat;
  byQuestionSet : obj GroupStat
}.

Definition getStatistics (ls : LocalStorage) : Statistics :=
  let results := getAllResults ls in
  if bool_decide (length results = 0%nat) then
    {| st_total := 0; st_correct := 0; st_incorrect := 0; st_accuracy := 0;
       byCategory := []; byReviewer := []; byQuestionSet := [] |}
  else
    let correct := length (filter (λ r, truthy_bool (is_correct r) = true) results) in
    let incorrect := (length results - correct)%nat in
    {| st_total := length results; st_correct := correct; st_incorrect := incorrect;
       st_accuracy := toFixed2 (percent correct (length results));
       byCategory := count_by (λ r, prop_key (category r)) results;
       byReviewer := count_by (λ r, prop_key (reviewer_name r)) results;
       byQuestionSet := count_by (λ r, prop_key (question_set r)) results |}.

(** The names under which [Object.prototype] holds NaN once
    [getStatistics] has run. *)
Definition getStatistics_prototype (ls : LocalStorage) : list string :=
  let results := getAllResults ls in
  (results ≫= count_by_prototype (λ r, prop_key (category r)))
  ++ (results ≫= count_by_prototype (λ r, prop_key (reviewer_name r)))
  ++ (results ≫= count_by_prototype (λ r, prop_key (question_set r))).

(** *** clearAll *)

(** [clearAll(confirm)]; [userConfirm] is the answer to the dialog, asked
    only when [confirm] is set. *)
Definition clearAll (confirm userConfirm : bool) (ls : LocalStorage) : bool * LocalStorage :=
  if confirm && negb userConfirm then (false, ls)
  else (true, {| review_results := None; review_progress := review_progress ls |}).

(** *** getProgress *)

(** Body of [GET <progress endpoint>]; a falsy [progress] is [None]. *)
Record ProgressBody := {
  pb_success : bool;
  pb_progress : option Progress
}.

(** [getProgressFromAPI(reviewerName, category)]: [null] is [None]. *)
Definition getProgressFromAPI (resp : Fetch ProgressBody) : option Progress :=
  try_catch
    (match resp with
     | Rejected => Throw "fetch failed"
     | Responded ok body =>
         if negb ok then Throw "HTTP error!"
         else
           bind (from_option Normal (Throw "invalid json") body) (λ result,
           Normal (if pb_success result then pb_progress result else None))
     end)
    (λ _, None).

(** [getProgress(reviewerName, category)] *)
Definition getProgress (cfg : option Config) (resp : Fetch ProgressBody)
    (reviewerName category : string) (ls : LocalStorage) : option Progress :=
  let apiProgress := if api_enabled cfg then getProgressFromAPI resp else None in
  match apiProgress with
  | Some p => Some p
  | None => getAllProgress ls !! progress_key reviewerName category
  end.

(** *** saveReviewToAPI *)

(** [saveReviewToAPI(reviewData)]: the result and the records that were
    posted, none when the API is switched off. *)
Definition saveReviewToAPI (cfg : option Config) (resp : Fetch (option string))
    (reviewData : Review) : bool * list Review :=
  match cfg with
  | None => (false, [])
  | Some c =>
      if negb (enableS3Upload c) then (false, [])
      else if bool_decide (apiEndpoint c = EmptyString) then (false, [])
      else
        (try_catch
           (match resp with
            | Rejected => Throw "fetch failed"
            | Responded ok body =>
                if negb ok then
                  bind (from_option Normal (Throw "invalid json") body) (λ errorData,
                  Throw (or_literal errorData "HTTP error!"))
                else
                  bind (from_option Normal (Throw "invalid json") body) (λ _, Normal true)
            end)
           (λ _, false),
         [reviewData])
  end.

End StorageManager.

(** ** js/app.js *)

Module QuizApp.
Import Js StorageManager.

(** The fields of [QuizApp] and the two pieces of the page that
    [submitAnswer] reads back: the text of the [.choice-btn] buttons and
    whether the result section is displayed. *)
Record State := {
  questions : list Question;
  currentIndex : nat;
  selectedAnswer : option nat;
  correctAnswerIndex : option nat;
  app_reviewerName : string;
  app_category : string;
  currentReviewId : option string;
  choiceButtons : list string;
  resultShown : bool
}.

(** [renderChoices(choices, correctAnswer)].  [findIndex] gives the first
    match; its -1 is [None] here, replaced by 0 as in the code. *)
Definition renderChoices (choices : list string) (correctAnswer : option string)
    (st : State) : State :=
  let found : option nat :=
    if truthy correctAnswer
    then fst <$> list_find (λ c, Some c = correctAnswer) choices
    else Some 0%nat in
  let correctAnswerIndex := default 0%nat found in
  {| questions := questions st; currentIndex := currentIndex st;
     selectedAnswer := selectedAnswer st;
     correctAnswerIndex := Some correctAnswerIndex;
     app_reviewerName := app_reviewerName st; app_category := app_category st;
     currentReviewId := currentReviewId st;
     choiceButtons := choices;
     resultShown := resultShown st |}.

(** [showQuestion()]: resets the selection, hides the result section and
    renders the choices of the current question. *)
Definition showQuestion (st : State) : Completion State :=
  match questions st !! currentIndex st with
  | None => Throw "TypeError: question is undefined"
  | Some question =>
      Normal (renderChoices (choice question) (q_answer question)
        {| questions := questions st; currentIndex := currentIndex st;
           selectedAnswer := None;
           correctAnswerIndex := correctAnswerIndex st;
           app_reviewerName := app_reviewerName st; app_category := app_category st;
           currentReviewId := None;
           choiceButtons := choiceButtons st;
           resultShown := false |})
  end.

(** [selectAnswer(index)], the click handler of button [index]. *)
Definition selectAnswer (index : nat) (st : State) : State :=
  if bool_decide (selectedAnswer st ≠ None) && resultShown st then st
  else
    {| questions := questions st; currentIndex := currentIndex st;
       selectedAnswer := Some index;
       correctAnswerIndex := correctAnswerIndex st;
       app_reviewerName := app_reviewerName st; app_category := app_category st;
       currentReviewId := currentReviewId st;
       choiceButtons := choiceButtons st;
       resultShown := resultShown st |}.

(** [submitAnswer()]; [now], [rnd] and [iso] feed [saveResult]. *)
Definition submitAnswer (now rnd iso : string) (st : State) (ls : LocalStorage)
  : Completion (State * LocalStorage) :=
  match selectedAnswer st, correctAnswerIndex st with
  | Some selected, Some correctIndex =>
      let isCorrect := bool_decide (selected = correctIndex) in
      bind (from_option Normal (Throw "TypeError: button is undefined")
              (choiceButtons st !! selected)) (λ selectedText,
      bind (from_option Normal (Throw "TypeError: button is undefined")
              (choiceButtons st !! correctIndex)) (λ correctText,
      bind (from_option Normal (Throw "TypeError: question is undefined")
              (questions st !! currentIndex st)) (λ question,
      let '(reviewId, ls') :=
        saveResult now rnd iso
          {| s_questionId := questionID question;
             s_questionSet := app_category st;
             s_questionIndex := Z.of_nat (currentIndex st);
             s_keyword := q_keyword question;
             s_category := q_category question;
             s_questionText := q_text question;
             s_reviewerName := app_reviewerName st;
             s_answer := selectedText;
             s_correctAnswer := correctText;
             s_isCorrect := isCorrect;
             s_comment := EmptyString |} ls in
      Normal
        ({| questions := questions st; currentIndex := currentIndex st;
            selectedAnswer := selectedAnswer st;
            correctAnswerIndex := correctAnswerIndex st;
            app_reviewerName := app_reviewerName st; app_category := app_category st;
            currentReviewId := Some reviewId;
            choiceButtons := choiceButtons st;
            resultShown := true |}, ls'))))
  | _, _ => Normal (st, ls)
  end.

(** One question answered: it is shown, the buttons [clicks] are clicked
    one after the other, then button [index], and the answer is
    submitted. *)
Definition answer_current (now rnd iso : string) (clicks : list nat) (index : nat)
    (st : State) (ls : LocalStorage) : Completion (State * LocalStorage) :=
  bind (showQuestion st) (λ st,
  let st := foldl (λ st i, selectAnswer i st) st clicks in
  submitAnswer now rnd iso (selectAnswer index st) ls).

(** *** saveToServerWithRetry *)

(** What the session does to the outside, in order: the POST of a
    record, the [confirm] after [retryCount] failed tries, the [alert]
    after the last one, a write of [saveProgress], the alerts of
    [loadQuestions] (everything is saved; so many of so many questions
    are not) and of [completeReview] (the unsaved questions are done; the
    score), each with the numbers its text is built from, and the change
    to [index.html]. *)
Inductive Effect : Type :=
  | Posted (reviewData : Review)
  | AskedRetry (retryCount : nat)
  | AlertedFailure
  | Stored (e : Event)
  | AlertedAllSaved
  | AlertedMissing (missing total : nat)
  | AlertedBackfilled (missing : nat)
  | AlertedScore (correct total : nat) (accuracy : Z)
  | AlertedNoScore
  | WentHome.

Definition maxRetries : nat := 3.

(** The [while] loop of [saveToServerWithRetry]; [retryCount] is the loop
    variable and [remaining] the number of tries the bound still allows.
    [posts n] is what the request of try [n] meets, [retries n] the
    answer to the dialog shown after [n] failures. *)
Fixpoint retry_loop (cfg : option Config) (posts : nat → Fetch (option string))
    (retries : nat → bool) (reviewData : Review) (retryCount remaining : nat)
  : bool * list Effect :=
  match remaining with
  | O => (false, [])
  | S remaining =>
      let '(saveResult, sent) := saveReviewToAPI cfg (posts retryCount) reviewData in
      if saveResult then (true, Posted <$> sent)
      else
        let retryCount := S retryCount in
        if bool_decide (retryCount < maxRetries)%nat then
          if retries retryCount then
            let '(saveSuccess, rest) :=
              retry_loop cfg posts retries reviewData retryCount remaining in
            (saveSuccess, (Posted <$> sent) ++ AskedRetry retryCount :: rest)
          else (false, (Posted <$> sent) ++ [AskedRetry retryCount])
        else (false, (Posted <$> sent) ++ [AlertedFailure])
  end.

(** [saveToServerWithRetry(reviewData)]: whether the record was saved,
    and what happened on the way. *)
Definition saveToServerWithRetry (cfg : option Config) (posts : nat → Fetch (option string))
    (retries : nat → bool) (reviewData : Review) : bool * list Effect :=
  retry_loop cfg posts retries reviewData 0 maxRetries.

(** *** nextQuestion and completeReview *)

(** [QuizApp] with the fields of the mode that revisits unsaved
    questions. *)
Record Session := {
  app : State;
  missingQuestionsMode : bool;
  missingQuestionIndexes : list Z;
  currentMissingIndex : nat
}.

(** What the outside answers during one call. *)
Record World := {
  w_config : option Config;
  w_posts : nat → Fetch (option string);
  w_retries : nat → bool;
  w_put : Fetch (option string);
  w_iso : string
}.

(** [this.currentIndex = i] *)
Definition set_currentIndex (i : nat) (st : State) : State :=
  {| questions := questions st; currentIndex := i;
     selectedAnswer := selectedAnswer st;
     correctAnswerIndex := correctAnswerIndex st;
     app_reviewerName := app_reviewerName st; app_category := app_category st;
     currentReviewId := currentReviewId st;
     choiceButtons := choiceButtons st;
     resultShown := resultShown st |}.

(** The first block of [nextQuestion] and of [completeReview]: the
    comment, already trimmed, is stored locally and the stored record is
    then sent to the server. *)
Definition sync_comment (w : World) (comment : string) (s : Session) (ls : LocalStorage)
  : LocalStorage * list Effect :=
  if truthy (currentReviewId (app s)) then
    let reviewId := default EmptyString (currentReviewId (app s)) in
    let ls := (updateComment reviewId comment ls).2 in
    match list_find (λ r, review_id r = reviewId) (getAllResults ls) with
    | Some (_, reviewData) =>
        (ls, (saveToServerWithRetry (w_config w) (w_posts w) (w_retries w) reviewData).2)
    | None => (ls, [])
    end
  else (ls, []).

(** [nextQuestion()] *)
Definition nextQuestion (w : World) (comment : string) (s : Session) (ls : LocalStorage)
  : Completion (Session * LocalStorage * list Effect) :=
  let '(ls, synced) := sync_comment w comment s ls in
  let '(ls, saved) :=
    if negb (missingQuestionsMode s) then
      saveProgress (w_config w) (w_put w) (w_iso w)
        (app_reviewerName (app s)) (app_category (app s))
        (Z.of_nat (currentIndex (app s))) ls
    else (ls, []) in
  let log := synced ++ (Stored <$> saved) in
  if missingQuestionsMode s then
    if bool_decide (S (currentMissingIndex s) < length (missingQuestionIndexes s))%nat then
      let currentMissingIndex := S (currentMissingIndex s) in
      bind (from_option Normal (Throw "TypeError: question is undefined")
              (missingQuestionIndexes s !! currentMissingIndex)) (λ i,
      bind (showQuestion (set_currentIndex (Z.to_nat i) (app s))) (λ st,
      Normal ({| app := st; missingQuestionsMode := true;
                 missingQuestionIndexes := missingQuestionIndexes s;
                 currentMissingIndex := currentMissingIndex |}, ls, log)))
    else Normal (s, ls, log)
  else if bool_decide (S (currentIndex (app s)) < length (questions (app s)))%nat then
    bind (showQuestion (set_currentIndex (S (currentIndex (app s))) (app s))) (λ st,
    Normal ({| app := st; missingQuestionsMode := false;
               missingQuestionIndexes := missingQuestionIndexes s;
               currentMissingIndex := currentMissingIndex s |}, ls, log))
  else Normal (s, ls, log).

(** [completeReview()].  [stats.byReviewer[this.reviewerName]] is an entry
    of the dictionary, a member of [Object.prototype], a NaN that
    [getStatistics] has left on [Object.prototype], or [undefined].  Only
    the last makes the reading of [reviewerStats.correct] throw; a
    member and a NaN have no score to show, and the message is made of
    the words [undefined] and [NaN]. *)
Definition completeReview (w : World) (comment : string) (s : Session) (ls : LocalStorage)
  : Completion (LocalStorage * list Effect) :=
  let '(ls, synced) := sync_comment w comment s ls in
  if missingQuestionsMode s then
    Normal (ls, synced ++ [AlertedBackfilled (length (missingQuestionIndexes s)); WentHome])
  else
    let ls := clearProgress (app_reviewerName (app s)) (app_category (app s)) ls in
    let stats := getStatistics ls in
    match lookup (byReviewer stats) (app_reviewerName (app s)) with
    | Own reviewerStats =>
        Normal (ls, synced ++ [AlertedScore (g_correct reviewerStats) (g_total reviewerStats)
                                 (g_accuracy reviewerStats); WentHome])
    | Method | Prototype => Normal (ls, synced ++ [AlertedNoScore; WentHome])
    | Missing =>
        if bool_decide (app_reviewerName (app s) ∈ getStatistics_prototype ls)
        then Normal (ls, synced ++ [AlertedNoScore; WentHome])
        else Throw "TypeError: reviewerStats is undefined"
    end.

(** *** init and loadQuestions *)

(** What [GitHubLoader.fetch] resolves to. *)
Inductive QuizData : Type :=
  | QuestionArray (data : list Question)
  | NotAQuestionArray.

Inductive MissingChoice : Type := SolveMissing | CancelMissing.

Inductive ResumeChoice : Type := Continue | Restart | CancelResume.

(** How [loadQuestions] ends: a question is on screen, the page goes back
    to the entry page, or the error panel shows a message. *)
Inductive Loaded : Type :=
  | Started (s : Session) (log : list Effect)
  | BackHome (log : list Effect)
  | ShowedError (message : string).

(** The session [init] sets up before it loads the questions. *)
Definition new_session (reviewerName category : string) (missingMode : bool) : Session :=
  {| app := {| questions := []; currentIndex := 0; selectedAnswer := None;
               correctAnswerIndex := None; app_reviewerName := reviewerName;
               app_category := category; currentReviewId := None;
               choiceButtons := []; resultShown := false |};
     missingQuestionsMode := missingMode;
     missingQuestionIndexes := []; currentMissingIndex := 0 |}.

(** [this.questions = qs] *)
Definition set_questions (qs : list Question) (st : State) : State :=
  {| questions := qs; currentIndex := currentIndex st;
     selectedAnswer := selectedAnswer st;
     correctAnswerIndex := correctAnswerIndex st;
     app_reviewerName := app_reviewerName st; app_category := app_category st;
     currentReviewId := currentReviewId st;
     choiceButtons := choiceButtons st;
     resultShown := resultShown st |}.

(** The start of a pass over the unsaved questions. *)
Definition start_missing (st : State) (missing : list Z) (log : list Effect)
  : Completion Loaded :=
  bind (from_option Normal (Throw "TypeError: question is undefined") (missing !! 0%nat))
    (λ i,
  bind (showQuestion (set_currentIndex (Z.to_nat i) st)) (λ st,
  Normal (Started {| app := st; missingQuestionsMode := true;
                     missingQuestionIndexes := missing; currentMissingIndex := 0 |} log))).

(** The start of a pass in order, at index [i]. *)
Definition start_at (s : Session) (st : State) (i : nat) : Completion Loaded :=
  bind (showQuestion (set_currentIndex i st)) (λ st,
  Normal (Started {| app := st; missingQuestionsMode := false;
                     missingQuestionIndexes := missingQuestionIndexes s;
                     currentMissingIndex := currentMissingIndex s |} [])).

(** [loadQuestions()].  [data] is what the quiz file gives, [reviews] and
    [progress] what the two remote reads meet, [resumeConfirmed] whether
    the entry page has set its flag, and the two choices the answers to
    the dialogs, used if they are shown. *)
Definition loadQuestions (cfg : option Config) (data : Completion QuizData)
    (reviews : Fetch ListBody) (progress : Fetch ProgressBody) (resumeConfirmed : bool)
    (missingChoice : MissingChoice) (resumeChoice : ResumeChoice)
    (s : Session) (ls : LocalStorage) : Loaded :=
  let reviewerName := app_reviewerName (app s) in
  let categoryName := app_category (app s) in
  try_catch
    (bind data (λ data,
     match data with
     | NotAQuestionArray => Throw "問題データの形式が不正です（配列である必要があります）"
     | QuestionArray data =>
         if bool_decide (length data = 0%nat) then Throw "問題データが空です"
         else
           let filteredQuestions := filter (λ q, q_category q = categoryName) data in
           if bool_decide (length filteredQuestions = 0%nat)
           then Throw ("カテゴリ「" +:+ categoryName +:+ "」の問題が見つかりませんでした")
           else
             let st := set_questions filteredQuestions (app s) in
             if missingQuestionsMode s then
               let missing :=
                 getMissingQuestions cfg reviews reviewerName categoryName filteredQuestions in
               if bool_decide (length missing = 0%nat)
               then Normal (BackHome [AlertedAllSaved; WentHome])
               else start_missing st missing
                      [AlertedMissing (length missing) (length filteredQuestions)]
             else
               let progress := getProgress cfg progress reviewerName categoryName ls in
               match progress with
               | Some p =>
                   if bool_decide (Z.of_nat (length filteredQuestions) - 1 ≤ p_questionIndex p)
                      && negb resumeConfirmed
                   then
                     let missing :=
                       getMissingQuestions cfg reviews reviewerName categoryName
                         filteredQuestions in
                     if bool_decide (0 < length missing)%nat then
                       match missingChoice with
                       | SolveMissing => start_missing st missing []
                       | CancelMissing => Normal (BackHome [WentHome])
                       end
                     else Normal (BackHome [AlertedAllSaved; WentHome])
                   else if bool_decide (0 ≤ p_questionIndex p
                                        < Z.of_nat (length filteredQuestions))
                   then
                     if resumeConfirmed then start_at s st (Z.to_nat (p_questionIndex p))
                     else
                       match resumeChoice with
                       | Continue => start_at s st (Z.to_nat (p_questionIndex p))
                       | Restart => start_at s st 0
                       | CancelResume => Normal (BackHome [WentHome])
                       end
                   else start_at s st 0
               | None => start_at s st 0
               end
     end))
    (λ message, ShowedError message).

(** [init()], up to the loading of the questions: the three items of
    [localStorage] must be there. *)
Definition init (current_reviewer current_category current_quiz_path : option string)
    (missingMode : bool) : option Session :=
  if negb (truthy current_reviewer) || negb (truthy current_category)
     || negb (truthy current_quiz_path)
  then None
  else Some (new_session (default EmptyString current_reviewer)
               (default EmptyString current_category) missingMode).

End QuizApp.

(** ** js/analytics.js *)

Module Analytics.
Import Js.

(** A review joined with its catalog entry: [{...review, question}].
    [None] is the empty object of [question || {}]. *)
Record Enriched := {
  review : Review;
  question : option Question
}.

(** [review.question_id || review.questionId] *)
Definition question_id_of (r : Review) : option string :=
  or_else (question_id r) (questionId r).

(** [review.reviewer_name || review.reviewerName || 'Unknown'] *)
Definition reviewer_of (r : Review) : string :=
  or_literal (or_else (reviewer_name r) (reviewerName r)) "Unknown".

(** Truthiness of [review.is_correct || review.isCorrect]. *)
Definition correct_of (r : Review) : bool :=
  truthy_bool (is_correct r) || truthy_bool (isCorrect r).

(** The [Map] from [questionID] to question; a later entry with the same
    id replaces an earlier one. *)
Definition questionMap (questions : list Question) : gmap string Question :=
  foldl (λ m q, <[questionID q := q]> m) ∅ questions.

Definition map_get (m : gmap string Question) (id : option string) : option Question :=
  id ≫= (m !!.).

(** The record set of [analyzeData], [this.enrichedReviews]. *)
Definition enrichedReviews (questions : list Question) (reviews : list Review)
    (selectedReviewers : gset string) : list Enriched :=
  let qm := questionMap questions in
  let filteredReviews := filter (λ r, is_Some (map_get qm (question_id_of r))) reviews in
  let filteredReviews := filter (λ r, reviewer_of r ∈ selectedReviewers) filteredReviews in
  (λ r, {| review := r; question := map_get qm (question_id_of r) |}) <$> filteredReviews.

(** *** calculateByReviewer *)

Record ReviewerAcc := {
  ra_correct : nat;
  ra_total : nat;
  uniqueQuestions : gset (option string);
  correctQuestions : gset (option string)
}.

(** An entry of [reviewerStats]; [rs_accuracy] in tenths. *)
Record ReviewerStats := {
  rs_correct : nat;
  rs_total : nat;
  rs_accuracy : Z
}.

(** One pass of the loop.  Under the name of a member of
    [Object.prototype] the test [!stats[reviewer]] finds that member,
    which has no [uniqueQuestions], and the call of [has] throws. *)
Definition byReviewer_step (stats : obj ReviewerAcc) (e : Enriched)
  : Completion (obj ReviewerAcc) :=
  let reviewer := reviewer_of (review e) in
  let questionId := question_id_of (review e) in
  let stats :=
    match lookup stats reviewer with
    | Missing => obj_set stats reviewer
                   {| ra_correct := 0; ra_total := 0; uniqueQuestions := ∅; correctQuestions := ∅ |}
    | _ => stats
    end in
  match lookup stats reviewer with
  | Own s =>
      Normal
        (if decide (questionId ∈ uniqueQuestions s) then stats
         else
           let counted := correct_of (review e) in
           obj_set stats reviewer
             {| ra_correct := if counted then S (ra_correct s) else ra_correct s;
                ra_total := S (ra_total s);
                uniqueQuestions := {[questionId]} ∪ uniqueQuestions s;
                correctQuestions := if counted then {[questionId]} ∪ correctQuestions s
                                    else correctQuestions s |})
  | _ => Throw "TypeError: stats[reviewer].uniqueQuestions is undefined"
  end.

(** [s.total > 0 ? ((s.correct / s.total) * 100).toFixed(1) : 0] *)
Definition accuracy_of (correct total : nat) : Z :=
  if bool_decide (0 < total)%nat then toFixed1 (percent correct total) else 0.

Definition byReviewer_finish (s : ReviewerAcc) : ReviewerStats :=
  {| rs_correct := ra_correct s; rs_total := ra_total s;
     rs_accuracy := accuracy_of (ra_correct s) (ra_total s) |}.

Definition calculateByReviewer (enriched : list Enriched) : Completion (obj ReviewerStats) :=
  bind (forEach byReviewer_step [] enriched) (λ stats,
  Normal (prod_map id byReviewer_finish <$> stats)).

(** *** calculateOverallStats *)

Record OverallStats := {
  os_accuracy : Z;
  reviewerCount : nat
}.

(** [reviewers.reduce] reads [this.reviewerStats[reviewer]] for each key,
    that is, it runs over [values reviewerStats]. *)
Definition calculateOverallStats (reviewerStats : obj ReviewerStats) : OverallStats :=
  let reviewers := keys reviewerStats in
  if bool_decide (length reviewers = 0%nat) then {| os_accuracy := 0; reviewerCount := 0 |}
  else
    let totalAccuracy :=
      foldl (λ sum s, PrimFloat.add sum (parseFloat_tenths (rs_accuracy s)))
        PrimFloat.zero (values reviewerStats) in
    {| os_accuracy := toFixed1 (PrimFloat.div totalAccuracy (number (length reviewers)));
       reviewerCount := length reviewers |}.

(** *** calculateByAuthor *)

Record Counts := {
  c_correct : nat;
  c_total : nat
}.

Record AuthorStats := {
  questionCount : nat;
  as_accuracy : Z;
  as_reviewerCount : nat
}.

(** [!author || author === 'Unknown'] *)
Definition skipped_author (author : option string) : bool :=
  negb (truthy author) || bool_decide (author = Some "Unknown").

(** One pass of the first loop.  Where [authorReviewerStats[author]] is
    an object of the dictionary, a reviewer named like a member of
    [Object.prototype] gets no counts of its own: the counters raised are
    properties of the member.  Where [authorReviewerStats[author]] is a
    function of [Object.prototype], the counts go to properties of that
    function and the dictionary stays as it is, except that the reading
    of [caller] or [arguments] on a built-in function throws.  Where it
    is [Object.prototype] itself, the reviewer names that are members
    are handled likewise, the assignment to [__proto__] throws, since
    the prototype of [Object.prototype] cannot be set, and any other
    name becomes a property of [Object.prototype]. *)
Definition byAuthor_step (authorReviewerStats : obj (obj Counts)) (e : Enriched)
  : Run (obj (obj Counts)) :=
  let author := question e ≫= authored_by in
  let reviewer := reviewer_of (review e) in
  if skipped_author author then Done authorReviewerStats
  else
    let a := prop_key author in
    let authorReviewerStats :=
      match lookup authorReviewerStats a with
      | Missing => obj_set authorReviewerStats a []
      | _ => authorReviewerStats
      end in
    match lookup authorReviewerStats a with
    | Own of_author =>
        let of_author :=
          match lookup of_author reviewer with
          | Missing => obj_set of_author reviewer {| c_correct := 0; c_total := 0 |}
          | _ => of_author
          end in
        match lookup of_author reviewer with
        | Own s =>
            Done (obj_set authorReviewerStats a
                    (obj_set of_author reviewer
                       {| c_correct := if correct_of (review e) then S (c_correct s)
                                       else c_correct s;
                          c_total := S (c_total s) |}))
        | _ => Done authorReviewerStats
        end
    | Method =>
        if bool_decide (reviewer ∈ ["caller"; "arguments"])
        then Raised "TypeError: 'caller' and 'arguments' may not be accessed"
        else Done authorReviewerStats
    | Prototype =>
        if bool_decide (reviewer = "__proto__")
        then Raised "TypeError: Immutable prototype object cannot have its prototype set"
        else if bool_decide (reviewer ∈ prototype_functions) then Done authorReviewerStats
        else Polluted
    | Missing => Done authorReviewerStats
    end.

(** One pass of the second loop.  Under the name of a member of
    [Object.prototype] the sum is a string, which no entry of the result
    reads: entries are made for the own keys of [authorReviewerStats],
    and none of those is such a name. *)
Definition count_step (authorQuestionCounts : obj nat) (q : Question) : obj nat :=
  let author := authored_by q in
  if skipped_author author then authorQuestionCounts
  else
    let a := prop_key author in
    match lookup authorQuestionCounts a with
    | Own n => obj_set authorQuestionCounts a (S n)
    | Missing => obj_set authorQuestionCounts a 1%nat
    | _ => authorQuestionCounts
    end.

(** [s.total > 0 ? (s.correct / s.total) * 100 : 0] *)
Definition counts_percent (s : Counts) : float :=
  if bool_decide (0 < c_total s)%nat then percent (c_correct s) (c_total s)
  else PrimFloat.zero.

(** The entry of an own key [author] of [authorReviewerStats].  Own keys
    are made where a lookup has found nothing, so [author] is not the
    name of a member of [Object.prototype], and
    [authorQuestionCounts[author]] is an own property or [undefined]. *)
Definition author_entry (authorQuestionCounts : obj nat) (author : string)
    (reviewerStats : obj Counts) : AuthorStats :=
  let accuracies := counts_percent <$> values reviewerStats in
  {| questionCount := default 0%nat (obj_get authorQuestionCounts author);
     as_accuracy := toFixed1 (mean accuracies);
     as_reviewerCount := length (keys reviewerStats) |}.

(** The last loop runs over the own keys of [authorReviewerStats]. *)
Definition calculateByAuthor (questions : list Question) (enriched : list Enriched)
  : Run (obj AuthorStats) :=
  run_bind (run_forEach byAuthor_step [] enriched) (λ authorReviewerStats,
  let authorQuestionCounts := foldl count_step [] questions in
  Done
    (foldl
       (λ stats author,
          match obj_get authorReviewerStats author with
          | None => stats
          | Some reviewerStats =>
              if bool_decide (length (keys reviewerStats) = 0%nat) then stats
              else obj_set stats author
                     (author_entry authorQuestionCounts author reviewerStats)
          end)
       [] (keys authorReviewerStats))).

(** *** calculateByQuestion *)

Record QuestionAcc := {
  qa_questionId : option string;
  qa_question : option Question;
  qa_correct : nat;
  qa_total : nat
}.

Record QuestionStats := {
  qs_questionId : option string;
  qs_question : option Question;
  qs_correct : nat;
  qs_total : nat;
  qs_accuracy : Z
}.

(** One pass of the loop.  Under the name of a member of
    [Object.prototype] no entry is made and the counters raised are
    properties of the member: the dictionary stays as it is. *)
Definition byQuestion_step (stats : obj QuestionAcc) (e : Enriched) : obj QuestionAcc :=
  let questionId := question_id_of (review e) in
  let k := prop_key questionId in
  let stats :=
    match lookup stats k with
    | Missing => obj_set stats k {| qa_questionId := questionId; qa_question := question e;
                                    qa_correct := 0; qa_total := 0 |}
    | _ => stats
    end in
  match lookup stats k with
  | Own s =>
      obj_set stats k
        {| qa_questionId := qa_questionId s; qa_question := qa_question s;
           qa_correct := if correct_of (review e) then S (qa_correct s) else qa_correct s;
           qa_total := S (qa_total s) |}
  | _ => stats
  end.

Definition byQuestion_finish (s : QuestionAcc) : QuestionStats :=
  {| qs_questionId := qa_questionId s; qs_question := qa_question s;
     qs_correct := qa_correct s; qs_total := qa_total s;
     qs_accuracy := accuracy_of (qa_correct s) (qa_total s) |}.

(** The comparator subtracts the [parseFloat] of two accuracies, which
    orders them as their tenths do. *)
Definition calculateByQuestion (enriched : list Enriched) : list QuestionStats :=
  let stats := foldl byQuestion_step [] enriched in
  let statsList := byQuestion_finish <$> values stats in
  sort_by_key qs_accuracy statsList.

(** *** analyzeData *)

(** The fields of [Analytics] that [analyzeData] assigns; [None] is a
    field that no call has assigned yet. *)
Record Analysis := {
  an_enriched : option (list Enriched);
  authorStats : option (obj AuthorStats);
  reviewerStats : option (obj ReviewerStats);
  questionStats : option (list QuestionStats);
  overallStats : option OverallStats
}.

Definition unassigned : Analysis :=
  {| an_enriched := None; authorStats := None; reviewerStats := None;
     questionStats := None; overallStats := None |}.

(** [analyzeData()]: the fields as the call leaves them, and how it ends.
    An exception leaves the fields that come after it as they were. *)
Definition analyzeData (questions : list Question) (reviews : list Review)
    (selectedReviewers : gset string) (this : Analysis) : Analysis * Run unit :=
  let enriched := enrichedReviews questions reviews selectedReviewers in
  let this := {| an_enriched := Some enriched; authorStats := authorStats this;
                 reviewerStats := reviewerStats this; questionStats := questionStats this;
                 overallStats := overallStats this |} in
  match calculateByAuthor questions enriched with
  | Polluted => (this, Polluted)
  | Raised msg => (this, Raised msg)
  | Done byAuthor =>
      let this := {| an_enriched := an_enriched this; authorStats := Some byAuthor;
                     reviewerStats := reviewerStats this;
                     questionStats := questionStats this;
                     overallStats := overallStats this |} in
      match calculateByReviewer enriched with
      | Throw msg => (this, Raised msg)
      | Normal byReviewer =>
          ({| an_enriched := an_enriched this; authorStats := authorStats this;
              reviewerStats := Some byReviewer;
              questionStats := Some (calculateByQuestion enriched);
              overallStats := Some (calculateOverallStats byReviewer) |}, Done tt)
      end
  end.

(** *** downloadQuestionCSV *)

Definition comma : Ascii.ascii := Ascii.ascii_of_nat 44.
Definition newline : Ascii.ascii := Ascii.ascii_of_nat 10.
Definition dquote : Ascii.ascii := Ascii.ascii_of_nat 34.

(** [str.includes(c)] for a one-character [c]. *)
Fixpoint includes (c : Ascii.ascii) (str : string) : bool :=
  match str with
  | EmptyString => false
  | String c' str' => bool_decide (c' = c) || includes c str'
  end.

(** Every double quote of [str] written twice. *)
Fixpoint double_quotes (str : string) : string :=
  match str with
  | EmptyString => EmptyString
  | String c str' =>
      if bool_decide (c = dquote) then String dquote (String dquote (double_quotes str'))
      else String c (double_quotes str')
  end.

Definition escapeCSV (value : option string) : string :=
  match value with
  | None => "null"
  | Some str =>
      if includes comma str || includes newline str || includes dquote str
      then String dquote (double_quotes str +:+ String dquote EmptyString)
      else str
  end.

(** What the export keeps of a review. *)
Record Cell := {
  cell_answer : option string;
  cell_is_correct : bool
}.

(** [review.reviewer_name || review.reviewerName], as a property key. *)
Definition csv_reviewer (r : Review) : string :=
  prop_key (or_else (reviewer_name r) (reviewerName r)).

(** The object that [reviewsByQuestion] keeps for a question: its own
    properties and, once a cell has been assigned to [__proto__], that
    cell, which is then the prototype of the object. *)
Record Cells := {
  own_cells : obj Cell;
  proto_cell : option Cell
}.

Definition no_cells : Cells := {| own_cells := []; proto_cell := None |}.

(** [o[reviewer] = cell]: an assignment makes an own property under every
    name but [__proto__]. *)
Definition set_cell (o : Cells) (reviewer : string) (cell : Cell) : Cells :=
  if bool_decide (reviewer = "__proto__")
  then {| own_cells := own_cells o; proto_cell := Some cell |}
  else {| own_cells := obj_set (own_cells o) reviewer cell; proto_cell := proto_cell o |}.

(** One pass of the loop that fills [reviewsByQuestion]. *)
Definition csv_step (reviewsByQuestion : gmap (option string) Cells) (e : Enriched)
  : gmap (option string) Cells :=
  let questionId := question_id_of (review e) in
  let reviewer := csv_reviewer (review e) in
  let reviewsByQuestion :=
    match reviewsByQuestion !! questionId with
    | Some _ => reviewsByQuestion
    | None => <[questionId := no_cells]> reviewsByQuestion
    end in
  let of_question := default no_cells (reviewsByQuestion !! questionId) in
  <[questionId := set_cell of_question reviewer
                    {| cell_answer := answer (review e);
                       cell_is_correct := correct_of (review e) |}]> reviewsByQuestion.

Definition csv_headers (reviewers : list string) : list string :=
  ["question_id"; "question"; "category"; "authored_by";
   "choice_1"; "choice_2"; "choice_3"; "choice_4"; "correct_answer"]
  ++ (reviewers ≫= λ reviewer, [reviewer +:+ "_answer"; reviewer +:+ "_is_correct"]).

(** The two cells for a cell object, for a truthy value that has neither
    an [answer] nor an [is_correct], and for a falsy value. *)
Definition cells_of (r : Cell) : list string :=
  [escapeCSV (cell_answer r); if cell_is_correct r then "true" else "false"].

Definition cells_of_member : list string := ["null"; "false"].

Definition cells_of_nothing : list string := ["null"; "null"].

(** The two cells of one reviewer in the row of one question.  What
    [questionReviews[reviewer]] finds is an own property, or else a
    property of the prototype: of the cell assigned to [__proto__], whose
    properties are its [answer] and its [is_correct], and then of
    [Object.prototype]. *)
Definition csv_cells (questionReviews : Cells) (reviewer : string) : list string :=
  if bool_decide (reviewer = "__proto__") then
    match proto_cell questionReviews with
    | Some r => cells_of r
    | None => cells_of_member
    end
  else
    match obj_get (own_cells questionReviews) reviewer with
    | Some r => cells_of r
    | None =>
        match proto_cell questionReviews with
        | Some r =>
            if bool_decide (reviewer = "answer")
            then if truthy (cell_answer r) then cells_of_member else cells_of_nothing
            else if bool_decide (reviewer = "is_correct")
            then if cell_is_correct r then cells_of_member else cells_of_nothing
            else if bool_decide (reviewer ∈ prototype_functions) then cells_of_member
            else cells_of_nothing
        | None =>
            if bool_decide (reviewer ∈ prototype_functions) then cells_of_member
            else cells_of_nothing
        end
    end.

(** The nine cells that describe the question. *)
Definition csv_question_cells (q : Question) : list string :=
  [escapeCSV (Some (questionID q));
   escapeCSV (Some (q_text q));
   escapeCSV (Some (q_category q));
   escapeCSV (authored_by q);
   escapeCSV (Some (or_literal (choice q !! 0%nat) EmptyString));
   escapeCSV (Some (or_literal (choice q !! 1%nat) EmptyString));
   escapeCSV (Some (or_literal (choice q !! 2%nat) EmptyString));
   escapeCSV (Some (or_literal (choice q !! 3%nat) EmptyString));
   escapeCSV (q_answer q)].

Definition csv_row (reviewsByQuestion : gmap (option string) Cells)
    (reviewers : list string) (q : Question) : list string :=
  let questionReviews := default no_cells (reviewsByQuestion !! Some (questionID q)) in
  csv_question_cells q ++ (reviewers ≫= csv_cells questionReviews).

(** The rows of [downloadQuestionCSV], header first. *)
Definition csv_rows (questions : list Question) (enriched : list Enriched)
    (selectedReviewers : gset string) : list (list string) :=
  let reviewers := sort_strings (elements selectedReviewers) in
  let reviewsByQuestion := foldl csv_step ∅ enriched in
  csv_headers reviewers :: (csv_row reviewsByQuestion reviewers <$> questions).

(** The text handed to the download. *)
Definition downloadQuestionCSV (questions : list Question) (enriched : list Enriched)
    (selectedReviewers : gset string) : string :=
  String.concat (String newline EmptyString)
    (String.concat (String comma EmptyString) <$> csv_rows questions enriched selectedReviewers).

(** *** loadData *)

(** [loadFromAPI()] *)
Definition loadFromAPI (cfg : option Config) (resp : Fetch ListBody)
  : Completion (list Review) :=
  match cfg with
  | None => Throw "API設定が見つかりません"
  | Some c =>
      if bool_decide (apiEndpoint c = EmptyString) then Throw "API設定が見つかりません"
      else
        match resp with
        | Rejected => Throw "fetch failed"
        | Responded ok body =>
            if negb ok then Throw "HTTP error!"
            else
              bind (from_option Normal (Throw "invalid json") body) (λ data,
              match success data, reviews data with
              | true, Some (ReviewArray l) => Normal l
              | _, _ => Throw "APIレスポンスの形式が不正です"
              end)
        end
  end.

(** [loadReviews()] *)
Definition loadReviews (cfg : option Config) (resp : Fetch ListBody)
    (ls : StorageManager.LocalStorage) : list Review :=
  let fromAPI :=
    match cfg with
    | Some c =>
        if bool_decide (apiEndpoint c ≠ EmptyString) then
          try_catch
            (bind (loadFromAPI cfg resp) (λ reviews,
             Normal (if bool_decide (0 < length reviews)%nat then Some reviews else None)))
            (λ _, None)
        else None
    | None => None
    end in
  match fromAPI with
  | Some reviews => reviews
  | None => StorageManager.getAllResults ls
  end.

(** [loadData()]: the catalog and the reviews, or the error thrown. *)
Definition loadData (quiz : Completion (list Question)) (cfg : option Config)
    (resp : Fetch ListBody) (ls : StorageManager.LocalStorage)
  : Completion (list Question * list Review) :=
  bind quiz (λ questions,
  let reviews := loadReviews cfg resp ls in
  if bool_decide (length reviews = 0%nat)
  then Throw "レビューデータが見つかりませんでした。先に問題をレビューしてください。"
  else Normal (questions, reviews)).

(** *** The reviewer filter *)

(** The two fields [initializeReviewerFilter] sets. *)
Record ReviewerFilter := {
  allReviewers : list string;
  selectedReviewers : gset string
}.

(** [initializeReviewerFilter()] *)
Definition initializeReviewerFilter (reviews : list Review) : ReviewerFilter :=
  let reviewerSet := foldl (λ set r, Set_add set (reviewer_of r)) [] reviews in
  let allReviewers := sort_strings reviewerSet in
  {| allReviewers := allReviewers; selectedReviewers := list_to_set allReviewers |}.

(** The [change] handler of the checkbox of [reviewer]. *)
Definition toggleReviewer (reviewer : string) (checked : bool) (f : ReviewerFilter)
  : ReviewerFilter :=
  {| allReviewers := allReviewers f;
     selectedReviewers := if checked then {[ reviewer ]} ∪ selectedReviewers f
                          else selectedReviewers f ∖ {[ reviewer ]} |}.

(** [selectAllReviewers()] *)
Definition selectAllReviewers (f : ReviewerFilter) : ReviewerFilter :=
  {| allReviewers := allReviewers f; selectedReviewers := list_to_set (allReviewers f) |}.

(** [deselectAllReviewers()] *)
Definition deselectAllReviewers (f : ReviewerFilter) : ReviewerFilter :=
  {| allReviewers := allReviewers f; selectedReviewers := ∅ |}.

(** [init()] up to the rendering: the fields of the analysis and the
    message of the error panel, if an exception was caught. *)
Definition init (quiz : Completion (list Question)) (cfg : option Config)
    (resp : Fetch ListBody) (ls : StorageManager.LocalStorage)
  : Analysis * Run (option string) :=
  match loadData quiz cfg resp ls with
  | Throw msg => (unassigned, Done (Some msg))
  | Normal (questions, reviews) =>
      let f := initializeReviewerFilter reviews in
      match analyzeData questions reviews (selectedReviewers f) unassigned with
      | (this, Done _) => (this, Done None)
      | (this, Raised msg) => (this, Done (Some msg))
      | (this, Polluted) => (this, Polluted)
      end
  end.

End Analytics.

(** ** scripts/migrate-progress.mjs *)

Module Migrate.
Import Js.

(** An entry of [progressMap]. *)
Record Marker := {
  m_reviewerName : option string;
  m_category : option string;
  m_questionIndex : option Z;
  m_timestamp : string
}.

(** [a < b] on values that are numbers or [undefined]; with [undefined]
    on either side the comparison is false. *)
Definition less (a b : option Z) : bool :=
  match a, b with
  | Some x, Some y => bool_decide (x < y)
  | _, _ => false
  end.

(** [`${reviewerName}__${category}`] *)
Definition marker_key (review : Review) : string :=
  prop_key (reviewer_name review) +:+ "__" +:+ prop_key (category review).

Definition marker_of (review : Review) : Marker :=
  {| m_reviewerName := reviewer_name review; m_category := category review;
     m_questionIndex := question_index review; m_timestamp := timestamp review |}.

(** One pass of [reviews.forEach].  A key has two underscores between the
    reviewer name and the category, and names a member of
    [Object.prototype] only when the reviewer name or the category is
    the empty string, which [QuizApp.init] refuses: [progressMap[key]]
    is taken on own properties. *)
Definition migrate_step (progressMap : obj Marker) (review : Review) : obj Marker :=
  let key := marker_key review in
  match obj_get progressMap key with
  | Some m =>
      if less (m_questionIndex m) (question_index review)
      then obj_set progressMap key (marker_of review)
      else progressMap
  | None => obj_set progressMap key (marker_of review)
  end.

(** The [progressMap] that [migrateProgress] writes to [progress.json]. *)
Definition migrateProgress (reviews : list Review) : obj Marker :=
  foldl migrate_step [] reviews.

End Migrate.

(** ** Sample data *)

Module Sample.
Import Js StorageManager Analytics.

Definition mk_question (id author : string) (choices : list string) (ans : string) : Question :=
  {| questionID := id; q_text := "text of " +:+ id; q_category := "food";
     authored_by := Some author; choice := choices; q_answer := Some ans;
     q_keyword := None |}.

(** A review as [saveResult] stores it. *)
Definition mk_review (id qid who : string) (index : Z) (given : string) (ok : bool) : Review :=
  {| review_id := id; question_id := Some qid; question_set := Some "food";
     question_index := Some index; keyword := EmptyString; category := Some "food";
     question_text := None; reviewer_name := Some who; answer := Some given;
     correct_answer := None; is_correct := Some ok; timestamp := "2025-01-01T00:00:00.000Z";
     comment := EmptyString; questionId := None; reviewerName := None; isCorrect := None |}.

Definition Q1 : Question := mk_question "Q1" "A" ["x"; "p"; "q"; "r"] "x".
Definition Q2 : Question := mk_question "Q2" "B" ["y"; "p"; "q"; "r"] "y".
Definition catalog : list Question := [Q1; Q2].
Definition four_questions : list Question := [Q1; Q2; Q1; Q2].

(** A question in which the text of the correct choice appears twice. *)
Definition Qdup : Question := mk_question "Q3" "A" ["a"; "a"; "b"; "c"] "a".

Definition config : Config :=
  {| apiEndpoint := "https://example.invalid/review"; enableS3Upload := true |}.

Definition served (l : list Review) : Fetch ListBody :=
  Responded true (Some {| success := true; reviews := Some (ReviewArray l) |}).

(** bob answers Q1 correctly and Q2 wrongly. *)
Definition bob_reviews : list Review :=
  [mk_review "r1" "Q1" "bob" 0 "x" true; mk_review "r2" "Q2" "bob" 1 "p" false].

(** alice has records for the indexes 0, 1 and 3. *)
Definition alice_remote : list Review :=
  [mk_review "a0" "Q1" "alice" 0 "x" true; mk_review "a1" "Q2" "alice" 1 "y" true;
   mk_review "a3" "Q2" "alice" 3 "p" false].

(** A record whose index lies beyond a catalog of four questions. *)
Definition stale_remote : list Review := [mk_review "s5" "Q9" "alice" 5 "x" true].

(** carol answers Q1 twice: wrongly first, then correctly. *)
Definition carol_reviews : list Review :=
  [mk_review "c1" "Q1" "carol" 0 "p" false; mk_review "c2" "Q1" "carol" 0 "x" true].

(** dave is right on his one answer, erin wrong on her three. *)
Definition uneven_reviews : list Review :=
  [mk_review "d1" "Q1" "dave" 0 "x" true;
   mk_review "e1" "Q1" "erin" 0 "p" false; mk_review "e2" "Q2" "erin" 1 "p" false;
   mk_review "e3" "Q3" "erin" 2 "b" false].

(** fay is right on one of her three answers, gus wrong on his one. *)
Definition third_reviews : list Review :=
  [mk_review "f1" "Q1" "fay" 0 "x" true; mk_review "f2" "Q2" "fay" 1 "p" false;
   mk_review "f3" "Q3" "fay" 2 "b" false; mk_review "g1" "Q1" "gus" 0 "p" false].

(** A reviewer who signs as [constructor] answers Q1 correctly. *)
Definition constructor_reviews : list Review :=
  [mk_review "k1" "Q1" "constructor" 0 "x" true].

(** Two records that carry no reviewer name, both for Q1: a wrong answer
    and then the right one. *)
Definition nameless (r : Review) : Review :=
  {| review_id := review_id r; question_id := question_id r;
     question_set := question_set r; question_index := question_index r;
     keyword := keyword r; category := category r;
     question_text := question_text r; reviewer_name := None;
     answer := answer r; correct_answer := correct_answer r;
     is_correct := is_correct r; timestamp := timestamp r; comment := comment r;
     questionId := questionId r; reviewerName := None; isCorrect := isCorrect r |}.

Definition nameless_reviews : list Review := nameless <$> carol_reviews.

(** A question written by an author who signs as [valueOf], and a
    question whose id is [toString]. *)
Definition Qv : Question := mk_question "Q4" "valueOf" ["z"; "p"; "q"; "r"] "z".
Definition Qt : Question := mk_question "toString" "A" ["w"; "p"; "q"; "r"] "w".

Definition empty_storage : LocalStorage :=
  {| review_results := None; review_progress := None |}.

Definition app_state (qs : list Question) (i : nat) : QuizApp.State :=
  {| QuizApp.questions := qs; QuizApp.currentIndex := i;
     QuizApp.selectedAnswer := None; QuizApp.correctAnswerIndex := None;
     QuizApp.app_reviewerName := "bob"; QuizApp.app_category := "food";
     QuizApp.currentReviewId := None; QuizApp.choiceButtons := [];
     QuizApp.resultShown := false |}.

End Sample.

(** ** What the statistics are meant to be

    Declarative counterparts of the loops of js/analytics.js, written
    with filters and counts over the record list; the properties below
    relate the code to them. *)

Module Spec.
Import Js Analytics.

(** The distinct elements of [l], each at its first occurrence. *)
Fixpoint first_occurrences {A} `{EqDecision A} (l : list A) : list A :=
  match l with
  | [] => []
  | x :: l' => x :: filter (λ y, y ≠ x) (first_occurrences l')
  end.

(** [a] tenths is a nearest tenth of the exact percentage of [correct]
    out of [total]: [|a / 10 - 100 * correct / total| <= 1 / 20]. *)
Definition nearest_tenth (correct total : nat) (a : Z) : Prop :=
  Z.abs (2 * Z.of_nat total * a - 2000 * Z.of_nat correct) ≤ Z.of_nat total.

#[global] Instance nearest_tenth_dec correct total a : Decision (nearest_tenth correct total a).
Proof. unfold nearest_tenth. apply _. Defined.

(** *** By reviewer *)

Definition reviewed_by (reviewer : string) (enriched : list Enriched) : list Enriched :=
  filter (λ e, reviewer_of (review e) = reviewer) enriched.

(** The distinct question ids of a record list. *)
Definition question_ids (l : list Enriched) : gset (option string) :=
  list_to_set ((λ e, question_id_of (review e)) <$> l).

(** The first record of [l], in input order, for the question [q]. *)
Definition first_record (q : option string) (l : list Enriched) : option Enriched :=
  head (filter (λ e, question_id_of (review e) = q) l).

Definition first_correct (l : list Enriched) (q : option string) : bool :=
  from_option (λ e, correct_of (review e)) false (first_record q l).

(** The distinct question ids of [l] whose first record is correct. *)
Definition correct_ids (l : list Enriched) : gset (option string) :=
  filter (λ q, first_correct l q = true) (question_ids l).

Definition reviewer_stats (reviewer : string) (enriched : list Enriched) : ReviewerStats :=
  let mine := reviewed_by reviewer enriched in
  {| rs_correct := size (correct_ids mine);
     rs_total := size (question_ids mine);
     rs_accuracy := accuracy_of (size (correct_ids mine)) (size (question_ids mine)) |}.

(** The reviewers of a record list, in the order in which the keys of
    the statistics object are enumerated. *)
Definition reviewers_of (enriched : list Enriched) : list string :=
  own_keys (first_occurrences ((λ e, reviewer_of (review e)) <$> enriched)).

(** *** By author *)

Definition author_of (e : Enriched) : option string := question e ≫= authored_by.

(** The records on the questions of [author], an author that is counted. *)
Definition written_by (author : string) (enriched : list Enriched) : list Enriched :=
  filter (λ e, skipped_author (author_of e) = false ∧ author_of e = Some author) enriched.

Definition pair_counts (l : list Enriched) : Counts :=
  {| c_correct := length (filter (λ e, correct_of (review e) = true) l);
     c_total := length l |}.

Definition counted (e : Enriched) : Prop := skipped_author (author_of e) = false.

#[global] Instance counted_dec e : Decision (counted e).
Proof. unfold counted. apply _. Defined.

(** A record in which neither the reviewer nor the author is named like a
    member of [Object.prototype]. *)
Definition plain (e : Enriched) : Prop :=
  inherited (reviewer_of (review e)) = false ∧ inherited (prop_key (author_of e)) = false.

#[global] Instance plain_dec e : Decision (plain e).
Proof. unfold plain. apply _. Defined.

(** The accuracy of each reviewer on the questions of [author]. *)
Definition reviewer_accuracies (author : string) (enriched : list Enriched) : list float :=
  let theirs := written_by author enriched in
  (λ reviewer, counts_percent (pair_counts (reviewed_by reviewer theirs)))
    <$> reviewers_of theirs.

Definition authored_count (author : string) (questions : list Question) : nat :=
  length (filter (λ q, authored_by q = Some author) questions).

Definition author_stats (questions : list Question) (author : string)
    (enriched : list Enriched) : AuthorStats :=
  {| questionCount := authored_count author questions;
     as_accuracy := toFixed1 (mean (reviewer_accuracies author enriched));
     as_reviewerCount := length (reviewers_of (written_by author enriched)) |}.

(** *** By question *)

Definition question_key (e : Enriched) : string := prop_key (question_id_of (review e)).

Definition answers_to (k : string) (enriched : list Enriched) : list Enriched :=
  filter (λ e, question_key e = k) enriched.

(** The entry of the question with key [k], if it has a record. *)
Definition question_entry (enriched : list Enriched) (k : string) : option QuestionStats :=
  match answers_to k enriched with
  | [] => None
  | e :: _ =>
      let correct := length (filter (λ e, correct_of (review e) = true) (answers_to k enriched)) in
      let total := length (answers_to k enriched) in
      Some {| qs_questionId := question_id_of (review e); qs_question := question e;
              qs_correct := correct; qs_total := total;
              qs_accuracy := toFixed1 (percent correct total) |}
  end.

(** The entries in grouping order: the order in which the keys of the
    grouping object are enumerated. *)
Definition grouped (enriched : list Enriched) : list QuestionStats :=
  omap (question_entry enriched)
    (own_keys (first_occurrences (question_key <$> enriched))).

(** The records that the by-question loop counts: those whose question
    key is not the name of a member of [Object.prototype]. *)
Definition keyed (enriched : list Enriched) : list Enriched :=
  filter (λ e, inherited (question_key e) = false) enriched.

(** *** Export *)

(** A record that falls into the column of [reviewer] in the row of [q]. *)
Definition hits (q : Question) (reviewer : string) (e : Enriched) : Prop :=
  question_id_of (review e) = Some (questionID q) ∧ csv_reviewer (review e) = reviewer.

#[global] Instance hits_dec q reviewer e : Decision (hits q reviewer e).
Proof. unfold hits. apply _. Defined.

(** The last record of [enriched], in input order, for a question and a
    reviewer column. *)
Definition last_record (q : Question) (reviewer : string) (enriched : list Enriched)
  : option Enriched :=
  last (filter (hits q reviewer) enriched).

Definition cell_of (e : Enriched) : Cell :=
  {| cell_answer := answer (review e); cell_is_correct := correct_of (review e) |}.

(** The two cells of the column of [reviewer] in the row of [q]: those of
    the last record of the pair, if there is one.  If there is none, the
    lookup goes on to the prototype of the object of the question: to
    the last record of the question whose reviewer key is [__proto__],
    if there is one, which answers to the names [answer] and
    [is_correct], and then to [Object.prototype]. *)
Definition exported_cells (q : Question) (reviewer : string) (enriched : list Enriched)
  : list string :=
  match last_record q reviewer enriched with
  | Some e => cells_of (cell_of e)
  | None =>
      if bool_decide (reviewer = "__proto__") then cells_of_member
      else
        match last_record q "__proto__" enriched with
        | Some e =>
            if bool_decide (reviewer = "answer")
            then if truthy (answer (review e)) then cells_of_member else cells_of_nothing
            else if bool_decide (reviewer = "is_correct")
            then if correct_of (review e) then cells_of_member else cells_of_nothing
            else if bool_decide (reviewer ∈ prototype_functions) then cells_of_member
            else cells_of_nothing
        | None =>
            if bool_decide (reviewer ∈ prototype_functions) then cells_of_member
            else cells_of_nothing
        end
  end.

(** The counts of the stored records [l] of one group. *)
Definition tally (l : list Review) : StorageManager.GroupCount :=
  {| StorageManager.gc_total := length l;
     StorageManager.gc_correct := length (filter (λ r, truthy_bool (is_correct r) = true) l);
     StorageManager.gc_incorrect :=
       length (filter (λ r, truthy_bool (is_correct r) = false) l) |}.

(** The entry of [getStatistics] for the group [k] of the records that
    [key] sorts into groups: none if no record belongs to the group. *)
Definition group_entry (key : Review → string) (k : string) (results : list Review)
  : option StorageManager.GroupStat :=
  let mine := filter (λ r, key r = k) results in
  if decide (mine = []) then None else Some (StorageManager.group_finish (tally mine)).

(** A field of a CSV line as a reader takes it: a field that opens with a
    double quote stands for the text between its outer quotes, with each
    pair of double quotes read as one; any other field stands for
    itself. *)
Fixpoint undouble (str : string) : string :=
  match str with
  | EmptyString => EmptyString
  | String c EmptyString => String c EmptyString
  | String c (String c' str' as rest) =>
      if bool_decide (c = dquote) && bool_decide (c' = dquote)
      then String dquote (undouble str')
      else String c (undouble rest)
  end.

Fixpoint drop_last (str : string) : string :=
  match str with
  | EmptyString => EmptyString
  | String c EmptyString => EmptyString
  | String c str' => String c (drop_last str')
  end.

Definition read_field (field : string) : string :=
  match field with
  | EmptyString => EmptyString
  | String c rest => if bool_decide (c = dquote) then undouble (drop_last rest) else field
  end.

(** *** A reader of CSV text

    The reader that the export is written for: fields stand between
    commas and records between line feeds; a field that opens with a
    double quote runs to the double quote that closes it, and a pair of
    double quotes inside it stands for one.  [rd_rows] are the records
    read so far, [rd_fields] the fields of the record that is being
    read and [rd_field] the characters of its last field. *)

Inductive Mode : Type :=
  | FieldStart
  | Unquoted
  | Quoted
  | QuoteSeen.

Record Reader := {
  rd_rows : list (list string);
  rd_fields : list string;
  rd_field : string;
  rd_mode : Mode
}.

Definition set_mode (m : Mode) (r : Reader) : Reader :=
  {| rd_rows := rd_rows r; rd_fields := rd_fields r; rd_field := rd_field r; rd_mode := m |}.

(** The character [c] joins the field. *)
Definition push (c : Ascii.ascii) (m : Mode) (r : Reader) : Reader :=
  {| rd_rows := rd_rows r; rd_fields := rd_fields r;
     rd_field := rd_field r +:+ String c EmptyString; rd_mode := m |}.

Definition end_field (r : Reader) : Reader :=
  {| rd_rows := rd_rows r; rd_fields := rd_fields r ++ [rd_field r];
     rd_field := EmptyString; rd_mode := FieldStart |}.

Definition end_row (r : Reader) : Reader :=
  {| rd_rows := rd_rows r ++ [rd_fields r ++ [rd_field r]]; rd_fields := [];
     rd_field := EmptyString; rd_mode := FieldStart |}.

Definition read_char (r : Reader) (c : Ascii.ascii) : Reader :=
  match rd_mode r with
  | Quoted => if bool_decide (c = dquote) then set_mode QuoteSeen r else push c Quoted r
  | m =>
      if bool_decide (c = comma) then end_field r
      else if bool_decide (c = newline) then end_row r
      else if bool_decide (c = dquote) then
        match m with
        | FieldStart => set_mode Quoted r
        | QuoteSeen => push dquote Quoted r
        | _ => push c Unquoted r
        end
      else push c Unquoted r
  end.

Fixpoint read_from (r : Reader) (text : string) : Reader :=
  match text with
  | EmptyString => r
  | String c text' => read_from (read_char r c) text'
  end.

(** The records of a text; the end of the text ends the last record. *)
Definition read_csv (text : string) : list (list string) :=
  rd_rows (end_row (read_from {| rd_rows := []; rd_fields := []; rd_field := EmptyString;
                                 rd_mode := FieldStart |} text)).

(** A name that can head a column: it holds no comma, no line feed and
    no double quote. *)
Definition plain_text (str : string) : Prop :=
  includes comma str || includes newline str || includes dquote str = false.

(** The index of the correct choice of a question: the position of the
    first choice whose text is the answer of the question, when that
    answer is a non-empty text that occurs among the choices, and 0
    otherwise. *)
Definition correct_position (q : Question) (i : nat) : Prop :=
  match q_answer q with
  | Some a =>
      if decide (a ≠ EmptyString ∧ a ∈ choice q)
      then choice q !! i = Some a ∧ ∀ j, (j < i)%nat → choice q !! j ≠ Some a
      else i = 0%nat
  | None => i = 0%nat
  end.

(** A quiz session is within bounds when the question it points at
    exists and, in the mode that revisits unsaved questions, its place in
    the list of unsaved indexes exists and every index of that list is a
    position of the question list. *)
Definition in_bounds (s : QuizApp.Session) : Prop :=
  (QuizApp.currentIndex (QuizApp.app s) < length (QuizApp.questions (QuizApp.app s)))%nat
  ∧ (QuizApp.missingQuestionsMode s = true →
     (QuizApp.currentMissingIndex s < length (QuizApp.missingQuestionIndexes s))%nat
     ∧ Forall (λ i, 0 ≤ i < Z.of_nat (length (QuizApp.questions (QuizApp.app s))))
         (QuizApp.missingQuestionIndexes s)).

(** The response with which the server takes a posted record. *)
Definition accepted (resp : Fetch (option string)) : Prop :=
  ∃ body, resp = Responded true (Some body).

(** The record an effect sends to the server, if it is a request. *)
Definition posted (e : QuizApp.Effect) : option Review :=
  match e with
  | QuizApp.Posted reviewData => Some reviewData
  | _ => None
  end.

End Spec.

(** ** The loops as grouping folds

    Each loop of js/analytics.js that fills an object rewrites, for every
    record, the value under the key of the record.  These are the
    rewriting steps, and the entries they add up to. *)

Module Loops.
Import Js Analytics.

(** A loop that groups the elements of a list in an object: each element
    [x] rewrites the value under [key x] from the value found there. *)
Definition group_step {X V} (key : X → string) (f : option V → X → V)
    (o : obj V) (x : X) : obj V :=
  obj_set o (key x) (f (obj_get o (key x)) x).

(** The value such a loop leaves under a key, from the elements that
    carry the key, in order. *)
Definition fold_value {X V} (f : option V → X → V) (l : list X) : option V :=
  foldl (λ ov x, Some (f ov x)) None l.

(** What one record does to the entry of its reviewer. *)
Definition reviewer_update (ov : option ReviewerAcc) (e : Enriched) : ReviewerAcc :=
  let s := default {| ra_correct := 0; ra_total := 0;
                      uniqueQuestions := ∅; correctQuestions := ∅ |} ov in
  let questionId := question_id_of (review e) in
  if decide (questionId ∈ uniqueQuestions s) then s
  else
    let counted := correct_of (review e) in
    {| ra_correct := if counted then S (ra_correct s) else ra_correct s;
       ra_total := S (ra_total s);
       uniqueQuestions := {[questionId]} ∪ uniqueQuestions s;
       correctQuestions := if counted then {[questionId]} ∪ correctQuestions s
                           else correctQuestions s |}.

(** The entry of a reviewer before the accuracy is filled in. *)
Definition reviewer_acc (mine : list Enriched) : ReviewerAcc :=
  {| ra_correct := size (Spec.correct_ids mine); ra_total := size (Spec.question_ids mine);
     uniqueQuestions := Spec.question_ids mine; correctQuestions := Spec.correct_ids mine |}.

(** What one record does to the counts of its reviewer, and to the
    object of its author. *)
Definition pair_update (os : option Counts) (e : Enriched) : Counts :=
  let s := default {| c_correct := 0; c_total := 0 |} os in
  {| c_correct := if correct_of (review e) then S (c_correct s) else c_correct s;
     c_total := S (c_total s) |}.

Definition author_update (ov : option (obj Counts)) (e : Enriched) : obj Counts :=
  group_step (λ e, reviewer_of (review e)) pair_update (default [] ov) e.

(** What one record does to the entry of its question. *)
Definition question_update (ov : option QuestionAcc) (e : Enriched) : QuestionAcc :=
  let s := default {| qa_questionId := question_id_of (review e); qa_question := question e;
                      qa_correct := 0; qa_total := 0 |} ov in
  {| qa_questionId := qa_questionId s; qa_question := qa_question s;
     qa_correct := if correct_of (review e) then S (qa_correct s) else qa_correct s;
     qa_total := S (qa_total s) |}.

(** What one record does to the object of its question. *)
Definition cell_update (ov : option Cells) (e : Enriched) : Cells :=
  set_cell (default no_cells ov) (csv_reviewer (review e)) (Spec.cell_of e).

(** The object of a question, from the records of the question. *)
Definition cells_of_question (l : list Enriched) : Cells :=
  {| own_cells :=
       foldl (group_step (λ e, csv_reviewer (review e)) (λ _ e, Spec.cell_of e)) []
         (filter (λ e, csv_reviewer (review e) ≠ "__proto__") l);
     proto_cell :=
       Spec.cell_of <$> last (filter (λ e, csv_reviewer (review e) = "__proto__") l) |}.

(** What one record does to the counts of its group in [getStatistics]. *)
Definition count_update (os : option StorageManager.GroupCount) (r : Review)
  : StorageManager.GroupCount :=
  let s := default {| StorageManager.gc_total := 0; StorageManager.gc_correct := 0;
                      StorageManager.gc_incorrect := 0 |} os in
  if truthy_bool (is_correct r)
  then {| StorageManager.gc_total := S (StorageManager.gc_total s);
          StorageManager.gc_correct := S (StorageManager.gc_correct s);
          StorageManager.gc_incorrect := StorageManager.gc_incorrect s |}
  else {| StorageManager.gc_total := S (StorageManager.gc_total s);
          StorageManager.gc_correct := StorageManager.gc_correct s;
          StorageManager.gc_incorrect := S (StorageManager.gc_incorrect s) |}.

(** What one record does to the marker of its key in the migration. *)
Definition marker_update (om : option Migrate.Marker) (review : Review) : Migrate.Marker :=
  match om with
  | Some m =>
      if Migrate.less (Migrate.m_questionIndex m) (question_index review)
      then Migrate.marker_of review
      else m
  | None => Migrate.marker_of review
  end.

End Loops.

(** * Properties *)

Import Js.

#[local] Set Warnings "-clear-no-such-hyp".

(** The head of a list is one of its elements. *)
Ltac here := apply elem_of_cons; by left.

(** The first element that a filter keeps satisfies the predicate and
    comes from the list. *)
Lemma filter_head {A} (P : A → Prop) `{∀ x, Decision (P x)} (l l' : list A) (x : A) :
  filter P l = x :: l' → P x ∧ x ∈ l.
Proof.
  intros Hfilter. apply (list_elem_of_filter P). rewrite Hfilter. here.
Qed.

(** A filter that keeps nothing meets no element it would keep. *)
Lemma filter_nil_iff {A} (P : A → Prop) `{∀ x, Decision (P x)} (l : list A) :
  filter P l = [] ↔ ∀ x, x ∈ l → ¬ P x.
Proof.
  split.
  - intros Hnil x Hin HP. by eapply (filter_nil_not_elem_of P l x).
  - intros Hno. destruct (filter P l) as [|x l'] eqn:Hfilter; [done|].
    apply filter_head in Hfilter as [HP Hin]. by destruct (Hno x Hin).
Qed.

(** A filter that every element passes keeps the list. *)
Lemma filter_all_iff {A} (P : A → Prop) `{∀ x, Decision (P x)} (l : list A) :
  filter P l = l ↔ Forall P l.
Proof.
  induction l as [|x l IH].
  - split; [constructor|done].
  - rewrite filter_cons. case_decide as HP.
    + rewrite Forall_cons. split.
      * intros [= Hl]. split; [done|]. by apply IH.
      * intros [_ Hl]. f_equal. by apply IH.
    + split.
      * intros Hl. pose proof (length_filter P l) as Hlen. rewrite Hl in Hlen. cbn in Hlen. lia.
      * by intros [? _]%Forall_cons.
Qed.

(** ** Objects, enumeration order and sorting *)

Section objects.
Context {V : Type}.
Implicit Types (o : obj V) (k : string) (v : V).

Lemma obj_get_set o k v k' :
  obj_get (obj_set o k v) k' = if decide (k = k') then Some v else obj_get o k'.
Proof.
  induction o as [|[k0 v0] o IH]; cbn.
  - by repeat case_decide.
  - repeat (case_decide; cbn; subst); try done; by rewrite IH, ?decide_True, ?decide_False.
Qed.

Lemma obj_get_set_eq o k v : obj_get (obj_set o k v) k = Some v.
Proof. by rewrite obj_get_set, decide_True. Qed.

Lemma obj_get_set_ne o k v k' : k ≠ k' → obj_get (obj_set o k v) k' = obj_get o k'.
Proof. intros. by rewrite obj_get_set, decide_False. Qed.

Lemma obj_get_is_Some o k : is_Some (obj_get o k) ↔ k ∈ o.*1.
Proof.
  induction o as [|[k0 v0] o IH]; cbn.
  - rewrite elem_of_nil. split; [by intros []|done].
  - rewrite elem_of_cons. case_decide; subst.
    + split; [by left|by eexists].
    + rewrite IH. split; [by right|]. by intros [?|?].
Qed.

Lemma obj_set_keys o k v :
  (obj_set o k v).*1 = if decide (k ∈ o.*1) then o.*1 else o.*1 ++ [k].
Proof.
  induction o as [|[k0 v0] o IH]; cbn.
  - by rewrite decide_False by apply not_elem_of_nil.
  - destruct (decide (k0 = k)) as [->|Hne]; cbn.
    + by rewrite decide_True by here.
    + rewrite IH. destruct (decide (k ∈ o.*1)).
      * by rewrite decide_True by (apply elem_of_cons; by right).
      * rewrite decide_False; [done|]. rewrite elem_of_cons. by intros [?|?].
Qed.

(** Writing back the value that is there changes nothing. *)
Lemma obj_set_same o k v : obj_get o k = Some v → obj_set o k v = o.
Proof.
  induction o as [|[k0 v0] o IH]; cbn; [done|].
  case_decide; subst.
  - by intros [= ->].
  - intros Hget. by rewrite IH.
Qed.

End objects.

Lemma obj_get_fmap {V W} (g : V → W) (o : obj V) (k : string) :
  obj_get (prod_map id g <$> o) k = g <$> obj_get o k.
Proof.
  induction o as [|[k0 v0] o IH]; cbn; [done|]. by case_decide.
Qed.

Lemma obj_keys_fmap {V W} (g : V → W) (o : obj V) :
  (prod_map id g <$> o).*1 = o.*1.
Proof. induction o as [|[k0 v0] o IH]; cbn; [done|]. by f_equal. Qed.

(** Under a name that [Object.prototype] does not have, a lookup finds
    an own property or nothing. *)
Lemma lookup_ordinary {V} (o : obj V) (k : string) :
  inherited k = false →
  lookup o k = match obj_get o k with Some v => Own v | None => Missing end.
Proof.
  unfold inherited, lookup. intros [H1 H2]%orb_false_elim.
  rewrite H1. destruct (obj_get o k); [done|]. by rewrite H2.
Qed.

(** Under a name of [Object.prototype] that it does not own, an object
    finds the member. *)
Lemma lookup_inherited {V} (o : obj V) (k : string) :
  inherited k = true → obj_get o k = None → lookup o k = Prototype ∨ lookup o k = Method.
Proof.
  unfold inherited, lookup. intros Hk Hget.
  destruct (bool_decide (k = "__proto__")); [by left|].
  cbn in Hk. rewrite Hget, Hk. by right.
Qed.

Lemma forEach_snoc {S X} (step : S → X → Completion S) (s : S) (l : list X) (x : X) :
  forEach step s (l ++ [x]) = bind (forEach step s l) (λ s', step s' x).
Proof.
  revert s. induction l as [|y l IH]; intros s; cbn.
  - by destruct (step s x).
  - destruct (step s y); cbn; [apply IH|done].
Qed.

(** A loop none of whose passes throws or writes to [Object.prototype]
    is a fold. *)
Lemma run_forEach_Done {S X} (step : S → X → Run S) (g : S → X → S) (s : S) (l : list X) :
  (∀ s x, x ∈ l → step s x = Done (g s x)) → run_forEach step s l = Done (foldl g s l).
Proof.
  revert s. induction l as [|y l IH]; intros s Hstep; cbn; [done|].
  rewrite Hstep by (apply elem_of_cons; by left). cbn.
  apply IH. intros s' x Hx. apply Hstep, elem_of_cons. by right.
Qed.

Section first_occurrences.
Context {A : Type} `{EqDecision A}.
Implicit Types (l : list A) (x : A).

Lemma elem_of_first_occurrences l x : x ∈ Spec.first_occurrences l ↔ x ∈ l.
Proof.
  induction l as [|y l IH]; cbn; [done|].
  rewrite !elem_of_cons, list_elem_of_filter, IH.
  destruct (decide (x = y)); naive_solver.
Qed.

Lemma NoDup_first_occurrences l : NoDup (Spec.first_occurrences l).
Proof.
  induction l as [|y l IH]; cbn; [constructor|].
  constructor; [|by apply NoDup_filter].
  rewrite list_elem_of_filter. naive_solver.
Qed.

Lemma first_occurrences_snoc l x :
  Spec.first_occurrences (l ++ [x])
  = if decide (x ∈ l) then Spec.first_occurrences l else Spec.first_occurrences l ++ [x].
Proof.
  induction l as [|y l IH]; cbn.
  - by rewrite decide_False by apply not_elem_of_nil.
  - rewrite IH. destruct (decide (x ∈ l)) as [Hin|Hin].
    + by rewrite decide_True by (apply elem_of_cons; by right).
    + rewrite filter_app, filter_cons, filter_nil.
      destruct (decide (x = y)) as [->|Hne].
      * rewrite decide_False by naive_solver.
        rewrite decide_True by here.
        by rewrite app_nil_r.
      * rewrite decide_True by done.
        rewrite decide_False; [done|]. rewrite elem_of_cons. naive_solver.
Qed.

End first_occurrences.

(** The grouping loop, in closed form: the keys are the keys of the
    elements at their first occurrence, and the value under a key is
    folded from the elements that carry it. *)
Section grouping.
Context {X V : Type} (key : X → string) (f : option V → X → V).

Lemma group_fold_get (l : list X) (k : string) :
  obj_get (foldl (Loops.group_step key f) [] l) k
  = Loops.fold_value f (filter (λ x, key x = k) l).
Proof.
  induction l as [|x l IH] using rev_ind; [done|].
  rewrite foldl_snoc, filter_app, filter_cons, filter_nil.
  unfold Loops.group_step at 1. rewrite obj_get_set.
  case_decide as Hk.
  - subst k. unfold Loops.fold_value in *. rewrite foldl_snoc. do 2 f_equal. apply IH.
  - by rewrite app_nil_r.
Qed.

Lemma group_fold_keys (l : list X) :
  (foldl (Loops.group_step key f) [] l).*1 = Spec.first_occurrences (key <$> l).
Proof.
  induction l as [|x l IH] using rev_ind; [done|].
  rewrite foldl_snoc, fmap_app. cbn [fmap list_fmap].
  rewrite first_occurrences_snoc.
  unfold Loops.group_step at 1. rewrite obj_set_keys, IH.
  destruct (decide (key x ∈ key <$> l)) as [Hin|Hin].
  - by rewrite decide_True by by apply elem_of_first_occurrences.
  - by rewrite decide_False by by rewrite elem_of_first_occurrences.
Qed.

Lemma fold_value_snoc (l : list X) (x : X) :
  Loops.fold_value f (l ++ [x]) = Some (f (Loops.fold_value f l) x).
Proof. unfold Loops.fold_value. by rewrite foldl_snoc. Qed.

(** The elements whose key is a name of [Object.prototype] leave no
    entry under that name. *)
Lemma group_fold_get_inherited (l : list X) (x : X) :
  inherited (key x) = true →
  obj_get (foldl (Loops.group_step key f) [] (filter (λ y, inherited (key y) = false) l)) (key x)
  = None.
Proof.
  intros Hx. rewrite group_fold_get.
  assert (filter (λ y, key y = key x) (filter (λ y, inherited (key y) = false) l) = []) as ->;
    [|done].
  apply filter_nil_iff. intros y [Hy _]%list_elem_of_filter Hkey. congruence.
Qed.

(** A grouping loop that leaves the object as it is when the key is a
    name of [Object.prototype] is the grouping loop over the other
    elements. *)
Lemma guarded_fold (step : obj V → X → obj V) (l : list X) :
  (∀ o x, inherited (key x) = false → step o x = Loops.group_step key f o x) →
  (∀ o x, inherited (key x) = true → obj_get o (key x) = None → step o x = o) →
  foldl step [] l
  = foldl (Loops.group_step key f) [] (filter (λ x, inherited (key x) = false) l).
Proof.
  intros Hordinary Hinherited. induction l as [|x l IH] using rev_ind; [done|].
  rewrite foldl_snoc, filter_app, filter_cons, filter_nil, IH.
  destruct (inherited (key x)) eqn:Hx.
  - rewrite decide_False by done. rewrite app_nil_r.
    by apply Hinherited, group_fold_get_inherited.
  - rewrite decide_True by done. rewrite foldl_snoc. by apply Hordinary.
Qed.

(** A grouping loop that throws when the key is a name of
    [Object.prototype] is the grouping loop if there is no such key, and
    throws otherwise. *)
Lemma guarded_forEach (step : obj V → X → Completion (obj V)) (msg : string) (l : list X) :
  (∀ o x, inherited (key x) = false → step o x = Normal (Loops.group_step key f o x)) →
  (∀ o x, inherited (key x) = true → obj_get o (key x) = None → step o x = Throw msg) →
  forEach step [] l
  = if decide (Forall (λ x, inherited (key x) = false) l)
    then Normal (foldl (Loops.group_step key f) [] l)
    else Throw msg.
Proof.
  intros Hordinary Hinherited. induction l as [|x l IH] using rev_ind.
  - by rewrite decide_True.
  - rewrite forEach_snoc, IH, foldl_snoc.
    destruct (decide (Forall (λ x, inherited (key x) = false) l)) as [Hl|Hl]; cbn.
    + destruct (inherited (key x)) eqn:Hx.
      * rewrite decide_False.
        2: { rewrite Forall_app, Forall_singleton. intros [_ ?]. congruence. }
        apply Hinherited; [done|].
        pose proof (group_fold_get_inherited l x Hx) as Hnone.
        by rewrite (proj2 (filter_all_iff (λ y, inherited (key y) = false) l) Hl) in Hnone.
      * rewrite decide_True by (apply Forall_app; split; [done|by apply Forall_singleton]).
        by apply Hordinary.
    + rewrite decide_False; [done|]. rewrite Forall_app. tauto.
Qed.

End grouping.

Section sorting.
Context {A : Type}.

Lemma insert_by_Permutation (before : A → A → Prop) `{∀ a b, Decision (before a b)}
    (x : A) (l : list A) :
  insert_by before x l ≡ₚ x :: l.
Proof.
  induction l as [|y l IH]; cbn; [done|].
  case_decide; [|done]. by rewrite IH, Permutation_swap.
Qed.

Lemma sort_by_Permutation (before : A → A → Prop) `{∀ a b, Decision (before a b)}
    (l : list A) :
  sort_by before l ≡ₚ l.
Proof.
  induction l as [|x l IH]; cbn; [done|].
  by rewrite insert_by_Permutation, IH.
Qed.

Context (key : A → Z).

Lemma insert_by_key_sorted (x : A) (l : list A) :
  StronglySorted (key_le key) l → StronglySorted (key_le key) (insert_by (key_lt key) x l).
Proof.
  induction 1 as [|y l Hl IH Hy]; cbn.
  - repeat constructor.
  - case_decide as Hlt; unfold key_lt in Hlt.
    + constructor; [done|].
      rewrite (insert_by_Permutation (key_lt key)). constructor; [|done].
      unfold key_le. lia.
    + constructor; [by constructor|].
      constructor; [unfold key_le; lia|].
      eapply Forall_impl; [exact Hy|]. unfold key_le. intros z ?. lia.
Qed.

(** The result of the sort ascends by key. *)
Lemma sort_by_key_sorted (l : list A) : StronglySorted (key_le key) (sort_by_key key l).
Proof.
  unfold sort_by_key. induction l as [|x l IH]; cbn; [constructor|].
  by apply insert_by_key_sorted.
Qed.

Lemma insert_by_key_filter (a : Z) (x : A) (l : list A) :
  filter (λ z, key z = a) (insert_by (key_lt key) x l) = filter (λ z, key z = a) (x :: l).
Proof.
  induction l as [|y l IH]; cbn; [done|].
  case_decide as Hlt; unfold key_lt in Hlt; [|done].
  rewrite filter_cons, IH, !filter_cons.
  repeat case_decide; try done; lia.
Qed.

(** The sort is stable: the elements of one key keep their order. *)
Lemma sort_by_key_stable (a : Z) (l : list A) :
  filter (λ z, key z = a) (sort_by_key key l) = filter (λ z, key z = a) l.
Proof.
  unfold sort_by_key. induction l as [|x l IH]; cbn; [done|].
  by rewrite insert_by_key_filter, !filter_cons, IH.
Qed.

Lemma sort_by_key_Permutation (l : list A) : sort_by_key key l ≡ₚ l.
Proof. apply sort_by_Permutation. Qed.

End sorting.

Section enumeration.

Lemma own_keys_Permutation (ks : list string) : own_keys ks ≡ₚ ks.
Proof.
  unfold own_keys. rewrite sort_by_key_Permutation. apply filter_app_complement.
Qed.

Lemma elem_of_own_keys (ks : list string) (k : string) : k ∈ own_keys ks ↔ k ∈ ks.
Proof. by rewrite own_keys_Permutation. Qed.

Lemma NoDup_own_keys (ks : list string) : NoDup ks → NoDup (own_keys ks).
Proof. by rewrite own_keys_Permutation. Qed.

(** Strings are ordered by UTF-16 code units: a character beyond the
    basic plane, which is a pair of surrogates, comes before the
    full-width yen sign U+FFE5, whose bytes in UTF-8 are the smaller. *)
Example sort_strings_code_units :
  sort_strings ["￥"; "😀"; "b"; "a"; "é"] = ["a"; "b"; "é"; "😀"; "￥"]
  ∧ code_units "😀" = [55357; 56832] ∧ code_units "￥" = [65509].
Proof. by vm_compute. Qed.

Example own_keys_order :
  own_keys ["b"; "10"; "a"; "9"; "01"] = ["9"; "10"; "b"; "a"; "01"].
Proof. by vm_compute. Qed.

(** Without array indices among the keys, enumeration order is creation
    order. *)
Lemma own_keys_no_index (ks : list string) :
  Forall (λ k, ¬ is_index k) ks → own_keys ks = ks.
Proof.
  intros Hks. unfold own_keys.
  assert (filter is_index ks = []) as ->.
  { induction Hks as [|k ks Hk _ IH]; [done|]. by rewrite filter_cons_False. }
  cbn. induction Hks as [|k ks Hk _ IH]; [done|].
  by rewrite filter_cons_True, IH.
Qed.

Lemma omap_ext_elem_of {A B} (h h' : A → option B) (l : list A) :
  (∀ x, x ∈ l → h x = h' x) → omap h l = omap h' l.
Proof.
  induction l as [|x l IH]; intros Hext; cbn; [done|].
  rewrite (Hext x) by here.
  rewrite IH; [done|]. intros y Hy. apply Hext, elem_of_cons. by right.
Qed.

Lemma omap_Some_fmap {A B} (h : A → option B) (g : A → B) (l : list A) :
  (∀ x, x ∈ l → h x = Some (g x)) → omap h l = g <$> l.
Proof.
  induction l as [|x l IH]; intros Hext; cbn; [done|].
  rewrite (Hext x) by here. cbn.
  rewrite IH; [done|]. intros y Hy. apply Hext, elem_of_cons. by right.
Qed.

End enumeration.

Lemma foldl_ext_eq {A B} (f g : A → B → A) (a : A) (l : list B) :
  (∀ a x, f a x = g a x) → foldl f a l = foldl g a l.
Proof. intros Hfg. revert a. induction l as [|x l IH]; intros a; cbn; [done|]. by rewrite Hfg, IH. Qed.

Lemma obj_set_set {V} (o : obj V) (k : string) (v v' : V) :
  obj_set (obj_set o k v) k v' = obj_set o k v'.
Proof.
  induction o as [|[k0 v0] o IH]; cbn.
  - by rewrite decide_True.
  - destruct (decide (k0 = k)) as [->|Hne]; cbn.
    + by rewrite decide_True.
    + by rewrite decide_False, IH.
Qed.

(** ** Rounding *)

(** On the counts of a catalog of up to 240 questions, the binary64
    computation of [accuracy_of] gives a nearest tenth of the exact
    percentage. *)
Lemma accuracy_of_nearest_tenth (correct total : nat) :
  (0 < total ≤ 240)%nat → (correct ≤ total)%nat →
  Spec.nearest_tenth correct total (Analytics.accuracy_of correct total).
Proof.
  intros Htotal Hcorrect.
  assert (Forall (λ t, Forall (λ c, Spec.nearest_tenth c t (Analytics.accuracy_of c t))
                         (seq 0 (S t))) (seq 1 240)) as Hall.
  { apply (bool_decide_unpack _). by vm_compute. }
  rewrite Forall_forall in Hall.
  specialize (Hall total). rewrite Forall_forall in Hall.
  apply Hall; apply elem_of_seq; lia.
Qed.

(** ** Statistics by reviewer (js/analytics.js) *)

Section by_reviewer.
Import Analytics.
Implicit Types (l : list Enriched) (e : Enriched) (q : option string).

Lemma byReviewer_step_group (stats : obj ReviewerAcc) e :
  inherited (reviewer_of (review e)) = false →
  byReviewer_step stats e
  = Normal (Loops.group_step (λ e, reviewer_of (review e)) Loops.reviewer_update stats e).
Proof.
  intros Hk. unfold byReviewer_step, Loops.group_step, Loops.reviewer_update.
  rewrite (lookup_ordinary stats) by done.
  destruct (obj_get stats (reviewer_of (review e))) as [s|] eqn:Hget; cbn.
  - rewrite lookup_ordinary, Hget by done. f_equal.
    case_decide; [by rewrite obj_set_same|done].
  - rewrite lookup_ordinary, obj_get_set_eq by done. cbn. f_equal.
    rewrite !decide_False by set_solver. by rewrite obj_set_set.
Qed.

Lemma byReviewer_step_throws (stats : obj ReviewerAcc) e :
  inherited (reviewer_of (review e)) = true →
  obj_get stats (reviewer_of (review e)) = None →
  byReviewer_step stats e = Throw "TypeError: stats[reviewer].uniqueQuestions is undefined".
Proof.
  intros Hk Hget. unfold byReviewer_step.
  destruct (lookup_inherited stats _ Hk Hget) as [H|H]; cbv zeta; rewrite H; cbn;
    by rewrite ?H.
Qed.

Lemma elem_of_question_ids l q :
  q ∈ Spec.question_ids l ↔ ∃ e, e ∈ l ∧ question_id_of (review e) = q.
Proof.
  unfold Spec.question_ids. rewrite elem_of_list_to_set, list_elem_of_fmap.
  split; intros (e & ? & ?); by exists e.
Qed.

Lemma question_ids_snoc l e :
  Spec.question_ids (l ++ [e]) = {[question_id_of (review e)]} ∪ Spec.question_ids l.
Proof.
  unfold Spec.question_ids. rewrite fmap_app, list_to_set_app_L. cbn. set_solver.
Qed.

Lemma first_record_snoc_old l e q :
  q ∈ Spec.question_ids l → Spec.first_record q (l ++ [e]) = Spec.first_record q l.
Proof.
  intros (e0 & Hin & Hq)%elem_of_question_ids. unfold Spec.first_record.
  rewrite filter_app.
  destruct (filter _ l) as [|e1 l1] eqn:Hfilter; [|done].
  exfalso. by eapply (filter_nil_not_elem_of _ l e0).
Qed.

Lemma first_record_snoc_new l e :
  question_id_of (review e) ∉ Spec.question_ids l →
  Spec.first_record (question_id_of (review e)) (l ++ [e]) = Some e.
Proof.
  intros Hnew. unfold Spec.first_record. rewrite filter_app.
  assert (filter (λ e0, question_id_of (review e0) = question_id_of (review e)) l = []) as ->.
  { apply elem_of_nil_inv. intros e0 [Hq Hin]%list_elem_of_filter.
    apply Hnew, elem_of_question_ids. by exists e0. }
  by rewrite filter_cons_True.
Qed.

Lemma correct_ids_subseteq l : Spec.correct_ids l ⊆ Spec.question_ids l.
Proof. unfold Spec.correct_ids. intros q. rewrite elem_of_filter. tauto. Qed.

Lemma correct_ids_snoc_old l e :
  question_id_of (review e) ∈ Spec.question_ids l →
  Spec.correct_ids (l ++ [e]) = Spec.correct_ids l.
Proof.
  intros Hold. apply set_eq. intros q. unfold Spec.correct_ids.
  rewrite !elem_of_filter, question_ids_snoc, elem_of_union, elem_of_singleton.
  unfold Spec.first_correct. split.
  - intros [Hc [->|Hq]]; (split; [|done]); by rewrite first_record_snoc_old in Hc.
  - intros [Hc Hq]. split; [|by right]. by rewrite first_record_snoc_old.
Qed.

Lemma correct_ids_snoc_new l e :
  question_id_of (review e) ∉ Spec.question_ids l →
  Spec.correct_ids (l ++ [e])
  = if correct_of (review e) then {[question_id_of (review e)]} ∪ Spec.correct_ids l
    else Spec.correct_ids l.
Proof.
  intros Hnew. apply set_eq. intros q. unfold Spec.correct_ids at 1.
  rewrite elem_of_filter, question_ids_snoc, elem_of_union, elem_of_singleton.
  unfold Spec.first_correct.
  assert (q ∈ Spec.correct_ids l ↔
          from_option (λ e0, correct_of (review e0)) false (Spec.first_record q (l ++ [e])) = true
          ∧ q ∈ Spec.question_ids l) as Hold.
  { unfold Spec.correct_ids, Spec.first_correct. rewrite elem_of_filter.
    split; intros [Hc Hq]; (split; [|done]); by rewrite first_record_snoc_old in *. }
  destruct (correct_of (review e)) eqn:Hcorrect.
  - rewrite elem_of_union, elem_of_singleton, Hold. split.
    + intros [Hc [->|Hq]]; [by left|by right].
    + intros [->|[Hc Hq]]; [|by split; [|right]].
      split; [|by left]. by rewrite first_record_snoc_new.
  - rewrite Hold. split.
    + intros [Hc [->|Hq]]; [|done].
      rewrite first_record_snoc_new in Hc by done. cbn in Hc. congruence.
    + intros [Hc Hq]. split; [done|by right].
Qed.

Lemma size_union_new (X : gset (option string)) q :
  q ∉ X → size ({[q]} ∪ X) = S (size X).
Proof. intros Hq. rewrite size_union by set_solver. by rewrite size_singleton. Qed.

(** The entry that the loop leaves for a reviewer, from the records of
    that reviewer. *)
Lemma reviewer_fold_value l :
  Loops.fold_value Loops.reviewer_update l
  = match l with [] => None | _ => Some (Loops.reviewer_acc l) end.
Proof.
  induction l as [|e l IH] using rev_ind; [done|].
  rewrite fold_value_snoc, IH.
  assert (Loops.reviewer_update
            (match l with [] => None | _ => Some (Loops.reviewer_acc l) end) e
          = Loops.reviewer_acc (l ++ [e])) as ->; [|by destruct l].
  assert (default {| ra_correct := 0; ra_total := 0;
                     uniqueQuestions := ∅; correctQuestions := ∅ |}
            (match l with [] => None | _ => Some (Loops.reviewer_acc l) end)
          = Loops.reviewer_acc l) as Hdefault by by destruct l.
  unfold Loops.reviewer_update. rewrite Hdefault. clear Hdefault IH.
  unfold Loops.reviewer_acc. cbn.
  case_decide as Hold.
  - rewrite correct_ids_snoc_old, question_ids_snoc by done.
    by replace ({[question_id_of (review e)]} ∪ Spec.question_ids l)
      with (Spec.question_ids l) by set_solver.
  - rewrite correct_ids_snoc_new, question_ids_snoc by done.
    rewrite size_union_new by done.
    destruct (correct_of (review e)); [|done].
    rewrite size_union_new; [done|].
    intros Hin. by apply Hold, correct_ids_subseteq.
Qed.

(** The loop throws when a reviewer is named like a member of
    [Object.prototype], and is the grouping loop otherwise. *)
Lemma calculateByReviewer_run (enriched : list Enriched) :
  calculateByReviewer enriched
  = if decide (Forall (λ e, inherited (reviewer_of (review e)) = false) enriched)
    then Normal (prod_map id byReviewer_finish
                   <$> foldl (Loops.group_step (λ e, reviewer_of (review e))
                                Loops.reviewer_update) [] enriched)
    else Throw "TypeError: stats[reviewer].uniqueQuestions is undefined".
Proof.
  unfold calculateByReviewer.
  rewrite (guarded_forEach (λ e, reviewer_of (review e)) Loops.reviewer_update
             byReviewer_step "TypeError: stats[reviewer].uniqueQuestions is undefined").
  - by case_decide.
  - intros o e. apply byReviewer_step_group.
  - intros o e. apply byReviewer_step_throws.
Qed.

Lemma calculateByReviewer_Normal (enriched : list Enriched) (stats : obj ReviewerStats) :
  calculateByReviewer enriched = Normal stats →
  Forall (λ e, inherited (reviewer_of (review e)) = false) enriched
  ∧ stats = prod_map id byReviewer_finish
              <$> foldl (Loops.group_step (λ e, reviewer_of (review e))
                           Loops.reviewer_update) [] enriched.
Proof. rewrite calculateByReviewer_run. case_decide; [|done]. by intros [= <-]. Qed.

Lemma calculateByReviewer_lookup (enriched : list Enriched) (stats : obj ReviewerStats)
    (reviewer : string) :
  calculateByReviewer enriched = Normal stats →
  obj_get stats reviewer
  = match Spec.reviewed_by reviewer enriched with
    | [] => None
    | _ => Some (Spec.reviewer_stats reviewer enriched)
    end.
Proof.
  intros [_ ->]%calculateByReviewer_Normal. rewrite obj_get_fmap, group_fold_get.
  rewrite reviewer_fold_value. fold (Spec.reviewed_by reviewer enriched).
  unfold Spec.reviewer_stats. cbv zeta.
  by destruct (Spec.reviewed_by reviewer enriched).
Qed.

Lemma calculateByReviewer_keys (enriched : list Enriched) (stats : obj ReviewerStats) :
  calculateByReviewer enriched = Normal stats → keys stats = Spec.reviewers_of enriched.
Proof.
  intros [_ ->]%calculateByReviewer_Normal. unfold keys, Spec.reviewers_of.
  by rewrite obj_keys_fmap, group_fold_keys.
Qed.

(** The by-reviewer statistics.  The computation throws exactly when a
    record carries a reviewer name that is a member of
    [Object.prototype].  Otherwise, for every reviewer, the entry of the
    reviewer exists exactly when the reviewer has a record; its [total]
    is the number of distinct question ids among the records of the
    reviewer, and its [correct] the number of those ids whose first
    record, in input order, is correct.  Later records of a pair count
    for nothing. *)
Theorem calculateByReviewer_first_seen (enriched : list Enriched) :
  match calculateByReviewer enriched with
  | Throw _ => Exists (λ e, inherited (reviewer_of (review e)) = true) enriched
  | Normal stats =>
      Forall (λ e, inherited (reviewer_of (review e)) = false) enriched
      ∧ ∀ reviewer : string,
          let mine := Spec.reviewed_by reviewer enriched in
          match obj_get stats reviewer with
          | None => mine = []
          | Some s =>
              mine ≠ []
              ∧ rs_total s = size (Spec.question_ids mine)
              ∧ rs_correct s
                = size (filter (λ q, Spec.first_correct mine q = true)
                          (Spec.question_ids mine))
              ∧ rs_accuracy s = accuracy_of (rs_correct s) (rs_total s)
          end
  end.
Proof.
  destruct (calculateByReviewer enriched) as [stats|msg] eqn:Hrun.
  - split; [by apply calculateByReviewer_Normal in Hrun as [? _]|].
    intros reviewer mine. subst mine.
    rewrite (calculateByReviewer_lookup _ _ _ Hrun).
    unfold Spec.reviewer_stats. cbv zeta.
    by destruct (Spec.reviewed_by reviewer enriched).
  - rewrite calculateByReviewer_run in Hrun. case_decide as Hall; [done|].
    apply not_Forall_Exists in Hall; [|intros e; apply _].
    eapply Exists_impl; [exact Hall|]. intros e He. cbn in He.
    by destruct (inherited (reviewer_of (review e))).
Qed.

(** The name under which a record is counted: [reviewer_name] if it is
    there and not empty, else [reviewerName], else 'Unknown'. *)
Example reviewer_of_spellings :
  let r := Sample.mk_review "r1" "Q1" "bob" 0 "x" true in
  let old_spelling (r : Review) (name : string) : Review :=
    {| review_id := review_id r; question_id := question_id r;
       question_set := question_set r; question_index := question_index r;
       keyword := keyword r; category := category r;
       question_text := question_text r; reviewer_name := reviewer_name r;
       answer := answer r; correct_answer := correct_answer r;
       is_correct := is_correct r; timestamp := timestamp r; comment := comment r;
       questionId := questionId r; reviewerName := Some name;
       isCorrect := isCorrect r |} in
  reviewer_of r = "bob"
  ∧ reviewer_of (old_spelling r "zed") = "bob"
  ∧ reviewer_of (old_spelling (Sample.nameless r) "zed") = "zed"
  ∧ reviewer_of (Sample.nameless r) = "Unknown"
  ∧ csv_reviewer (Sample.nameless r) = "undefined".
Proof. by vm_compute. Qed.

(** A second record of a pair changes nothing: carol answers Q1 wrongly
    and then correctly, and is counted once, as wrong. *)
Example calculateByReviewer_duplicate :
  calculateByReviewer (enrichedReviews Sample.catalog Sample.carol_reviews {["carol"]})
  = Normal [("carol", {| rs_correct := 0; rs_total := 1; rs_accuracy := 0 |})].
Proof. by vm_compute. Qed.

(** C1.  A reviewer who signs as [constructor] and answers Q1 has a record
    in the record set, and [calculateByReviewer] throws a TypeError on
    that set: the reviewer gets no total and no correct count, and
    neither does anyone else. *)
Theorem calculateByReviewer_inherited_name :
  let enriched :=
    enrichedReviews Sample.catalog (Sample.bob_reviews ++ Sample.constructor_reviews)
      {["bob"; "constructor"]} in
  length (Spec.reviewed_by "constructor" enriched) = 1%nat
  ∧ length (Spec.reviewed_by "bob" enriched) = 2%nat
  ∧ calculateByReviewer enriched
    = Throw "TypeError: stats[reviewer].uniqueQuestions is undefined".
Proof. by vm_compute. Qed.

End by_reviewer.

(** ** The overall statistic (js/analytics.js) *)

Section overall.
Import Analytics.

Lemma elem_of_reviewers_of (enriched : list Enriched) (reviewer : string) :
  reviewer ∈ Spec.reviewers_of enriched ↔ Spec.reviewed_by reviewer enriched ≠ [].
Proof.
  unfold Spec.reviewers_of, Spec.reviewed_by.
  rewrite elem_of_own_keys, elem_of_first_occurrences, list_elem_of_fmap. split.
  - intros (e & -> & Hin) Hnil. by eapply (filter_nil_not_elem_of _ enriched e).
  - intros Hne. destruct (filter _ enriched) as [|e l] eqn:Hfilter; [done|].
    apply filter_head in Hfilter as [? ?]. by exists e.
Qed.

Lemma calculateByReviewer_values (enriched : list Enriched) (stats : obj ReviewerStats) :
  calculateByReviewer enriched = Normal stats →
  values stats
  = (λ reviewer, Spec.reviewer_stats reviewer enriched) <$> Spec.reviewers_of enriched.
Proof.
  intros Hrun. unfold values. rewrite (calculateByReviewer_keys _ _ Hrun).
  apply omap_Some_fmap.
  intros reviewer Hin%elem_of_reviewers_of. rewrite (calculateByReviewer_lookup _ _ _ Hrun).
  by destruct (Spec.reviewed_by reviewer enriched).
Qed.

Lemma filter_none {A} (P : A → Prop) `{∀ x, Decision (P x)} (l : list A) :
  (∀ x, ¬ P x) → filter P l = [].
Proof.
  intros HP. induction l as [|x l IH]; [done|]. by rewrite filter_cons_False.
Qed.

Lemma enrichedReviews_empty_selection questions reviews :
  enrichedReviews questions reviews ∅ = [].
Proof.
  unfold enrichedReviews.
  by rewrite (filter_none (λ r, reviewer_of r ∈ (∅ : gset string))) by set_solver.
Qed.

(** The overall accuracy is the mean of the accuracies of the by-reviewer
    group, one term per reviewer, summed in the order in which the keys
    of that group are enumerated and rounded to one decimal; with no
    reviewer it is 0 with a count of 0. *)
Lemma calculateOverallStats_reviewers (enriched : list Enriched)
    (byReviewer : obj ReviewerStats) :
  calculateByReviewer enriched = Normal byReviewer →
  calculateOverallStats byReviewer
  = match Spec.reviewers_of enriched with
    | [] => {| os_accuracy := 0; reviewerCount := 0 |}
    | reviewers =>
        {| os_accuracy :=
             toFixed1 (mean ((λ reviewer,
                                parseFloat_tenths
                                  (rs_accuracy (Spec.reviewer_stats reviewer enriched)))
                             <$> reviewers));
           reviewerCount := length reviewers |}
    end.
Proof.
  intros Hrun. unfold calculateOverallStats.
  rewrite (calculateByReviewer_keys _ _ Hrun), (calculateByReviewer_values _ _ Hrun).
  destruct (Spec.reviewers_of enriched) as [|r rs] eqn:Hrs; [done|].
  rewrite bool_decide_eq_false_2 by done.
  unfold mean, sum. by rewrite length_fmap, !foldl_fmap.
Qed.

(** How [analyzeData] ends, and with which fields: it returns when the
    two computations that can fail return, and an exception of the
    by-reviewer computation leaves the three fields that come after it
    as they were. *)
Lemma analyzeData_cases questions reviews (selectedReviewers : gset string)
    (this : Analysis) :
  let enriched := enrichedReviews questions reviews selectedReviewers in
  match calculateByAuthor questions enriched, calculateByReviewer enriched with
  | Done byAuthor, Normal byReviewer =>
      analyzeData questions reviews selectedReviewers this
      = ({| an_enriched := Some enriched; authorStats := Some byAuthor;
            reviewerStats := Some byReviewer;
            questionStats := Some (calculateByQuestion enriched);
            overallStats := Some (calculateOverallStats byReviewer) |}, Done tt)
  | Done byAuthor, Throw msg =>
      analyzeData questions reviews selectedReviewers this
      = ({| an_enriched := Some enriched; authorStats := Some byAuthor;
            reviewerStats := reviewerStats this; questionStats := questionStats this;
            overallStats := overallStats this |}, Raised msg)
  | Raised msg, _ =>
      analyzeData questions reviews selectedReviewers this
      = ({| an_enriched := Some enriched; authorStats := authorStats this;
            reviewerStats := reviewerStats this; questionStats := questionStats this;
            overallStats := overallStats this |}, Raised msg)
  | Polluted, _ => (analyzeData questions reviews selectedReviewers this).2 = Polluted
  end.
Proof.
  intros enriched. unfold analyzeData. fold enriched.
  by destruct (calculateByAuthor questions enriched), (calculateByReviewer enriched).
Qed.

(** The overall statistic of an analysis that returns is the mean of the
    accuracies of the by-reviewer group, one term per reviewer, rounded
    to one decimal; with no reviewer it is 0 with a count of 0. *)
Theorem calculateOverallStats_mean questions reviews (selectedReviewers : gset string)
    (this a : Analysis) :
  analyzeData questions reviews selectedReviewers this = (a, Done tt) →
  let enriched := enrichedReviews questions reviews selectedReviewers in
  let reviewers := Spec.reviewers_of enriched in
  an_enriched a = Some enriched
  ∧ overallStats a
    = Some match reviewers with
           | [] => {| os_accuracy := 0; reviewerCount := 0 |}
           | _ =>
               {| os_accuracy :=
                    toFixed1 (mean ((λ reviewer,
                                       parseFloat_tenths
                                         (rs_accuracy (Spec.reviewer_stats reviewer enriched)))
                                    <$> reviewers));
                  reviewerCount := length reviewers |}
           end.
Proof.
  intros Hrun enriched reviewers. subst reviewers.
  pose proof (analyzeData_cases questions reviews selectedReviewers this) as Hcases.
  cbv zeta in Hcases. fold enriched in Hcases.
  destruct (calculateByAuthor questions enriched) as [byAuthor|msg|];
    [destruct (calculateByReviewer enriched) as [byReviewer|msg] eqn:HbyReviewer| |];
    rewrite Hrun in Hcases; try done.
  injection Hcases as ->. cbn [an_enriched overallStats]. split; [done|].
  rewrite (calculateOverallStats_reviewers _ _ HbyReviewer).
  by destruct (Spec.reviewers_of enriched).
Qed.

(** With an empty selection the record set and every group are empty,
    and the overall statistic is 0 with a count of 0. *)
Theorem analyzeData_empty_selection questions reviews (this : Analysis) :
  analyzeData questions reviews ∅ this
  = ({| an_enriched := Some []; authorStats := Some []; reviewerStats := Some [];
        questionStats := Some [];
        overallStats := Some {| os_accuracy := 0; reviewerCount := 0 |} |}, Done tt).
Proof. unfold analyzeData. by rewrite enrichedReviews_empty_selection. Qed.

(** The mean of the accuracies is not the pooled ratio: dave is right on
    his one answer and erin wrong on her three; the overall accuracy is
    50.0, where one correct answer out of four is 25.0. *)
Example overall_not_pooled :
  overallStats (analyzeData (Sample.Qdup :: Sample.catalog) Sample.uneven_reviews
                  {["dave"; "erin"]} unassigned).1
  = Some {| os_accuracy := 500; reviewerCount := 2 |}
  ∧ accuracy_of 1 4 = 250.
Proof. by vm_compute. Qed.

(** The overall accuracy is shown to one decimal, as [toFixed(1)] prints
    the binary64 mean: the accuracies 33.3 and 0.0, whose mean is 16.65,
    give 16.6. *)
Example overall_one_decimal :
  let a := (analyzeData (Sample.Qdup :: Sample.catalog) Sample.third_reviews
              {["fay"; "gus"]} unassigned).1 in
  reviewerStats a
  = Some [("fay", {| rs_correct := 1; rs_total := 3; rs_accuracy := 333 |});
          ("gus", {| rs_correct := 0; rs_total := 1; rs_accuracy := 0 |})]
  ∧ overallStats a = Some {| os_accuracy := 166; reviewerCount := 2 |}.
Proof. by vm_compute. Qed.

(** The scenario of the specification: bob is right on Q1 and wrong on Q2. *)
Example analyzeData_scenario :
  let a := (analyzeData Sample.catalog Sample.bob_reviews {["bob"]} unassigned).1 in
  reviewerStats a
  = Some [("bob", {| rs_correct := 1; rs_total := 2; rs_accuracy := 500 |})]
  ∧ overallStats a = Some {| os_accuracy := 500; reviewerCount := 1 |}
  ∧ authorStats a
    = Some [("A", {| questionCount := 1; as_accuracy := 1000; as_reviewerCount := 1 |});
            ("B", {| questionCount := 1; as_accuracy := 0; as_reviewerCount := 1 |})].
Proof. by vm_compute. Qed.

(** C4.  With bob and a reviewer who signs as [constructor] both selected,
    [analyzeData] ends in a TypeError: the record set and the by-author
    group are assigned, the by-reviewer group, the by-question group and
    the overall statistic are not, although bob alone has the accuracy
    50.0.  A view that is refreshed keeps the three fields of the view
    before. *)
Theorem analyzeData_inherited_name :
  let reviews := Sample.bob_reviews ++ Sample.constructor_reviews in
  let first := analyzeData Sample.catalog reviews {["bob"; "constructor"]} unassigned in
  first.2 = Raised "TypeError: stats[reviewer].uniqueQuestions is undefined"
  ∧ authorStats first.1
    = Some [("A", {| questionCount := 1; as_accuracy := 1000; as_reviewerCount := 1 |});
            ("B", {| questionCount := 1; as_accuracy := 0; as_reviewerCount := 1 |})]
  ∧ reviewerStats first.1 = None ∧ questionStats first.1 = None
  ∧ overallStats first.1 = None
  ∧ overallStats (analyzeData Sample.catalog reviews {["bob"]} unassigned).1
    = Some {| os_accuracy := 500; reviewerCount := 1 |}
  ∧ (∀ this,
       let refreshed :=
         analyzeData Sample.catalog reviews {["bob"; "constructor"]} this in
       refreshed.2 = Raised "TypeError: stats[reviewer].uniqueQuestions is undefined"
       ∧ reviewerStats refreshed.1 = reviewerStats this
       ∧ questionStats refreshed.1 = questionStats this
       ∧ overallStats refreshed.1 = overallStats this).
Proof.
  split_and!; by vm_compute.
Qed.

End overall.

(** ** Statistics by author (js/analytics.js) *)

Section by_author.
Import Analytics.
Implicit Types (l : list Enriched) (e : Enriched).

(** A loop that skips some elements is the loop over the others. *)
Lemma foldl_skip {A B} (P : B → Prop) `{∀ x, Decision (P x)} (f g : A → B → A)
    (a : A) (l : list B) :
  (∀ a x, P x → f a x = g a x) → (∀ a x, ¬ P x → f a x = a) →
  foldl f a l = foldl g a (filter P l).
Proof.
  intros Hin Hout. revert a. induction l as [|x l IH]; intros a; [done|].
  rewrite filter_cons. case_decide; cbn.
  - by rewrite Hin, IH.
  - by rewrite Hout, IH.
Qed.

Lemma filter_twice {A} (P : A → Prop) `{∀ x, Decision (P x)} (l : list A) :
  filter P (filter P l) = filter P l.
Proof.
  induction l as [|x l IH]; [done|].
  rewrite filter_cons. case_decide; [|done]. by rewrite filter_cons_True, IH.
Qed.

Lemma run_forEach_snoc {S X} (step : S → X → Run S) (s : S) (l : list X) (x : X) :
  run_forEach step s (l ++ [x]) = run_bind (run_forEach step s l) (λ s', step s' x).
Proof.
  revert s. induction l as [|y l IH]; intros s; cbn.
  - by destruct (step s x).
  - destruct (step s y); cbn; [apply IH|done..].
Qed.

(** A loop in which some elements change nothing is the loop over the
    others. *)
Lemma run_forEach_skip {S X} (P : X → Prop) `{∀ x, Decision (P x)} (step : S → X → Run S)
    (s : S) (l : list X) :
  (∀ s x, ¬ P x → step s x = Done s) →
  run_forEach step s l = run_forEach step s (filter P l).
Proof.
  intros Hout. revert s. induction l as [|x l IH]; intros s; [done|].
  rewrite filter_cons. case_decide; cbn.
  - destruct (step s x); cbn; [apply IH|done..].
  - rewrite Hout by done. cbn. apply IH.
Qed.

Lemma byAuthor_step_skipped (ars : obj (obj Counts)) e :
  ¬ Spec.counted e → byAuthor_step ars e = Done ars.
Proof.
  unfold Spec.counted, byAuthor_step. fold (Spec.author_of e).
  by intros ->%not_false_is_true.
Qed.

Lemma byAuthor_step_group (ars : obj (obj Counts)) e :
  Spec.counted e → Spec.plain e →
  byAuthor_step ars e
  = Done (Loops.group_step (λ e, prop_key (Spec.author_of e)) Loops.author_update ars e).
Proof.
  unfold Spec.counted, byAuthor_step. fold (Spec.author_of e). intros -> [Hreviewer Hauthor].
  unfold Loops.group_step at 1, Loops.author_update, Loops.group_step, Loops.pair_update.
  rewrite (lookup_ordinary ars) by done.
  destruct (obj_get ars (prop_key (Spec.author_of e))) as [pairs|] eqn:Hars; cbn.
  - rewrite lookup_ordinary, Hars by done. cbn.
    rewrite (lookup_ordinary pairs) by done.
    destruct (obj_get pairs (reviewer_of (review e))) as [s|] eqn:Hpairs; cbn.
    + by rewrite lookup_ordinary, Hpairs by done.
    + by rewrite lookup_ordinary, obj_get_set_eq, obj_set_set by done.
  - rewrite lookup_ordinary, obj_get_set_eq by done. cbn.
    rewrite (lookup_ordinary []) by done. cbn.
    rewrite lookup_ordinary by done. cbn. rewrite !decide_True by done. cbn.
    by rewrite obj_set_set.
Qed.

(** A pass for an author named like a member of [Object.prototype], by a
    reviewer who is not, leaves the dictionary as it is if it returns. *)
Lemma byAuthor_step_inherited (ars ars' : obj (obj Counts)) e :
  inherited (prop_key (Spec.author_of e)) = true →
  obj_get ars (prop_key (Spec.author_of e)) = None →
  byAuthor_step ars e = Done ars' → ars' = ars.
Proof.
  intros Hauthor Hget. unfold byAuthor_step. fold (Spec.author_of e).
  destruct (skipped_author (Spec.author_of e)); [by intros [= <-]|].
  destruct (lookup_inherited ars _ Hauthor Hget) as [Hlookup|Hlookup];
    cbv zeta; rewrite Hlookup; cbn; rewrite ?Hlookup; repeat case_bool_decide;
    by intros [= <-].
Qed.

(** The first loop, when it returns and no reviewer is named like a
    member of [Object.prototype]: the grouping loop over the records
    that are counted and whose author is not named like a member
    either. *)
Lemma byAuthor_forEach l (ars : obj (obj Counts)) :
  Forall (λ e, inherited (reviewer_of (review e)) = false) l →
  run_forEach byAuthor_step [] l = Done ars →
  ars = foldl (Loops.group_step (λ e, prop_key (Spec.author_of e)) Loops.author_update) []
          (filter (λ e, inherited (prop_key (Spec.author_of e)) = false)
             (filter Spec.counted l)).
Proof.
  revert ars. induction l as [|e l IH] using rev_ind; intros ars Hl Hrun.
  { by injection Hrun as <-. }
  apply Forall_app in Hl as [Hl He]. rewrite Forall_singleton in He.
  rewrite run_forEach_snoc in Hrun.
  destruct (run_forEach byAuthor_step [] l) as [ars0| |] eqn:Hrun0; [|done..].
  cbn in Hrun. specialize (IH ars0 Hl eq_refl).
  rewrite filter_app, filter_cons, filter_nil.
  destruct (decide (Spec.counted e)) as [Hcounted|Hskipped].
  2: { rewrite byAuthor_step_skipped in Hrun by done. injection Hrun as <-.
       by rewrite app_nil_r. }
  rewrite filter_app, filter_cons, filter_nil.
  destruct (inherited (prop_key (Spec.author_of e))) eqn:Hauthor.
  - rewrite decide_False by done. rewrite app_nil_r, <- IH.
    apply (byAuthor_step_inherited ars0 ars e); [done| |done].
    rewrite IH. by apply (group_fold_get_inherited (λ e, prop_key (Spec.author_of e))).
  - rewrite decide_True by done. rewrite foldl_snoc, <- IH.
    rewrite byAuthor_step_group in Hrun by done. by injection Hrun as <-.
Qed.

(** When neither a reviewer nor an author is named like a member of
    [Object.prototype], the first loop returns. *)
Lemma byAuthor_forEach_plain l :
  Forall Spec.plain l → ∃ ars, run_forEach byAuthor_step [] l = Done ars.
Proof.
  intros Hl. eexists.
  rewrite (run_forEach_skip Spec.counted) by apply byAuthor_step_skipped.
  erewrite run_forEach_Done; [done|].
  intros ars e [Hcounted Hin]%list_elem_of_filter. apply byAuthor_step_group; [done|].
  by apply (proj1 (Forall_forall _ _) Hl).
Qed.

Lemma length_filter_snoc {A} (P : A → Prop) `{∀ x, Decision (P x)} (l : list A) (x : A) :
  length (filter P (l ++ [x])) = (length (filter P l) + if decide (P x) then 1 else 0)%nat.
Proof. rewrite filter_app, length_app, filter_cons, filter_nil. by case_decide. Qed.

Lemma pair_fold_value l :
  Loops.fold_value Loops.pair_update l
  = match l with [] => None | _ => Some (Spec.pair_counts l) end.
Proof.
  induction l as [|e l IH] using rev_ind; [done|].
  rewrite fold_value_snoc, IH.
  assert (Loops.pair_update (match l with [] => None | _ => Some (Spec.pair_counts l) end) e
          = Spec.pair_counts (l ++ [e])) as ->; [|by destruct l].
  assert (default {| c_correct := 0; c_total := 0 |}
            (match l with [] => None | _ => Some (Spec.pair_counts l) end)
          = Spec.pair_counts l) as Hdefault by by destruct l.
  unfold Loops.pair_update. rewrite Hdefault.
  unfold Spec.pair_counts. cbn. rewrite length_filter_snoc, length_app. cbn.
  destruct (correct_of (review e)); cbn.
  - rewrite decide_True by done. f_equal; lia.
  - rewrite decide_False by done. f_equal; lia.
Qed.

Lemma author_fold_value l :
  Loops.fold_value Loops.author_update l
  = match l with
    | [] => None
    | _ => Some (foldl (Loops.group_step (λ e, reviewer_of (review e)) Loops.pair_update) [] l)
    end.
Proof.
  induction l as [|e l IH] using rev_ind; [done|].
  rewrite fold_value_snoc, IH, foldl_snoc. unfold Loops.author_update.
  destruct (l ++ [e]) eqn:Happ; [by destruct l|].
  do 2 f_equal. by destruct l.
Qed.

(** The counts the inner object holds for a reviewer. *)
Lemma pairs_lookup l (reviewer : string) :
  obj_get (foldl (Loops.group_step (λ e, reviewer_of (review e)) Loops.pair_update) [] l)
    reviewer
  = match Spec.reviewed_by reviewer l with
    | [] => None
    | mine => Some (Spec.pair_counts mine)
    end.
Proof.
  rewrite group_fold_get, pair_fold_value. fold (Spec.reviewed_by reviewer l).
  by destruct (Spec.reviewed_by reviewer l).
Qed.

Lemma pairs_values l :
  values (foldl (Loops.group_step (λ e, reviewer_of (review e)) Loops.pair_update) [] l)
  = (λ reviewer, Spec.pair_counts (Spec.reviewed_by reviewer l)) <$> Spec.reviewers_of l.
Proof.
  unfold values, keys. rewrite group_fold_keys. apply omap_Some_fmap.
  intros reviewer Hin%elem_of_reviewers_of. rewrite pairs_lookup.
  by destruct (Spec.reviewed_by reviewer l).
Qed.

Lemma counted_key e (author : string) :
  prop_key (Spec.author_of e) = author ∧ Spec.counted e
  ↔ skipped_author (Spec.author_of e) = false ∧ Spec.author_of e = Some author.
Proof.
  unfold Spec.counted. destruct (Spec.author_of e) as [a|]; cbn; [|by split; intros [? ?]].
  split; intros [? ?]; split; congruence.
Qed.

Lemma written_by_filter l (author : string) :
  filter (λ e, prop_key (Spec.author_of e) = author) (filter Spec.counted l)
  = Spec.written_by author l.
Proof.
  rewrite list_filter_filter. apply list_filter_iff. intros e. apply counted_key.
Qed.

(** The inner object that the first loop leaves for an author. *)
Lemma byAuthor_lookup l (ars : obj (obj Counts)) (author : string) :
  Forall (λ e, inherited (reviewer_of (review e)) = false) l →
  run_forEach byAuthor_step [] l = Done ars →
  obj_get ars author
  = if inherited author then None
    else match Spec.written_by author l with
         | [] => None
         | theirs =>
             Some (foldl (Loops.group_step (λ e, reviewer_of (review e)) Loops.pair_update)
                     [] theirs)
         end.
Proof.
  intros Hl ->%byAuthor_forEach; [|done].
  rewrite group_fold_get, author_fold_value.
  destruct (inherited author) eqn:Hauthor.
  - assert (filter (λ e, prop_key (Spec.author_of e) = author)
              (filter (λ e, inherited (prop_key (Spec.author_of e)) = false)
                 (filter Spec.counted l)) = []) as ->; [|done].
    apply filter_nil_iff. intros e [He _]%list_elem_of_filter Hkey. congruence.
  - assert (filter (λ e, prop_key (Spec.author_of e) = author)
              (filter (λ e, inherited (prop_key (Spec.author_of e)) = false)
                 (filter Spec.counted l)) = Spec.written_by author l) as ->.
    { rewrite <- written_by_filter, !list_filter_filter. apply list_filter_iff.
      intros e. split; [tauto|]. intros [<- ?]. done. }
    by destruct (Spec.written_by author l).
Qed.

Lemma count_fold_value (questions : list Question) :
  Loops.fold_value (λ (ov : option nat) (_ : Question), S (default 0%nat ov)) questions
  = match questions with [] => None | _ => Some (length questions) end.
Proof.
  induction questions as [|q l IH] using rev_ind; [done|].
  rewrite fold_value_snoc, IH, length_app. cbn.
  destruct (l ++ [q]) eqn:Happ; [by destruct l|].
  f_equal. destruct l; cbn; lia.
Qed.

(** The number the second loop leaves for an author that is counted and
    is not named like a member of [Object.prototype]. *)
Lemma count_lookup (questions : list Question) (author : string) :
  skipped_author (Some author) = false → inherited author = false →
  default 0%nat (obj_get (foldl count_step [] questions) author)
  = Spec.authored_count author questions.
Proof.
  intros Hcounted Hauthor.
  rewrite (foldl_skip (λ q, skipped_author (authored_by q) = false) count_step
             (λ counts q,
                match lookup counts (prop_key (authored_by q)) with
                | Own n => obj_set counts (prop_key (authored_by q)) (S n)
                | Missing => obj_set counts (prop_key (authored_by q)) 1%nat
                | _ => counts
                end)).
  - rewrite (guarded_fold (λ q, prop_key (authored_by q)) (λ ov _, S (default 0%nat ov))).
    + rewrite group_fold_get, count_fold_value, !list_filter_filter.
      unfold Spec.authored_count.
      rewrite (list_filter_iff _ (λ q, authored_by q = Some author)).
      * by destruct (filter _ questions).
      * intros q. destruct (authored_by q) as [a|]; cbn.
        -- split; [by intros [[-> _] _]|]. by intros [= ->].
        -- split; [by intros [_ ?]|done].
    + intros counts q Hq. unfold Loops.group_step. rewrite lookup_ordinary by done.
      by destruct (obj_get counts (prop_key (authored_by q))).
    + intros counts q Hq Hget.
      by destruct (lookup_inherited counts _ Hq Hget) as [H|H]; rewrite H.
  - intros counts q Hq. unfold count_step. by rewrite Hq.
  - intros counts q Hq%not_false_is_true. unfold count_step. by rewrite Hq.
Qed.

(** A loop that writes an entry for some of the keys of a list. *)
Lemma foldl_obj_set_lookup {V} (g : string → option V) (ks : list string) (k : string) :
  obj_get (foldl (λ stats k, match g k with Some v => obj_set stats k v | None => stats end)
             [] ks) k
  = if decide (k ∈ ks) then g k else None.
Proof.
  induction ks as [|k0 ks IH] using rev_ind.
  - by rewrite decide_False by apply not_elem_of_nil.
  - rewrite foldl_snoc. destruct (decide (k0 = k)) as [->|Hne].
    + rewrite (decide_True (P := k ∈ ks ++ [k])) by (apply elem_of_app; right; by apply elem_of_cons; left).
      destruct (g k) as [v|] eqn:Hg; [by rewrite obj_get_set_eq|].
      rewrite IH. by case_decide.
    + assert (k ∈ ks ++ [k0] ↔ k ∈ ks) as Hiff.
      { rewrite elem_of_app, list_elem_of_singleton. naive_solver. }
      destruct (g k0) as [v|]; rewrite ?obj_get_set_ne by done; rewrite IH;
        repeat case_decide; tauto.
Qed.

Lemma written_by_counted l (author : string) :
  Spec.written_by author l ≠ [] → skipped_author (Some author) = false.
Proof.
  intros Hne. destruct (Spec.written_by author l) as [|e theirs] eqn:Hw; [done|].
  apply filter_head in Hw as [[Hc He] _]. by rewrite He in Hc.
Qed.

Lemma reviewers_of_nonempty l : l ≠ [] → Spec.reviewers_of l ≠ [].
Proof.
  intros Hne Hnil. destruct l as [|e l]; [done|].
  assert (reviewer_of (review e) ∈ Spec.reviewers_of (e :: l)) as Hin.
  { apply elem_of_reviewers_of. unfold Spec.reviewed_by. by rewrite filter_cons_True. }
  rewrite Hnil in Hin. by apply elem_of_nil in Hin.
Qed.

Lemma calculateByAuthor_lookup (questions : list Question) l (stats : obj AuthorStats)
    (author : string) :
  Forall (λ e, inherited (reviewer_of (review e)) = false) l →
  calculateByAuthor questions l = Done stats →
  obj_get stats author
  = if inherited author then None
    else match Spec.written_by author l with
         | [] => None
         | _ => Some (Spec.author_stats questions author l)
         end.
Proof.
  intros Hl. unfold calculateByAuthor.
  destruct (run_forEach byAuthor_step [] l) as [ars| |] eqn:Hars; [|done..].
  cbn. intros [= <-].
  set (counts := foldl count_step [] questions).
  rewrite (foldl_ext_eq _
    (λ stats k,
       match (obj_get ars k ≫= λ rs,
                if bool_decide (length (keys rs) = 0%nat) then None
                else Some (author_entry counts k rs)) with
       | Some v => obj_set stats k v
       | None => stats
       end)).
  2:{ intros stats k. destruct (obj_get ars k) as [rs|]; cbn; [|done]. by case_bool_decide. }
  rewrite foldl_obj_set_lookup.
  assert (author ∈ keys ars ↔ is_Some (obj_get ars author)) as Hkeys.
  { unfold keys. by rewrite elem_of_own_keys, obj_get_is_Some. }
  rewrite (byAuthor_lookup l ars author Hl Hars) in Hkeys |- *.
  destruct (inherited author) eqn:Hauthor.
  { by case_decide. }
  destruct (Spec.written_by author l) as [|e theirs] eqn:Hw.
  { cbn. by case_decide. }
  rewrite decide_True by (apply Hkeys; by eexists).
  cbn [mbind option_bind]. unfold keys. rewrite group_fold_keys.
  fold (Spec.reviewers_of (e :: theirs)).
  rewrite bool_decide_eq_false_2.
  2:{ intros Hlen%nil_length_inv. by apply (reviewers_of_nonempty (e :: theirs)). }
  f_equal. unfold author_entry, Spec.author_stats, Spec.reviewer_accuracies. cbv zeta.
  rewrite Hw. subst counts.
  rewrite count_lookup; [|eapply (written_by_counted l); by rewrite Hw|done].
  rewrite pairs_values, <- list_fmap_compose.
  unfold keys. by rewrite group_fold_keys.
Qed.

(** When neither a reviewer nor an author is named like a member of
    [Object.prototype], the computation returns. *)
Lemma calculateByAuthor_returns (questions : list Question) l :
  Forall Spec.plain l → ∃ stats, calculateByAuthor questions l = Done stats.
Proof.
  intros [ars Hars]%byAuthor_forEach_plain. unfold calculateByAuthor. rewrite Hars. cbn.
  by eexists.
Qed.

(** The by-author statistics of a record set in which no reviewer is
    named like a member of [Object.prototype], when the computation
    returns, as it does if no author is named so either.  An author has
    an entry exactly when some record is on a question of that author,
    an author that is present, not 'Unknown' and not named like a member
    of [Object.prototype].  The accuracy of the entry is the mean,
    rounded to one decimal, of the accuracies that the reviewers reach
    on the records of the author, one term per reviewer; its
    [questionCount] is the number of catalog questions of the author,
    whatever the record set.  Records whose author is absent or
    'Unknown' make no difference to the group. *)
Theorem calculateByAuthor_average (questions : list Question) l (stats : obj AuthorStats) :
  Forall (λ e, inherited (reviewer_of (review e)) = false) l →
  calculateByAuthor questions l = Done stats →
  (∀ author : string,
     let theirs := Spec.written_by author l in
     match obj_get stats author with
     | None => theirs = [] ∨ inherited author = true
     | Some s =>
         theirs ≠ [] ∧ inherited author = false
         ∧ as_accuracy s = toFixed1 (mean (Spec.reviewer_accuracies author l))
         ∧ as_reviewerCount s = length (Spec.reviewers_of theirs)
         ∧ questionCount s = Spec.authored_count author questions
     end)
  ∧ calculateByAuthor questions (filter Spec.counted l) = Done stats
  ∧ obj_get stats "Unknown" = None.
Proof.
  intros Hl Hrun. split_and!.
  - intros author theirs. subst theirs.
    rewrite (calculateByAuthor_lookup questions l stats author Hl Hrun).
    destruct (inherited author); [by right|].
    destruct (Spec.written_by author l) eqn:Hw; [by left|].
    cbn. by rewrite Hw.
  - rewrite <- Hrun. unfold calculateByAuthor.
    by rewrite (run_forEach_skip Spec.counted byAuthor_step [] l)
      by apply byAuthor_step_skipped.
  - rewrite (calculateByAuthor_lookup questions l stats "Unknown" Hl Hrun).
    assert (Spec.written_by "Unknown" l = []) as ->; [|done].
    apply filter_none. intros e [Hc He]. by rewrite He in Hc.
Qed.

(** The accuracy of an author is a mean of accuracies, not a pooled
    ratio: on the questions of author A, dave is right once and erin
    wrong twice. *)
Example byAuthor_not_pooled :
  calculateByAuthor (Sample.Qdup :: Sample.catalog)
    (enrichedReviews (Sample.Qdup :: Sample.catalog) Sample.uneven_reviews
       {["dave"; "erin"]})
  = Done [("A", {| questionCount := 2; as_accuracy := 500; as_reviewerCount := 2 |});
          ("B", {| questionCount := 1; as_accuracy := 0; as_reviewerCount := 1 |})]
  ∧ toFixed1 (percent 1 3) = 333.
Proof. by vm_compute. Qed.

(** When neither a reviewer nor an author of the record set is named like
    a member of [Object.prototype], [analyzeData] returns, with its five
    fields assigned. *)
Lemma analyzeData_returns questions reviews (selectedReviewers : gset string)
    (this : Analysis) :
  let enriched := enrichedReviews questions reviews selectedReviewers in
  Forall Spec.plain enriched →
  ∃ byAuthor byReviewer,
    calculateByAuthor questions enriched = Done byAuthor
    ∧ calculateByReviewer enriched = Normal byReviewer
    ∧ analyzeData questions reviews selectedReviewers this
      = ({| an_enriched := Some enriched; authorStats := Some byAuthor;
            reviewerStats := Some byReviewer;
            questionStats := Some (calculateByQuestion enriched);
            overallStats := Some (calculateOverallStats byReviewer) |}, Done tt).
Proof.
  intros enriched Hplain.
  destruct (calculateByAuthor_returns questions enriched Hplain) as [byAuthor HbyAuthor].
  pose proof (calculateByReviewer_run enriched) as HbyReviewer.
  rewrite decide_True in HbyReviewer
    by (eapply Forall_impl; [exact Hplain|]; by intros e [? _]).
  pose proof (analyzeData_cases questions reviews selectedReviewers this) as Hcases.
  cbv zeta in Hcases. fold enriched in Hcases. rewrite HbyAuthor, HbyReviewer in Hcases.
  by eexists _, _.
Qed.

(** C5.  Two authors who appear in the record set and have no entry.  A
    reviewer who signs as [constructor] answers Q1, the one question of
    author A: the by-author group is empty.  An author who signs as
    [valueOf] wrote Q4, which bob answers: the group has an entry for
    the author of Q1 and none for the author of Q4. *)
Theorem calculateByAuthor_inherited_name :
  let by_constructor :=
    enrichedReviews Sample.catalog Sample.constructor_reviews {["constructor"]} in
  let catalog := Sample.catalog ++ [Sample.Qv] in
  let on_valueOf :=
    enrichedReviews catalog
      (Sample.bob_reviews ++ [Sample.mk_review "r4" "Q4" "bob" 2 "z" true]) {["bob"]} in
  Spec.author_of <$> by_constructor = [Some "A"]
  ∧ calculateByAuthor Sample.catalog by_constructor = Done []
  ∧ Spec.author_of <$> on_valueOf = [Some "A"; Some "B"; Some "valueOf"]
  ∧ calculateByAuthor catalog on_valueOf
    = Done [("A", {| questionCount := 1; as_accuracy := 1000; as_reviewerCount := 1 |});
            ("B", {| questionCount := 1; as_accuracy := 0; as_reviewerCount := 1 |})].
Proof. by vm_compute. Qed.

End by_author.

(** ** Statistics by question (js/analytics.js) *)

Section by_question.
Import Analytics.
Implicit Types (l : list Enriched) (e : Enriched) (k : string).

Lemma byQuestion_step_group (stats : obj QuestionAcc) e :
  inherited (Spec.question_key e) = false →
  byQuestion_step stats e
  = Loops.group_step Spec.question_key Loops.question_update stats e.
Proof.
  intros Hk.
  unfold byQuestion_step, Loops.group_step, Loops.question_update, Spec.question_key in *.
  rewrite (lookup_ordinary stats) by done.
  destruct (obj_get stats (prop_key (question_id_of (review e)))) as [s|] eqn:Hget; cbn.
  - by rewrite lookup_ordinary, Hget by done.
  - by rewrite lookup_ordinary, obj_get_set_eq, obj_set_set by done.
Qed.

Lemma byQuestion_step_inherited (stats : obj QuestionAcc) e :
  inherited (Spec.question_key e) = true → obj_get stats (Spec.question_key e) = None →
  byQuestion_step stats e = stats.
Proof.
  intros Hk Hget. unfold byQuestion_step. fold (Spec.question_key e).
  destruct (lookup_inherited stats _ Hk Hget) as [H|H]; cbv zeta; rewrite H; cbn;
    by rewrite ?H.
Qed.

(** The loop is the grouping loop over the records whose question key is
    not the name of a member of [Object.prototype]. *)
Lemma byQuestion_fold l :
  foldl byQuestion_step [] l
  = foldl (Loops.group_step Spec.question_key Loops.question_update) [] (Spec.keyed l).
Proof.
  apply guarded_fold.
  - intros stats e. apply byQuestion_step_group.
  - intros stats e. apply byQuestion_step_inherited.
Qed.

Lemma question_fold_value l :
  Loops.fold_value Loops.question_update l
  = match l with
    | [] => None
    | e :: _ =>
        Some {| qa_questionId := question_id_of (review e); qa_question := question e;
                qa_correct := length (filter (λ e, correct_of (review e) = true) l);
                qa_total := length l |}
    end.
Proof.
  induction l as [|e l IH] using rev_ind; [done|].
  rewrite fold_value_snoc, IH. unfold Loops.question_update.
  rewrite length_filter_snoc, length_app.
  destruct l as [|e0 l]; cbn; destruct (correct_of (review e)); cbn;
    repeat case_decide; try done; do 2 f_equal; cbn; lia.
Qed.

(** The entry that the code builds for a key. *)
Lemma byQuestion_entry l k :
  byQuestion_finish <$> obj_get (foldl byQuestion_step [] l) k
  = Spec.question_entry (Spec.keyed l) k.
Proof.
  rewrite byQuestion_fold, group_fold_get, question_fold_value.
  unfold Spec.question_entry. fold (Spec.answers_to k (Spec.keyed l)).
  destruct (Spec.answers_to k (Spec.keyed l)) as [|e theirs] eqn:Hk; [done|].
  cbn. unfold byQuestion_finish, accuracy_of. cbn.
  by rewrite bool_decide_eq_true_2 by lia.
Qed.

(** Before the sort, the list holds the entries in grouping order. *)
Lemma byQuestion_grouped l :
  byQuestion_finish <$> values (foldl byQuestion_step [] l) = Spec.grouped (Spec.keyed l).
Proof.
  unfold values, keys, Spec.grouped.
  rewrite list_fmap_omap, byQuestion_fold, group_fold_keys.
  apply omap_ext_elem_of. intros k _. rewrite <- byQuestion_fold. apply byQuestion_entry.
Qed.

Lemma calculateByQuestion_sort l :
  calculateByQuestion l = sort_by_key qs_accuracy (Spec.grouped (Spec.keyed l)).
Proof. unfold calculateByQuestion. by rewrite byQuestion_grouped. Qed.

Lemma question_entry_key l k s :
  Spec.question_entry l k = Some s → prop_key (qs_questionId s) = k.
Proof.
  unfold Spec.question_entry.
  destruct (Spec.answers_to k l) as [|e theirs] eqn:Hk; [done|].
  intros [= <-]. cbn. by apply filter_head in Hk as [? _].
Qed.

Lemma question_entry_None l k :
  Spec.question_entry l k = None ↔ k ∉ Spec.question_key <$> l.
Proof.
  unfold Spec.question_entry, Spec.answers_to. rewrite list_elem_of_fmap. split.
  - destruct (filter _ l) as [|e theirs] eqn:Hk; [|done].
    intros _ (e & -> & Hin). by eapply (filter_nil_not_elem_of _ l e).
  - intros Hno. rewrite (proj2 (filter_nil_iff _ l)); [done|].
    intros e Hin He. apply Hno. by exists e.
Qed.

Lemma filter_omap_key {A} (entry : string → option A) (key_of : A → string)
    (ks : list string) (k : string) :
  NoDup ks → (∀ k' s, entry k' = Some s → key_of s = k') →
  filter (λ s, key_of s = k) (omap entry ks)
  = if decide (k ∈ ks) then option_list (entry k) else [].
Proof.
  intros Hnd Hkey. induction Hnd as [|k0 ks Hk0 Hnd IH].
  - by rewrite decide_False by apply not_elem_of_nil.
  - change (omap entry (k0 :: ks))
      with (match entry k0 with Some s => s :: omap entry ks | None => omap entry ks end).
    assert (k ∈ k0 :: ks ↔ k = k0 ∨ k ∈ ks) as Hcons by apply elem_of_cons.
    destruct (entry k0) as [s|] eqn:Hs.
    + rewrite filter_cons, IH, (Hkey k0 s Hs).
      destruct (decide (k0 = k)) as [->|Hne].
      * rewrite (decide_True (P := k ∈ k :: ks)) by tauto.
        rewrite decide_False by done. by rewrite Hs.
      * destruct (decide (k ∈ ks)).
        -- by rewrite decide_True by tauto.
        -- rewrite decide_False; [done|]. intros [?|?]%Hcons; by subst.
    + rewrite IH. destruct (decide (k0 = k)) as [->|Hne].
      * rewrite (decide_True (P := k ∈ k :: ks)) by tauto.
        rewrite decide_False by done. by rewrite Hs.
      * destruct (decide (k ∈ ks)).
        -- by rewrite decide_True by tauto.
        -- rewrite decide_False; [done|]. intros [?|?]%Hcons; by subst.
Qed.

(** The entries of one key in the grouped list. *)
Lemma grouped_filter_key l k :
  filter (λ s, prop_key (qs_questionId s) = k) (Spec.grouped l)
  = option_list (Spec.question_entry l k).
Proof.
  unfold Spec.grouped.
  rewrite (filter_omap_key (Spec.question_entry l) (λ s, prop_key (qs_questionId s))).
  - case_decide as Hin; [done|].
    rewrite elem_of_own_keys, elem_of_first_occurrences in Hin.
    by apply question_entry_None in Hin as ->.
  - apply NoDup_own_keys, NoDup_first_occurrences.
  - apply question_entry_key.
Qed.

(** When no question key is an array index, grouping order is the order
    in which the questions first appear in the record list. *)
Lemma grouped_first_seen l :
  Forall (λ e, ¬ is_index (Spec.question_key e)) l →
  Spec.grouped l
  = omap (Spec.question_entry l) (Spec.first_occurrences (Spec.question_key <$> l)).
Proof.
  intros Hl. unfold Spec.grouped. rewrite own_keys_no_index; [done|].
  apply Forall_forall. intros k Hk.
  apply (proj1 (elem_of_first_occurrences _ _)) in Hk.
  apply list_elem_of_fmap in Hk as (e & -> & Hin).
  by apply (proj1 (Forall_forall _ _) Hl).
Qed.

(** The entry of a key that is the name of a member of [Object.prototype]
    does not exist, and the entry of any other key is made of all the
    records of the key. *)
Lemma question_entry_keyed l k :
  Spec.question_entry (Spec.keyed l) k
  = if inherited k then None else Spec.question_entry l k.
Proof.
  unfold Spec.question_entry, Spec.answers_to, Spec.keyed.
  destruct (inherited k) eqn:Hk.
  - rewrite (proj2 (filter_nil_iff _ _)); [done|].
    intros e [He _]%list_elem_of_filter Hkey. congruence.
  - assert (filter (λ e, Spec.question_key e = k)
              (filter (λ e, inherited (Spec.question_key e) = false) l)
            = filter (λ e, Spec.question_key e = k) l) as ->; [|done].
    rewrite list_filter_filter. apply list_filter_iff. intros e.
    split; [tauto|]. intros <-. done.
Qed.

(** The by-question list holds, for each question key, one entry if the
    key has a record and is not the name of a member of
    [Object.prototype], and none otherwise; the entry counts every
    record of the key and its accuracy is [correct / total * 100] to one
    decimal, a nearest tenth of the exact percentage for up to 240
    records.  The list ascends by accuracy, and entries of equal
    accuracy stand in grouping order. *)
Theorem calculateByQuestion_sorted l :
  let result := calculateByQuestion l in
  (∀ k, filter (λ s, prop_key (qs_questionId s) = k) result
        = if inherited k then [] else option_list (Spec.question_entry l k))
  ∧ Forall (λ s, (qs_total s ≤ 240)%nat →
                 Spec.nearest_tenth (qs_correct s) (qs_total s) (qs_accuracy s)) result
  ∧ StronglySorted (key_le qs_accuracy) result
  ∧ (∀ a, filter (λ s, qs_accuracy s = a) result
          = filter (λ s, qs_accuracy s = a) (Spec.grouped (Spec.keyed l)))
  ∧ result ≡ₚ Spec.grouped (Spec.keyed l).
Proof.
  intros result. subst result. rewrite calculateByQuestion_sort. split_and!.
  - intros k.
    assert (filter (λ s, prop_key (qs_questionId s) = k)
              (sort_by_key qs_accuracy (Spec.grouped (Spec.keyed l)))
            ≡ₚ option_list (Spec.question_entry (Spec.keyed l) k)) as Hperm
      by by rewrite sort_by_key_Permutation, grouped_filter_key.
    rewrite question_entry_keyed in Hperm.
    destruct (inherited k); [by apply Permutation_nil_r|].
    destruct (Spec.question_entry l k); cbn in Hperm |- *.
    + by apply Permutation_singleton_r.
    + by apply Permutation_nil_r.
  - rewrite sort_by_key_Permutation. unfold Spec.grouped.
    apply Forall_forall. intros s (k & _ & Hs)%list_elem_of_omap Htotal.
    unfold Spec.question_entry in Hs.
    destruct (Spec.answers_to k (Spec.keyed l)) as [|e theirs] eqn:Hk; [done|].
    injection Hs as <-. cbn in Htotal |- *.
    pose proof (accuracy_of_nearest_tenth
                  (length (filter (λ e, correct_of (review e) = true) (e :: theirs)))
                  (length (e :: theirs))) as Hnear.
    unfold accuracy_of in Hnear. rewrite bool_decide_eq_true_2 in Hnear by (cbn; lia).
    apply Hnear; [cbn in *; lia|]. apply length_filter.
  - apply sort_by_key_sorted.
  - intros a. apply sort_by_key_stable.
  - apply sort_by_key_Permutation.
Qed.

(** Two questions of equal accuracy keep their grouping order, and the
    harder question comes first. *)
Example calculateByQuestion_scenario :
  (λ s, (qs_questionId s, qs_correct s, qs_total s, qs_accuracy s))
    <$> calculateByQuestion
          (enrichedReviews (Sample.Qdup :: Sample.catalog) Sample.uneven_reviews
             {["dave"; "erin"]})
  = [(Some "Q2", 0%nat, 1%nat, 0); (Some "Q3", 0%nat, 1%nat, 0);
     (Some "Q1", 1%nat, 2%nat, 500)].
Proof. by vm_compute. Qed.

(** C6.  A catalog in which one question has the id [toString]: bob
    answers that question and Q1, both records are in the record set,
    and the by-question group has an entry for Q1 and none for
    [toString]; with the record of [toString] alone the group is
    empty. *)
Theorem calculateByQuestion_inherited_id :
  let catalog := Sample.Qt :: Sample.catalog in
  let reviews :=
    [Sample.mk_review "t1" "toString" "bob" 0 "w" true;
     Sample.mk_review "r1" "Q1" "bob" 1 "x" true] in
  let enriched := enrichedReviews catalog reviews {["bob"]} in
  question_id_of ∘ review <$> enriched = [Some "toString"; Some "Q1"]
  ∧ (λ s, (qs_questionId s, qs_correct s, qs_total s, qs_accuracy s))
      <$> calculateByQuestion enriched
    = [(Some "Q1", 1%nat, 1%nat, 1000)]
  ∧ calculateByQuestion (take 1 enriched) = [].
Proof. by vm_compute. Qed.

End by_question.

(** ** The wide export (js/analytics.js) *)

Section export.
Import Analytics.
Implicit Types (l : list Enriched) (e : Enriched) (q : Question).

(** The grouping loop over a [Map]. *)
Lemma map_group_fold_get {X V} `{Countable K} (key : X → K) (f : option V → X → V)
    (l : list X) (k : K) :
  foldl (λ (m : gmap K V) x, <[key x := f (m !! key x) x]> m) ∅ l !! k
  = Loops.fold_value f (filter (λ x, key x = k) l).
Proof.
  induction l as [|x l IH] using rev_ind; [done|].
  rewrite foldl_snoc, filter_app, filter_cons, filter_nil.
  destruct (decide (key x = k)) as [Hk|Hk].
  - subst k. rewrite lookup_insert_eq, fold_value_snoc. by rewrite IH.
  - rewrite lookup_insert_ne by done. by rewrite app_nil_r.
Qed.

Lemma csv_step_group (m : gmap (option string) Cells) e :
  csv_step m e
  = <[question_id_of (review e) := Loops.cell_update (m !! question_id_of (review e)) e]> m.
Proof.
  unfold csv_step, Loops.cell_update.
  destruct (m !! question_id_of (review e)) as [cells|] eqn:Hm; cbn.
  - by rewrite Hm.
  - by rewrite lookup_insert_eq, insert_insert_eq.
Qed.

Lemma cell_fold_value l :
  Loops.fold_value Loops.cell_update l
  = match l with
    | [] => None
    | _ => Some (Loops.cells_of_question l)
    end.
Proof.
  induction l as [|e l IH] using rev_ind; [done|].
  rewrite fold_value_snoc, IH.
  assert (default no_cells (match l with [] => None | _ => Some (Loops.cells_of_question l) end)
          = Loops.cells_of_question l) as Hdefault by by destruct l.
  destruct (l ++ [e]) eqn:Happ; [by destruct l|]. rewrite <- Happ. f_equal.
  unfold Loops.cell_update. rewrite Hdefault.
  unfold Loops.cells_of_question, set_cell.
  rewrite !filter_app, !filter_cons, !filter_nil.
  case_bool_decide as Hproto; cbn [own_cells proto_cell].
  - rewrite decide_False by tauto. rewrite decide_True by done.
    by rewrite app_nil_r, last_snoc.
  - rewrite decide_True by done. rewrite decide_False by done.
    by rewrite app_nil_r, foldl_snoc.
Qed.

Lemma last_fold_value l :
  Loops.fold_value (λ (_ : option Cell) e, Spec.cell_of e) l = Spec.cell_of <$> last l.
Proof.
  destruct l as [|e l _] using rev_ind; [done|].
  by rewrite fold_value_snoc, last_snoc.
Qed.

(** The object that the loop keeps for a question. *)
Lemma csv_fold_lookup l q :
  default no_cells (foldl csv_step ∅ l !! Some (questionID q))
  = Loops.cells_of_question
      (filter (λ e, question_id_of (review e) = Some (questionID q)) l).
Proof.
  rewrite (foldl_ext_eq csv_step
             (λ m e, <[question_id_of (review e)
                       := Loops.cell_update (m !! question_id_of (review e)) e]> m))
    by apply csv_step_group.
  rewrite (map_group_fold_get (λ e, question_id_of (review e))), cell_fold_value.
  by destruct (filter _ l).
Qed.

(** The last record of a pair, among the records of the question. *)
Lemma last_record_filter l q (reviewer : string) :
  Spec.last_record q reviewer l
  = last (filter (λ e, csv_reviewer (review e) = reviewer)
            (filter (λ e, question_id_of (review e) = Some (questionID q)) l)).
Proof.
  unfold Spec.last_record. f_equal. rewrite list_filter_filter.
  apply list_filter_iff. intros e. unfold Spec.hits. tauto.
Qed.

(** The cells of a reviewer in the row of a question. *)
Lemma csv_cells_last l q (reviewer : string) :
  csv_cells (default no_cells (foldl csv_step ∅ l !! Some (questionID q))) reviewer
  = Spec.exported_cells q reviewer l.
Proof.
  rewrite csv_fold_lookup. unfold csv_cells, Spec.exported_cells.
  rewrite !last_record_filter.
  set (theirs := filter (λ e, question_id_of (review e) = Some (questionID q)) l).
  unfold Loops.cells_of_question. cbn [own_cells proto_cell].
  case_bool_decide as Hproto.
  - subst reviewer. by destruct (last _).
  - rewrite group_fold_get, last_fold_value.
    assert (filter (λ e, csv_reviewer (review e) = reviewer)
              (filter (λ e, csv_reviewer (review e) ≠ "__proto__") theirs)
            = filter (λ e, csv_reviewer (review e) = reviewer) theirs) as ->.
    { rewrite list_filter_filter. apply list_filter_iff. intros e.
      split; [tauto|]. intros <-. done. }
    destruct (last (filter (λ e, csv_reviewer (review e) = reviewer) theirs)); [done|].
    cbn. by destruct (last _).
Qed.

Lemma bind_ext_eq {A B} (f g : A → list B) (l : list A) :
  (∀ x, f x = g x) → l ≫= f = l ≫= g.
Proof. intros Hfg. induction l as [|x l IH]; cbn; [done|]. by rewrite Hfg, IH. Qed.

Lemma last_filter_split {A} (P : A → Prop) `{∀ x, Decision (P x)} (l1 l2 : list A) (x : A) :
  P x → Forall (λ y, ¬ P y) l2 → last (filter P (l1 ++ x :: l2)) = Some x.
Proof.
  intros Hx Hl2. rewrite filter_app, filter_cons_True by done.
  assert (filter P l2 = []) as ->.
  { induction Hl2 as [|y l2 Hy _ IH]; [done|]. by rewrite filter_cons_False. }
  by rewrite last_snoc.
Qed.

(** In every row of the export the two cells of a reviewer are those of
    the last record, in input order, that carries the question id of the
    row and the name of the reviewer as the export reads it: a later
    record of a pair replaces an earlier one.  When no record does, and
    neither the name of the reviewer nor the reviewer key of a record of
    the question is the name of a member of [Object.prototype], the
    cells are [null] twice. *)
Theorem downloadQuestionCSV_last_wins (questions : list Question) l
    (selectedReviewers : gset string) :
  csv_rows questions l selectedReviewers
  = (let reviewers := sort_strings (elements selectedReviewers) in
     csv_headers reviewers
     :: ((λ q, csv_question_cells q
               ++ (reviewers ≫= λ reviewer, Spec.exported_cells q reviewer l))
         <$> questions))
  ∧ (∀ q reviewer l1 e l2,
       l = l1 ++ e :: l2 →
       Spec.hits q reviewer e →
       Forall (λ e', ¬ Spec.hits q reviewer e') l2 →
       Spec.exported_cells q reviewer l
       = [escapeCSV (answer (review e)); if correct_of (review e) then "true" else "false"])
  ∧ (∀ q reviewer,
       Forall (λ e, ¬ Spec.hits q reviewer e) l →
       inherited reviewer = false →
       Forall (λ e, ¬ Spec.hits q "__proto__" e) l →
       Spec.exported_cells q reviewer l = ["null"; "null"]).
Proof.
  split_and!.
  - unfold csv_rows. cbv zeta. f_equal. apply list_fmap_ext. intros _ q _.
    unfold csv_row. cbv zeta. f_equal. apply bind_ext_eq. intros reviewer.
    apply csv_cells_last.
  - intros q reviewer l1 e l2 -> He Hl2.
    unfold Spec.exported_cells, Spec.last_record.
    by rewrite last_filter_split.
  - intros q reviewer Hnone [Hproto Hfunction]%orb_false_elim Hnoproto.
    unfold Spec.exported_cells, Spec.last_record.
    rewrite (proj2 (filter_nil_iff (Spec.hits q reviewer) l))
      by (intros e; apply (proj1 (Forall_forall _ _) Hnone)).
    rewrite (proj2 (filter_nil_iff (Spec.hits q "__proto__") l))
      by (intros e; apply (proj1 (Forall_forall _ _) Hnoproto)).
    cbn. by rewrite Hproto, Hfunction.
Qed.

(** The tie-break of the export is the opposite of the one of the
    by-reviewer statistics: carol answers Q1 wrongly and then correctly;
    the statistics count her first answer, the export shows her last. *)
Example export_last_statistics_first :
  let enriched := enrichedReviews Sample.catalog Sample.carol_reviews {["carol"]} in
  calculateByReviewer enriched
  = Normal [("carol", {| rs_correct := 0; rs_total := 1; rs_accuracy := 0 |})]
  ∧ csv_rows Sample.catalog enriched {["carol"]} !! 1%nat
    = Some ["Q1"; "text of Q1"; "food"; "A"; "x"; "p"; "q"; "r"; "x"; "x"; "true"].
Proof. by vm_compute. Qed.

(** C10.  Two records without a reviewer name answer Q1, wrongly and then
    correctly.  The reviewer filter lists them under [Unknown], the
    record set of that selection holds both, and the by-reviewer group
    counts the first under [Unknown]; the export has the columns of
    [Unknown], and in the row of Q1 they hold [null] twice: neither the
    last record of the pair nor any other supplies the cells. *)
Theorem downloadQuestionCSV_nameless :
  let f := initializeReviewerFilter Sample.nameless_reviews in
  let enriched :=
    enrichedReviews Sample.catalog Sample.nameless_reviews (selectedReviewers f) in
  allReviewers f = ["Unknown"]
  ∧ reviewer_of ∘ review <$> enriched = ["Unknown"; "Unknown"]
  ∧ calculateByReviewer enriched
    = Normal [("Unknown", {| rs_correct := 0; rs_total := 1; rs_accuracy := 0 |})]
  ∧ csv_rows Sample.catalog enriched (selectedReviewers f)
    = [["question_id"; "question"; "category"; "authored_by";
        "choice_1"; "choice_2"; "choice_3"; "choice_4"; "correct_answer";
        "Unknown_answer"; "Unknown_is_correct"];
       ["Q1"; "text of Q1"; "food"; "A"; "x"; "p"; "q"; "r"; "x"; "null"; "null"];
       ["Q2"; "text of Q2"; "food"; "B"; "y"; "p"; "q"; "r"; "y"; "null"; "null"]].
Proof. by vm_compute. Qed.

End export.

(** ** The local and remote stores (js/storage.js) *)

Section storage.
Import StorageManager.

Lemma missing_loop_filter (saved : gset (option Z)) (n : nat) :
  ∀ i acc,
    missing_loop saved i n acc
    = acc ++ filter (λ j, Some j ∉ saved) (seqZ i (Z.of_nat n)).
Proof.
  induction n as [|n IH]; intros i acc.
  - by rewrite seqZ_nil, app_nil_r.
  - cbn [missing_loop]. rewrite IH, (seqZ_cons i) by lia.
    replace (Z.pred (Z.of_nat (S n))) with (Z.of_nat n) by lia.
    replace (Z.succ i) with (i + 1) by lia.
    rewrite filter_cons. repeat case_decide; try done.
    by rewrite <- app_assoc.
Qed.

Lemma StronglySorted_seqZ (m : Z) (n : nat) : StronglySorted Z.lt (seqZ m (Z.of_nat n)).
Proof.
  revert m. induction n as [|n IH]; intros m.
  - rewrite seqZ_nil by lia. constructor.
  - rewrite seqZ_cons by lia.
    replace (Z.pred (Z.of_nat (S n))) with (Z.of_nat n) by lia.
    constructor; [apply IH|].
    apply Forall_seqZ. intros k ?. lia.
Qed.

Lemma StronglySorted_filter {A} (R : relation A) (P : A → Prop) `{∀ x, Decision (P x)}
    (l : list A) :
  StronglySorted R l → StronglySorted R (filter P l).
Proof.
  induction 1 as [|x l Hl IH Hx]; [constructor|].
  rewrite filter_cons. case_decide; [|done].
  constructor; [done|].
  rewrite Forall_forall in Hx |- *.
  intros y [_ Hy]%list_elem_of_filter. by apply Hx.
Qed.

(** What [getMissingQuestions] computes once the list operation has
    delivered an array of records. *)
Lemma getMissingQuestions_array cfg resp who cat qs l :
  getReviewsFromAPI cfg resp = ReviewArray l →
  getMissingQuestions cfg resp who cat qs
  = filter (λ j, Some j ∉ (list_to_set (question_index <$> filter (relevant who cat) l)
                           : gset (option Z)))
      (seqZ 0 (Z.of_nat (length qs))).
Proof.
  intros Hl. unfold getMissingQuestions. rewrite Hl. cbn.
  by rewrite missing_loop_filter.
Qed.

(** Every way in which the list operation can fail ends in the empty
    array, never in an exception. *)
Lemma getReviewsFromAPI_failure c resp :
  enableS3Upload c = true → apiEndpoint c ≠ EmptyString →
  resp = Rejected ∨ (∃ body, resp = Responded false body) ∨ resp = Responded true None →
  getReviewsFromAPI (Some c) resp = ReviewArray [].
Proof.
  intros Hon Hend Hresp. unfold getReviewsFromAPI. rewrite Hon. cbn.
  rewrite bool_decide_eq_false_2 by done.
  destruct Hresp as [->|[[body ->]| ->]]; done.
Qed.

Lemma saved_index_iff who cat (l : list Review) (i : Z) :
  Some i ∈ (list_to_set (question_index <$> filter (relevant who cat) l) : gset (option Z))
  ↔ ∃ r, r ∈ l ∧ relevant who cat r ∧ question_index r = Some i.
Proof.
  rewrite elem_of_list_to_set, list_elem_of_fmap.
  setoid_rewrite list_elem_of_filter. split.
  - intros (r & Hi & Hrel & Hr). by exists r.
  - intros (r & Hr & Hrel & Hi). by exists r.
Qed.

(** C2, as amended.  Once the list operation has delivered the records
    [l], [getMissingQuestions] returns a strictly ascending list without
    repetition, every element lies in [0, N) for N the number of
    questions, and an index of [0, N) is left out exactly when some
    record of [l] for that reviewer and category carries it as its
    [question_index]. *)
Theorem getMissingQuestions_complement cfg resp who cat qs l :
  getReviewsFromAPI cfg resp = ReviewArray l →
  let missing := getMissingQuestions cfg resp who cat qs in
  let N := Z.of_nat (length qs) in
  StronglySorted Z.lt missing ∧
  NoDup missing ∧
  (∀ i, i ∈ missing → 0 ≤ i < N) ∧
  (∀ i, 0 ≤ i < N →
     (i ∉ missing ↔ ∃ r, r ∈ l ∧ relevant who cat r ∧ question_index r = Some i)).
Proof.
  intros Hl missing N. subst missing.
  rewrite (getMissingQuestions_array _ _ _ _ _ _ Hl).
  split_and!.
  - apply StronglySorted_filter, StronglySorted_seqZ.
  - apply NoDup_filter, NoDup_seqZ.
  - intros i [_ Hi]%list_elem_of_filter. apply elem_of_seqZ in Hi. lia.
  - intros i Hi. rewrite list_elem_of_filter, elem_of_seqZ.
    rewrite <- (saved_index_iff who cat l i).
    destruct (decide (Some i ∈ (list_to_set (question_index <$> filter (relevant who cat) l)
                                : gset (option Z)))); [tauto|].
    split; [|tauto]. intros Hnot. destruct Hnot. split; [done|lia].
Qed.

Lemma getMissingQuestions_complement_witness :
  let missing :=
    getMissingQuestions (Some Sample.config) (Sample.served Sample.alice_remote)
      "alice" "food" Sample.four_questions in
  StronglySorted Z.lt missing ∧
  NoDup missing ∧
  (∀ i, i ∈ missing → 0 ≤ i < 4) ∧
  (∀ i, 0 ≤ i < 4 →
     (i ∉ missing ↔ ∃ r, r ∈ Sample.alice_remote ∧ relevant "alice" "food" r
                         ∧ question_index r = Some i)).
Proof.
  apply (getMissingQuestions_complement (Some Sample.config)
           (Sample.served Sample.alice_remote) "alice" "food"
           Sample.four_questions Sample.alice_remote).
  reflexivity.
Defined.

(** C2 as stated fails: a remote record whose [question_index] is 5, with
    four questions, is among the distinct index values of the reviewer
    and category but not in the complement of the result within [0, 4). *)
Lemma getMissingQuestions_stale_index :
  let missing :=
    getMissingQuestions (Some Sample.config) (Sample.served Sample.stale_remote)
      "alice" "food" Sample.four_questions in
  missing = [0; 1; 2; 3] ∧
  ¬ (∀ i : Z,
       (0 ≤ i < 4 ∧ i ∉ missing)
       ↔ ∃ r, r ∈ Sample.stale_remote ∧ relevant "alice" "food" r
              ∧ question_index r = Some i).
Proof.
  split; [by vm_compute|].
  intros H. destruct (H 5) as [_ H5].
  destruct H5 as [? _]; [|lia].
  eexists. split; [here|]. by repeat split.
Qed.

(** The scenario of the specification: records for the indexes 0, 1 and 3
    of four questions leave index 2 missing. *)
Example getMissingQuestions_scenario :
  getMissingQuestions (Some Sample.config) (Sample.served Sample.alice_remote)
    "alice" "food" Sample.four_questions = [2].
Proof. by vm_compute. Qed.

(** When the list operation fails, every index is reported missing. *)
Lemma getMissingQuestions_failure c resp who cat qs :
  enableS3Upload c = true → apiEndpoint c ≠ EmptyString →
  resp = Rejected ∨ (∃ body, resp = Responded false body) ∨ resp = Responded true None →
  getMissingQuestions (Some c) resp who cat qs = seqZ 0 (Z.of_nat (length qs)).
Proof.
  intros Hon Hend Hresp.
  rewrite (getMissingQuestions_array _ _ _ _ _ []) by by apply getReviewsFromAPI_failure.
  induction (seqZ 0 (Z.of_nat (length qs))) as [|j js IH]; [done|].
  rewrite filter_cons_True; [by f_equal|]. set_solver.
Qed.

(** C3: the code at the failing input.  The remote call is rejected and
    the catalog has four questions; the result is all four indexes, where
    the claim has the empty list. *)
Theorem getMissingQuestions_unreachable :
  getMissingQuestions (Some Sample.config) Rejected "alice" "food" Sample.four_questions
  = [0; 1; 2; 3].
Proof. by vm_compute. Qed.

(** The [catch] of [getMissingQuestions] is reached when the payload
    holds something that is not an array under [reviews]. *)
Lemma getMissingQuestions_not_an_array c who cat qs :
  enableS3Upload c = true → apiEndpoint c ≠ EmptyString →
  getMissingQuestions (Some c)
    (Responded true (Some {| success := true; reviews := Some NotAnArray |})) who cat qs
  = [].
Proof.
  intros Hon Hend. unfold getMissingQuestions, getReviewsFromAPI. rewrite Hon. cbn.
  by rewrite bool_decide_eq_false_2.
Qed.


(** The local marker is the same whatever happens to the remote write. *)
Lemma saveProgress_remote_irrelevant cfg cfg' resp resp' iso who cat idx ls :
  (saveProgress cfg resp iso who cat idx ls).1
  = (saveProgress cfg' resp' iso who cat idx ls).1.
Proof. unfold saveProgress. by destruct (api_enabled cfg), (api_enabled cfg'). Qed.

Lemma list_find_None_ne (reviewId : string) (results : list Review) :
  (∀ r, r ∈ results → review_id r ≠ reviewId) →
  list_find (λ r, review_id r = reviewId) results = None.
Proof.
  intros Hne. apply list_find_None, Forall_forall. intros r Hr. by apply Hne.
Qed.

(** C9.  For an id that no stored result carries, [updateComment]
    returns [false] and leaves [localStorage] as it was; being a total
    function of the store, it raises nothing. *)
Theorem updateComment_unknown_id reviewId comment ls :
  (∀ r, r ∈ getAllResults ls → review_id r ≠ reviewId) →
  updateComment reviewId comment ls = (false, ls).
Proof.
  intros Hne. unfold updateComment. by rewrite list_find_None_ne.
Qed.

Lemma updateComment_unknown_id_witness :
  updateComment "review_0_missing" "a note"
    (setItem_results Sample.empty_storage Sample.bob_reviews)
  = (false, setItem_results Sample.empty_storage Sample.bob_reviews).
Proof.
  apply (updateComment_unknown_id "review_0_missing" "a note"
           (setItem_results Sample.empty_storage Sample.bob_reviews)).
  intros r Hr. cbn in Hr.
  apply elem_of_cons in Hr as [->|Hr]; [done|].
  apply elem_of_cons in Hr as [->|Hr]; [done|].
  by apply elem_of_nil in Hr.
Defined.

(** For a known id the first record that carries it gets the comment. *)
Lemma updateComment_known_id reviewId comment ls index r :
  list_find (λ r, review_id r = reviewId) (getAllResults ls) = Some (index, r) →
  updateComment reviewId comment ls
  = (true, setItem_results ls (<[index := set_comment r comment]> (getAllResults ls))).
Proof. intros Hfind. unfold updateComment. by rewrite Hfind. Qed.

End storage.

(** ** The quiz session (js/app.js) *)

Section app.
Import StorageManager.

(** The index that [renderChoices] settles on points at a button as soon
    as there is one. *)
Lemma renderChoices_index_in_range (choices : list string) (correctAnswer : option string)
    (st : QuizApp.State) :
  choices ≠ [] →
  ∃ correctIndex correctText,
    QuizApp.correctAnswerIndex (QuizApp.renderChoices choices correctAnswer st)
    = Some correctIndex
    ∧ choices !! correctIndex = Some correctText.
Proof.
  intros Hne. unfold QuizApp.renderChoices. cbn.
  destruct choices as [|c0 choices]; [done|].
  destruct (truthy correctAnswer); [|by exists 0%nat, c0].
  destruct (list_find _ _) as [[i c]|] eqn:Hfind; cbn; [|by exists 0%nat, c0].
  apply list_find_Some in Hfind as (Hi & _). by exists i, c.
Qed.

(** The index that [renderChoices] settles on is the position of the
    first choice that carries the answer, if the answer is a non-empty
    text among the choices, and 0 otherwise. *)
Lemma renderChoices_position (q : Question) (st : QuizApp.State) (i : nat) :
  QuizApp.correctAnswerIndex (QuizApp.renderChoices (choice q) (q_answer q) st) = Some i →
  Spec.correct_position q i.
Proof.
  unfold QuizApp.renderChoices, Spec.correct_position. cbn.
  destruct (q_answer q) as [a|]; cbn; [|by intros [= <-]].
  case_bool_decide as Ha.
  2: { intros [= <-]. rewrite decide_False; [done|]. by intros [? _]. }
  destruct (list_find _ _) as [[i0 c]|] eqn:Hfind; cbn.
  - intros [= <-]. apply list_find_Some in Hfind as (Hi & [= ->] & Hfirst).
    rewrite decide_True.
    2: { split; [done|]. by eapply list_elem_of_lookup_2. }
    split; [done|]. intros j Hj Hlookup. by apply (Hfirst j a).
  - intros [= <-]. apply list_find_None in Hfind.
    rewrite decide_False; [done|]. intros [_ Hin].
    by apply (proj1 (Forall_forall _ _) Hfind a).
Qed.

(** Clicks on the buttons of a question whose result is not yet shown
    change the selection and nothing else. *)
Lemma clicks_before_submit (st : QuizApp.State) (clicks : list nat) :
  QuizApp.resultShown st = false →
  let st' := foldl (λ st i, QuizApp.selectAnswer i st) st clicks in
  QuizApp.resultShown st' = false
  ∧ QuizApp.questions st' = QuizApp.questions st
  ∧ QuizApp.currentIndex st' = QuizApp.currentIndex st
  ∧ QuizApp.correctAnswerIndex st' = QuizApp.correctAnswerIndex st
  ∧ QuizApp.choiceButtons st' = QuizApp.choiceButtons st
  ∧ QuizApp.app_reviewerName st' = QuizApp.app_reviewerName st
  ∧ QuizApp.app_category st' = QuizApp.app_category st.
Proof.
  revert st. induction clicks as [|i clicks IH]; intros st Hhidden; [done|].
  cbn [foldl].
  assert (QuizApp.selectAnswer i st
          = {| QuizApp.questions := QuizApp.questions st;
               QuizApp.currentIndex := QuizApp.currentIndex st;
               QuizApp.selectedAnswer := Some i;
               QuizApp.correctAnswerIndex := QuizApp.correctAnswerIndex st;
               QuizApp.app_reviewerName := QuizApp.app_reviewerName st;
               QuizApp.app_category := QuizApp.app_category st;
               QuizApp.currentReviewId := QuizApp.currentReviewId st;
               QuizApp.choiceButtons := QuizApp.choiceButtons st;
               QuizApp.resultShown := QuizApp.resultShown st |}) as ->.
  { unfold QuizApp.selectAnswer. by rewrite Hhidden, andb_false_r. }
  match goal with |- context [foldl _ ?st1 clicks] => specialize (IH st1 Hhidden) end.
  exact IH.
Qed.

(** C7, as amended.  The record that a submission stores has [is_correct]
    true exactly when the index clicked last is the index of the correct
    choice: the position of the first choice whose text is the answer of
    the question, when that answer is a non-empty text among the
    choices, and 0 otherwise.  Then the stored answer text equals the
    stored correct text, and the converse holds when the text of the
    correct choice occurs at no other position of the choice list. *)
Theorem submitAnswer_isCorrect now rnd iso st ls q clicks index :
  QuizApp.questions st !! QuizApp.currentIndex st = Some q →
  (index < length (choice q))%nat →
  ∃ st' R correctIndex correctText,
    QuizApp.answer_current now rnd iso clicks index st ls
    = Normal (st', setItem_results ls (getAllResults ls ++ [R]))
    ∧ QuizApp.correctAnswerIndex st' = Some correctIndex
    ∧ Spec.correct_position q correctIndex
    ∧ choice q !! correctIndex = Some correctText
    ∧ answer R = choice q !! index
    ∧ correct_answer R = Some correctText
    ∧ is_correct R = Some (bool_decide (index = correctIndex))
    ∧ (is_correct R = Some true → answer R = correct_answer R)
    ∧ ((∀ j, choice q !! j = Some correctText → j = correctIndex) →
       answer R = correct_answer R → is_correct R = Some true).
Proof.
  intros Hq Hindex.
  destruct (lookup_lt_is_Some_2 (choice q) index Hindex) as [selectedText Hsel].
  assert (choice q ≠ []) as Hne by (intros Hnil; by rewrite Hnil in Hsel).
  unfold QuizApp.answer_current, QuizApp.showQuestion. rewrite Hq. cbn [bind].
  set (st0 := {| QuizApp.questions := _ |}).
  destruct (renderChoices_index_in_range (choice q) (q_answer q) st0 Hne)
    as (correctIndex & correctText & Hci & Hct).
  set (st1 := QuizApp.renderChoices (choice q) (q_answer q) st0) in *.
  destruct (clicks_before_submit st1 clicks eq_refl)
    as (Hhidden & Hqs & Hcur & Hcorrect & Hbuttons & Hname & Hcat).
  set (st2 := foldl (λ st i, QuizApp.selectAnswer i st) st1 clicks) in *.
  unfold QuizApp.submitAnswer, QuizApp.selectAnswer.
  rewrite Hhidden, andb_false_r. cbn.
  rewrite Hcorrect, Hci, Hbuttons, Hqs, Hcur. cbn. rewrite Hsel, Hct, Hq. cbn.
  eexists _, _, correctIndex, correctText. split; [reflexivity|]. cbn.
  split_and!; try done.
  - by apply (renderChoices_position q st0).
  - intros [= Heq%bool_decide_eq_true]. subst index. congruence.
  - intros Huniq Heq. f_equal. apply bool_decide_eq_true. apply Huniq. congruence.
Qed.

Lemma submitAnswer_isCorrect_witness :
  ∃ st' R correctIndex correctText,
    QuizApp.answer_current "1700000000000" "abcd1234" "2025-01-01T00:00:00.000Z" [0%nat] 1
      (Sample.app_state Sample.catalog 0) Sample.empty_storage
    = Normal (st', setItem_results Sample.empty_storage
                     (getAllResults Sample.empty_storage ++ [R]))
    ∧ QuizApp.correctAnswerIndex st' = Some correctIndex
    ∧ Spec.correct_position Sample.Q1 correctIndex
    ∧ choice Sample.Q1 !! correctIndex = Some correctText
    ∧ answer R = choice Sample.Q1 !! 1%nat
    ∧ correct_answer R = Some correctText
    ∧ is_correct R = Some (bool_decide (1%nat = correctIndex))
    ∧ (is_correct R = Some true → answer R = correct_answer R)
    ∧ ((∀ j, choice Sample.Q1 !! j = Some correctText → j = correctIndex) →
       answer R = correct_answer R → is_correct R = Some true).
Proof.
  apply (submitAnswer_isCorrect "1700000000000" "abcd1234" "2025-01-01T00:00:00.000Z"
           (Sample.app_state Sample.catalog 0) Sample.empty_storage Sample.Q1 [0%nat] 1).
  - reflexivity.
  - cbn. lia.
Defined.

(** C7 as stated fails on a choice list with a repeated text: with the
    choices a, a, b, c and the answer a, clicking the second button
    stores equal answer and correct texts and [is_correct] false. *)
Lemma submitAnswer_duplicate_texts :
  ∃ st' ls' R,
    QuizApp.answer_current "1700000000000" "abcd1234" "2025-01-01T00:00:00.000Z" [] 1
      (Sample.app_state [Sample.Qdup] 0) Sample.empty_storage
    = Normal (st', ls')
    ∧ getAllResults ls' = [R]
    ∧ answer R = Some "a" ∧ correct_answer R = Some "a"
    ∧ is_correct R = Some false
    ∧ ¬ (is_correct R = Some true ↔ answer R = correct_answer R).
Proof.
  eexists _, _, _. split; [by vm_compute|]. cbn.
  split_and!; try done. intros [_ H]. by specialize (H eq_refl).
Qed.

End app.

(** * Further properties of the stores (js/storage.js) *)

Section results.
Import StorageManager.

(** The number of records a test keeps and the number it rejects add up
    to the number of records. *)
Lemma length_filter_bool {A} (f : A → bool) (l : list A) :
  (length (filter (λ x, f x = true) l) + length (filter (λ x, f x = false) l))%nat
  = length l.
Proof.
  induction l as [|x l IH]; [done|].
  rewrite !filter_cons. destruct (f x) eqn:Hf.
  - rewrite decide_True, decide_False by done. cbn. lia.
  - rewrite decide_False, decide_True by done. cbn. lia.
Qed.

(** X1.  A record saved under an id that no stored record carries can be
    commented by that id: [updateComment] then reports success, and the
    store reads back as the records it held before, each as it was,
    followed by the new record with the comment.  A store that could not
    be read counts as empty and is replaced. *)
Theorem saveResult_updateComment now rnd iso result note ls :
  (∀ r, r ∈ getAllResults ls → review_id r ≠ (saveResult now rnd iso result ls).1) →
  ∃ R,
    getAllResults (saveResult now rnd iso result ls).2 = getAllResults ls ++ [R]
    ∧ review_id R = (saveResult now rnd iso result ls).1
    ∧ comment R = s_comment result
    ∧ (updateComment (saveResult now rnd iso result ls).1 note
         (saveResult now rnd iso result ls).2).1 = true
    ∧ getAllResults
        (updateComment (saveResult now rnd iso result ls).1 note
           (saveResult now rnd iso result ls).2).2
      = getAllResults ls ++ [set_comment R note].
Proof.
  intros Hfresh. unfold saveResult in *. cbn [fst snd] in *.
  eexists. split; [reflexivity|]. split; [reflexivity|]. split; [reflexivity|].
  unfold updateComment. cbn [getAllResults setItem_results review_results try_catch JSON_parse].
  rewrite list_find_app_r by by apply list_find_None_ne.
  cbn. rewrite decide_True by done. cbn.
  split; [done|].
  by rewrite insert_app_r_alt, Nat.sub_diag by done.
Qed.

Lemma saveResult_updateComment_witness :
  ∃ R,
    getAllResults (saveResult "1700000000000" "abcd1234" "2025-01-01T00:00:00.000Z"
                     {| s_questionId := "Q1"; s_questionSet := "food"; s_questionIndex := 0;
                        s_keyword := None; s_category := "food"; s_questionText := "text";
                        s_reviewerName := "bob"; s_answer := "x"; s_correctAnswer := "x";
                        s_isCorrect := true; s_comment := EmptyString |}
                     (setItem_results Sample.empty_storage Sample.bob_reviews)).2
    = getAllResults (setItem_results Sample.empty_storage Sample.bob_reviews) ++ [R]
    ∧ review_id R = "review_1700000000000_abcd1234"
    ∧ comment R = EmptyString
    ∧ (updateComment "review_1700000000000_abcd1234" "a note"
         (saveResult "1700000000000" "abcd1234" "2025-01-01T00:00:00.000Z"
            {| s_questionId := "Q1"; s_questionSet := "food"; s_questionIndex := 0;
               s_keyword := None; s_category := "food"; s_questionText := "text";
               s_reviewerName := "bob"; s_answer := "x"; s_correctAnswer := "x";
               s_isCorrect := true; s_comment := EmptyString |}
            (setItem_results Sample.empty_storage Sample.bob_reviews)).2).1 = true
    ∧ getAllResults
        (updateComment "review_1700000000000_abcd1234" "a note"
           (saveResult "1700000000000" "abcd1234" "2025-01-01T00:00:00.000Z"
              {| s_questionId := "Q1"; s_questionSet := "food"; s_questionIndex := 0;
                 s_keyword := None; s_category := "food"; s_questionText := "text";
                 s_reviewerName := "bob"; s_answer := "x"; s_correctAnswer := "x";
                 s_isCorrect := true; s_comment := EmptyString |}
              (setItem_results Sample.empty_storage Sample.bob_reviews)).2).2
      = getAllResults (setItem_results Sample.empty_storage Sample.bob_reviews)
        ++ [set_comment R "a note"].
Proof.
  apply (saveResult_updateComment "1700000000000" "abcd1234" "2025-01-01T00:00:00.000Z"
           {| s_questionId := "Q1"; s_questionSet := "food"; s_questionIndex := 0;
              s_keyword := None; s_category := "food"; s_questionText := "text";
              s_reviewerName := "bob"; s_answer := "x"; s_correctAnswer := "x";
              s_isCorrect := true; s_comment := EmptyString |}
           "a note" (setItem_results Sample.empty_storage Sample.bob_reviews)).
  intros r Hr. cbn in Hr.
  apply elem_of_cons in Hr as [->|Hr]; [done|].
  apply elem_of_cons in Hr as [->|Hr]; [done|].
  by apply elem_of_nil in Hr.
Defined.

(** X2.  [filterResults] keeps, in their stored order, exactly the records
    that pass every filter that is set; a name filter that is missing or
    the empty string lets every record pass, and the correctness filter
    applies whenever it is given, also when it is [false]. *)
Theorem filterResults_keeps filters ls :
  filterResults filters ls `sublist_of` getAllResults ls
  ∧ ∀ r, r ∈ filterResults filters ls ↔
      r ∈ getAllResults ls
      ∧ (truthy (f_reviewerName filters) = true → reviewer_name r = f_reviewerName filters)
      ∧ (truthy (f_category filters) = true → category r = f_category filters)
      ∧ (truthy (f_questionSet filters) = true → question_set r = f_questionSet filters)
      ∧ (∀ b, f_isCorrect filters = Some b → is_correct r = Some b).
Proof.
  unfold filterResults. split.
  - destruct (truthy (f_reviewerName filters)), (truthy (f_category filters)),
      (truthy (f_questionSet filters)), (f_isCorrect filters);
      repeat (etrans; [apply sublist_filter|]); done.
  - intros r.
    destruct (truthy (f_reviewerName filters)), (truthy (f_category filters)),
      (truthy (f_questionSet filters)), (f_isCorrect filters);
      rewrite ?list_elem_of_filter; naive_solver.
Qed.

(** ** getStatistics *)

Lemma count_by_step_group (key : Review → string) (stats : obj GroupCount) r :
  inherited (key r) = false →
  count_by_step key stats r = Loops.group_step key Loops.count_update stats r.
Proof.
  intros Hk. unfold count_by_step, Loops.group_step, Loops.count_update.
  rewrite (lookup_ordinary stats) by done.
  destruct (obj_get stats (key r)) as [s|] eqn:Hget.
  - by rewrite lookup_ordinary, Hget by done.
  - rewrite lookup_ordinary, obj_get_set_eq by done. cbn [default].
    by rewrite obj_set_set.
Qed.

Lemma count_by_step_inherited (key : Review → string) (stats : obj GroupCount) r :
  inherited (key r) = true → obj_get stats (key r) = None →
  count_by_step key stats r = stats.
Proof.
  intros Hk Hget. unfold count_by_step.
  destruct (lookup_inherited stats _ Hk Hget) as [H|H]; cbv zeta; rewrite H; cbn;
    by rewrite ?H.
Qed.

(** A breakdown is the grouping loop over the records whose key is not
    the name of a member of [Object.prototype]. *)
Lemma count_by_fold (key : Review → string) (l : list Review) :
  foldl (count_by_step key) [] l
  = foldl (Loops.group_step key Loops.count_update) []
      (filter (λ r, inherited (key r) = false) l).
Proof.
  apply guarded_fold.
  - intros stats r. apply count_by_step_group.
  - intros stats r. apply count_by_step_inherited.
Qed.

Lemma count_fold_tally (l : list Review) :
  Loops.fold_value Loops.count_update l = if decide (l = []) then None else Some (Spec.tally l).
Proof.
  induction l as [|r l IH] using rev_ind; [done|].
  rewrite fold_value_snoc, IH.
  rewrite (decide_False (P := l ++ [r] = [])) by by destruct l.
  f_equal. unfold Loops.count_update, Spec.tally.
  rewrite !filter_app, !filter_cons, !filter_nil, !length_app.
  destruct (decide (l = [])) as [->|Hne]; cbn [default];
    destruct (truthy_bool (is_correct r)) eqn:Hc; cbn;
    repeat case_decide; try done; cbn; f_equal; lia.
Qed.

Lemma count_by_lookup (key : Review → string) (results : list Review) (k : string) :
  obj_get (count_by key results) k
  = if inherited k then None else Spec.group_entry key k results.
Proof.
  unfold count_by, Spec.group_entry. rewrite obj_get_fmap, count_by_fold.
  rewrite group_fold_get, count_fold_tally.
  destruct (inherited k) eqn:Hk.
  - rewrite decide_True; [done|].
    apply filter_nil_iff. intros r [Hr _]%list_elem_of_filter Hkey. congruence.
  - assert (filter (λ r, key r = k) (filter (λ r, inherited (key r) = false) results)
            = filter (λ r, key r = k) results) as ->; [|by case_decide].
    rewrite list_filter_filter. apply list_filter_iff. intros r.
    split; [tauto|]. intros <-. done.
Qed.

Lemma getStatistics_lookup ls :
  (∀ k, obj_get (byCategory (getStatistics ls)) k
        = if inherited k then None
          else Spec.group_entry (λ r, prop_key (category r)) k (getAllResults ls))
  ∧ (∀ k, obj_get (byReviewer (getStatistics ls)) k
          = if inherited k then None
            else Spec.group_entry (λ r, prop_key (reviewer_name r)) k (getAllResults ls))
  ∧ (∀ k, obj_get (byQuestionSet (getStatistics ls)) k
          = if inherited k then None
            else Spec.group_entry (λ r, prop_key (question_set r)) k (getAllResults ls)).
Proof.
  unfold getStatistics. case_bool_decide as Hlen.
  - apply length_zero_iff_nil in Hlen. rewrite Hlen. cbn.
    split_and!; intros k; by destruct (inherited k).
  - cbn. split_and!; intros k; apply count_by_lookup.
Qed.

(** X3.  The statistics of the local store: the total is the number of
    stored records and splits into correct and incorrect.  Each of the
    three breakdowns has an entry for a key exactly when some record
    carries the key and the key is not the name of a member of
    [Object.prototype]; the entry holds the numbers of the records
    of the key, of the correct and of the incorrect ones among them, and
    their accuracy to two decimals.  Under the name of a member of
    [Object.prototype] a breakdown has no entry, whatever the records. *)
Theorem getStatistics_counts ls :
  let results := getAllResults ls in
  let stats := getStatistics ls in
  st_total stats = length results
  ∧ st_correct stats = length (filter (λ r, truthy_bool (is_correct r) = true) results)
  ∧ (st_correct stats + st_incorrect stats)%nat = st_total stats
  ∧ (∀ k, obj_get (byCategory stats) k
          = if inherited k then None
            else Spec.group_entry (λ r, prop_key (category r)) k results)
  ∧ (∀ k, obj_get (byReviewer stats) k
          = if inherited k then None
            else Spec.group_entry (λ r, prop_key (reviewer_name r)) k results)
  ∧ (∀ k, obj_get (byQuestionSet stats) k
          = if inherited k then None
            else Spec.group_entry (λ r, prop_key (question_set r)) k results).
Proof.
  intros results stats. subst stats. unfold getStatistics. fold results.
  case_bool_decide as Hlen.
  - apply length_zero_iff_nil in Hlen. rewrite Hlen. cbn.
    split_and!; try done; intros k; by destruct (inherited k).
  - cbn [st_total st_correct st_incorrect byCategory byReviewer byQuestionSet].
    split_and!; try done; try (intros k; apply count_by_lookup).
    pose proof (length_filter_bool (λ r, truthy_bool (is_correct r)) results) as Hsplit.
    cbv beta in Hsplit. lia.
Qed.

Lemma sum_obj_set (π : GroupCount → nat) (o : obj GroupCount) (k : string) (v : GroupCount) :
  (sum_list_with (π ∘ snd) (obj_set o k v) + default 0 (π <$> obj_get o k))%nat
  = (sum_list_with (π ∘ snd) o + π v)%nat.
Proof.
  induction o as [|[k0 v0] o IH]; cbn; [lia|].
  case_decide; cbn; lia.
Qed.

Lemma sum_count_fold (key : Review → string) (π : GroupCount → nat) (δ : Review → nat)
    (l : list Review) :
  (∀ os r, π (Loops.count_update os r) = (default 0 (π <$> os) + δ r)%nat) →
  sum_list_with (π ∘ snd) (foldl (Loops.group_step key Loops.count_update) [] l)
  = sum_list_with δ l.
Proof.
  intros Hstep. induction l as [|r l IH] using rev_ind; [done|].
  rewrite foldl_snoc, sum_list_with_app, <- IH. cbn [sum_list_with].
  unfold Loops.group_step at 1.
  pose proof (sum_obj_set π (foldl (Loops.group_step key Loops.count_update) [] l) (key r)
                (Loops.count_update
                   (obj_get (foldl (Loops.group_step key Loops.count_update) [] l) (key r)) r))
    as Hsum.
  rewrite Hstep in Hsum. lia.
Qed.

Lemma sum_list_with_one {A} (l : list A) : sum_list_with (λ _, 1%nat) l = length l.
Proof. induction l; cbn; lia. Qed.

Lemma sum_list_with_test {A} (f : A → bool) (l : list A) :
  sum_list_with (λ x, if f x then 1%nat else 0%nat) l = length (filter (λ x, f x = true) l).
Proof.
  induction l as [|x l IH]; [done|].
  rewrite filter_cons. cbn [sum_list_with]. rewrite IH.
  destruct (f x); by repeat case_decide.
Qed.

Lemma count_by_sums (key : Review → string) (results : list Review) :
  let counted := filter (λ r, inherited (key r) = false) results in
  sum_list_with (g_total ∘ snd) (count_by key results) = length counted
  ∧ sum_list_with (g_correct ∘ snd) (count_by key results)
    = length (filter (λ r, truthy_bool (is_correct r) = true) counted).
Proof.
  intros counted. unfold count_by. rewrite count_by_fold. fold counted. split.
  - rewrite <- (sum_list_with_one counted).
    rewrite <- (sum_count_fold key gc_total (λ _, 1%nat)).
    + induction (foldl _ _ _) as [|[k v] o IH]; cbn; [done|]. by rewrite IH.
    + intros [s|] r; unfold Loops.count_update; cbn;
        destruct (truthy_bool (is_correct r)); cbn; lia.
  - rewrite <- (sum_list_with_test (λ r, truthy_bool (is_correct r)) counted).
    rewrite <- (sum_count_fold key gc_correct (λ r, if truthy_bool (is_correct r)
                                                    then 1%nat else 0%nat)).
    + induction (foldl _ _ _) as [|[k v] o IH]; cbn; [done|]. by rewrite IH.
    + intros [s|] r; unfold Loops.count_update; cbn;
        destruct (truthy_bool (is_correct r)); cbn; lia.
Qed.

(** X4.  Each of the three breakdowns counts once every stored record
    whose key is not the name of a member of [Object.prototype], and no
    other record: the totals of its entries add up to the number of
    those records and their correct counts to the number of the correct
    ones among them.  They add up to the overall total and the overall
    correct count when no record carries such a key. *)
Theorem getStatistics_breakdowns_add_up ls :
  let results := getAllResults ls in
  let stats := getStatistics ls in
  Forall (λ '(by_key, key),
            let counted := filter (λ r, inherited (key r) = false) results in
            sum_list_with (g_total ∘ snd) by_key = length counted
            ∧ sum_list_with (g_correct ∘ snd) by_key
              = length (filter (λ r, truthy_bool (is_correct r) = true) counted)
            ∧ (Forall (λ r, inherited (key r) = false) results →
               sum_list_with (g_total ∘ snd) by_key = st_total stats
               ∧ sum_list_with (g_correct ∘ snd) by_key = st_correct stats))
    [(byCategory stats, λ r, prop_key (category r));
     (byReviewer stats, λ r, prop_key (reviewer_name r));
     (byQuestionSet stats, λ r, prop_key (question_set r))].
Proof.
  intros results stats.
  assert (∀ key : Review → string,
            let counted := filter (λ r, inherited (key r) = false) results in
            let by_key := if bool_decide (length results = 0%nat) then [] else count_by key results in
            sum_list_with (g_total ∘ snd) by_key = length counted
            ∧ sum_list_with (g_correct ∘ snd) by_key
              = length (filter (λ r, truthy_bool (is_correct r) = true) counted)
            ∧ (Forall (λ r, inherited (key r) = false) results →
               sum_list_with (g_total ∘ snd) by_key = st_total stats
               ∧ sum_list_with (g_correct ∘ snd) by_key = st_correct stats)) as Hkey.
  { intros key counted by_key. subst counted by_key stats. unfold getStatistics.
    fold results. case_bool_decide as Hlen.
    - apply length_zero_iff_nil in Hlen. by rewrite Hlen.
    - cbn [st_total st_correct]. destruct (count_by_sums key results) as [Htotal Hcorrect].
      split_and!; [done..|]. intros Hall. apply (proj2 (filter_all_iff _ _)) in Hall.
      rewrite Htotal, Hcorrect. by rewrite Hall. }
  subst stats. unfold getStatistics in *. fold results in Hkey |- *.
  case_bool_decide as Hlen; cbn [st_total st_correct byCategory byReviewer byQuestionSet] in *.
  - repeat (apply Forall_cons; split; [apply Hkey|]). constructor.
  - repeat (apply Forall_cons; split; [apply Hkey|]). constructor.
Qed.

End results.

(** ** Progress markers *)

Section progress.
Import StorageManager.

Lemma getAllProgress_setItem ls m : getAllProgress (setItem_progress ls m) = m.
Proof. done. Qed.

Lemma saveProgress_local cfg put iso who cat idx ls :
  getAllProgress (saveProgress cfg put iso who cat idx ls).1
  = <[progress_key who cat := {| p_reviewerName := who; p_category := cat;
                                 p_questionIndex := idx; p_timestamp := iso |}]>
      (getAllProgress ls).
Proof. unfold saveProgress. by destruct (api_enabled cfg). Qed.

(** X5.  What [getProgress] reads after [saveProgress] has written a marker
    for the same reviewer and category: the marker of the server when the
    API is enabled and the server delivers one, whatever its index, and
    in every other case the marker just written. *)
Theorem saveProgress_getProgress cfg put iso who cat idx ls cfg' get :
  getProgress cfg' get who cat (saveProgress cfg put iso who cat idx ls).1
  = Some (default {| p_reviewerName := who; p_category := cat;
                     p_questionIndex := idx; p_timestamp := iso |}
            (if api_enabled cfg' then getProgressFromAPI get else None)).
Proof.
  unfold getProgress. rewrite saveProgress_local, lookup_insert_eq.
  by destruct (if api_enabled cfg' then getProgressFromAPI get else None).
Qed.

(** X6.  [clearProgress] removes the local marker of its reviewer and
    category and nothing else; it sends nothing, so [getProgress]
    afterwards still returns the marker of the server, if the API is
    enabled and the server has one. *)
Theorem clearProgress_getProgress cfg get who cat ls :
  getProgress cfg get who cat (clearProgress who cat ls)
  = (if api_enabled cfg then getProgressFromAPI get else None)
  ∧ (∀ k, k ≠ progress_key who cat →
       getAllProgress (clearProgress who cat ls) !! k = getAllProgress ls !! k)
  ∧ review_results (clearProgress who cat ls) = review_results ls.
Proof.
  unfold getProgress, clearProgress. rewrite getAllProgress_setItem.
  split_and!.
  - rewrite lookup_delete_eq.
    by destruct (if api_enabled cfg then getProgressFromAPI get else None).
  - intros k Hk. by rewrite lookup_delete_ne.
  - done.
Qed.

Lemma append_assoc (a b c : string) : (a +:+ b) +:+ c = a +:+ (b +:+ c).
Proof.
  induction a as [|x a IH]; [done|].
  change (String x ((a +:+ b) +:+ c) = String x (a +:+ (b +:+ c))). by f_equal.
Qed.

(** X7.  The key of a marker does not tell where the reviewer name ends: the
    reviewer [a__b] in category [c] and the reviewer [a] in category
    [b__c] share one marker, so that a marker saved for the first is what
    [getProgress] reads locally for the second. *)
Theorem progress_key_shared cfg put iso (a b c : string) idx ls :
  getProgress None Rejected a (b +:+ "__" +:+ c)
    (saveProgress cfg put iso (a +:+ "__" +:+ b) c idx ls).1
  = Some {| p_reviewerName := a +:+ "__" +:+ b; p_category := c;
            p_questionIndex := idx; p_timestamp := iso |}.
Proof.
  unfold getProgress. cbn [api_enabled]. rewrite saveProgress_local.
  replace (progress_key a (b +:+ "__" +:+ c)) with (progress_key (a +:+ "__" +:+ b) c).
  - by rewrite lookup_insert_eq.
  - unfold progress_key. by rewrite !append_assoc.
Qed.

(** ** getMissingQuestions *)

Lemma filter_all {A} (P : A → Prop) `{∀ x, Decision (P x)} (l : list A) :
  (∀ x, x ∈ l → P x) → filter P l = l.
Proof.
  induction l as [|x l IH]; intros HP; [done|].
  rewrite filter_cons_True by (apply HP; here).
  f_equal. apply IH. intros y Hy. apply HP, elem_of_cons. by right.
Qed.

Lemma getMissingQuestions_sorted cfg resp who cat qs :
  StronglySorted Z.lt (getMissingQuestions cfg resp who cat qs)
  ∧ ∀ i, i ∈ getMissingQuestions cfg resp who cat qs → 0 ≤ i < Z.of_nat (length qs).
Proof.
  destruct (getReviewsFromAPI cfg resp) as [l|] eqn:Hl.
  - rewrite (getMissingQuestions_array _ _ _ _ _ _ Hl). split.
    + apply StronglySorted_filter, StronglySorted_seqZ.
    + intros i [_ Hi]%list_elem_of_filter. apply elem_of_seqZ in Hi. lia.
  - unfold getMissingQuestions. rewrite Hl. cbn. split; [constructor|].
    intros i Hi. by apply elem_of_nil in Hi.
Qed.

(** X8.  Whatever the configuration and whatever the list operation meets,
    the indexes [getMissingQuestions] returns are positions of the
    question list, in strictly ascending order and without repetition. *)
Theorem getMissingQuestions_positions cfg resp who cat qs :
  StronglySorted Z.lt (getMissingQuestions cfg resp who cat qs)
  ∧ NoDup (getMissingQuestions cfg resp who cat qs)
  ∧ ∀ i, i ∈ getMissingQuestions cfg resp who cat qs → 0 ≤ i < Z.of_nat (length qs).
Proof.
  destruct (getMissingQuestions_sorted cfg resp who cat qs) as [Hsorted Hrange].
  split_and!; [done| |done].
  destruct (getReviewsFromAPI cfg resp) as [l|] eqn:Hl.
  - rewrite (getMissingQuestions_array _ _ _ _ _ _ Hl). apply NoDup_filter, NoDup_seqZ.
  - unfold getMissingQuestions. rewrite Hl. cbn. constructor.
Qed.

(** X9.  With the API switched off nothing counts as saved on the server:
    every position of the question list is reported missing, whatever
    the local store holds. *)
Theorem getMissingQuestions_api_off cfg resp who cat qs :
  api_enabled cfg = false →
  getMissingQuestions cfg resp who cat qs = seqZ 0 (Z.of_nat (length qs)).
Proof.
  intros Hoff.
  assert (getReviewsFromAPI cfg resp = ReviewArray []) as Hl.
  { unfold getReviewsFromAPI, api_enabled in *. destruct cfg as [c|]; [|done].
    destruct (enableS3Upload c); [|done]. cbn.
    rewrite andb_true_r in Hoff. apply bool_decide_eq_false in Hoff.
    rewrite bool_decide_eq_true_2; [done|].
    destruct (decide (apiEndpoint c = EmptyString)); [done|]. by destruct Hoff. }
  rewrite (getMissingQuestions_array _ _ _ _ _ _ Hl).
  apply filter_all. intros i _. set_solver.
Qed.

Lemma getMissingQuestions_api_off_witness :
  getMissingQuestions None (Sample.served Sample.alice_remote) "alice" "food"
    Sample.four_questions
  = seqZ 0 (Z.of_nat (length Sample.four_questions)).
Proof.
  apply (getMissingQuestions_api_off None (Sample.served Sample.alice_remote) "alice" "food"
           Sample.four_questions).
  reflexivity.
Defined.

End progress.

(** * Further properties of the quiz session (js/app.js) *)

Section retry.
Import StorageManager QuizApp.

Lemma accepted_dec (resp : Fetch (option string)) :
  {Spec.accepted resp} + {¬ Spec.accepted resp}.
Proof.
  destruct resp as [|[] [body|]].
  - right. by intros [? ?].
  - left. by exists body.
  - right. by intros [? ?].
  - right. by intros [? ?].
  - right. by intros [? ?].
Defined.

Lemma api_enabled_cases cfg :
  api_enabled cfg = true ↔
  ∃ c, cfg = Some c ∧ enableS3Upload c = true ∧ apiEndpoint c ≠ EmptyString.
Proof.
  unfold api_enabled. destruct cfg as [c|]; [|split; [done|by intros (? & ? & _)]].
  rewrite andb_true_iff, bool_decide_eq_true. split.
  - intros [? ?]. by exists c.
  - intros (? & [= <-] & ? & ?). done.
Qed.

Lemma saveReviewToAPI_off cfg resp r :
  api_enabled cfg = false → saveReviewToAPI cfg resp r = (false, []).
Proof.
  unfold api_enabled, saveReviewToAPI. destruct cfg as [c|]; [|done].
  destruct (enableS3Upload c); [|done]. rewrite andb_true_r. cbn.
  intros Hoff%bool_decide_eq_false. rewrite bool_decide_eq_true_2; [done|].
  destruct (decide (apiEndpoint c = EmptyString)); [done|]. by destruct Hoff.
Qed.

Lemma saveReviewToAPI_on cfg resp r :
  api_enabled cfg = true →
  saveReviewToAPI cfg resp r = (if accepted_dec resp then true else false, [r]).
Proof.
  intros (c & -> & Hon & Hend)%api_enabled_cases. unfold saveReviewToAPI.
  rewrite Hon. cbn. rewrite bool_decide_eq_false_2 by done.
  by destruct resp as [|[] [body|]].
Qed.

(** Unfolds the three rounds of the retry loop on the outcomes of the
    requests and of the dialogs. *)
Ltac retry_cases cfg posts retries r :=
  unfold saveToServerWithRetry, maxRetries, retry_loop;
  destruct (api_enabled cfg) eqn:Hapi;
  [ rewrite !(saveReviewToAPI_on cfg _ r Hapi);
    destruct (accepted_dec (posts 0%nat)) as [H0|H0];
    destruct (accepted_dec (posts 1%nat)) as [H1|H1];
    destruct (accepted_dec (posts 2%nat)) as [H2|H2]
  | rewrite !(saveReviewToAPI_off cfg _ r Hapi) ];
  destruct (retries 1%nat) eqn:R1; destruct (retries 2%nat) eqn:R2; cbn.

(** X10.  The record counts as saved exactly when the API is enabled and one
    of the first three requests is accepted, every request before it
    having failed with the reviewer agreeing each time to send again. *)
Theorem saveToServerWithRetry_saved_iff cfg posts retries r :
  (saveToServerWithRetry cfg posts retries r).1 = true ↔
  api_enabled cfg = true
  ∧ ∃ n, (n < 3)%nat ∧ Spec.accepted (posts n)
         ∧ ∀ m, (m < n)%nat → ¬ Spec.accepted (posts m) ∧ retries (S m) = true.
Proof.
  retry_cases cfg posts retries r;
    (split;
     [ intros Hsaved; try done; (split; [done|]);
       first [ exists 0%nat; split_and!; [lia|done|intros m Hm; lia]
             | exists 1%nat; split_and!;
               [lia|done|intros m Hm; assert (m = 0%nat) as -> by lia; done]
             | exists 2%nat; split_and!;
               [lia|done|
                intros m Hm; assert (m = 0%nat ∨ m = 1%nat) as [-> | ->] by lia; done] ]
     | intros [Hon (n & Hn & Hacc & Hbefore)]; try done;
       destruct n as [|[|[|n]]]; try lia; try done;
       try (destruct (Hbefore 0%nat) as [? ?]; [lia|]; try done; congruence);
       try (destruct (Hbefore 1%nat) as [? ?]; [lia|]; try done; congruence) ]).
Qed.

Lemma retry_log_kinds cfg posts retries r e :
  e ∈ (saveToServerWithRetry cfg posts retries r).2 →
  e = Posted r ∨ e = AskedRetry 1 ∨ e = AskedRetry 2 ∨ e = AlertedFailure.
Proof.
  retry_cases cfg posts retries r;
    (intros He; repeat (apply elem_of_cons in He as [->|He]; [tauto|]);
     by apply elem_of_nil in He).
Qed.

(** X11.  Whatever the requests meet and whatever the reviewer answers, at
    most three requests are sent, each with the record itself, and at
    most two dialogs are shown; the final alert appears exactly when the
    record is not saved although the reviewer agreed twice to send
    again. *)
Theorem saveToServerWithRetry_bounded cfg posts retries r :
  let saved := (saveToServerWithRetry cfg posts retries r).1 in
  let log := (saveToServerWithRetry cfg posts retries r).2 in
  (∃ n, (n ≤ 3)%nat ∧ omap Spec.posted log = replicate n r)
  ∧ (∀ e, e ∈ log → e = Posted r ∨ e = AskedRetry 1 ∨ e = AskedRetry 2 ∨ e = AlertedFailure)
  ∧ (AlertedFailure ∈ log ↔ saved = false ∧ retries 1%nat = true ∧ retries 2%nat = true).
Proof.
  retry_cases cfg posts retries r;
    (split_and!;
     [ first [ by exists 0%nat; split; [lia|] | by exists 1%nat; split; [lia|]
             | by exists 2%nat; split; [lia|] | by exists 3%nat; split; [lia|] ]
     | intros e He; repeat (apply elem_of_cons in He as [->|He]; [tauto|]);
       by apply elem_of_nil in He
     | split;
       [ intros He; repeat (apply elem_of_cons in He as [He|He]; [done|]);
         try (by apply elem_of_nil in He); done
       | intros (? & ? & ?); try done; repeat (first [here | apply elem_of_cons; right]) ] ]).
Qed.

(** X12.  With the API switched off no request is sent, and yet the reviewer
    is told that saving failed and asked to send again: once, twice if
    the answer is yes, and after a second yes comes the final alert. *)
Theorem saveToServerWithRetry_api_off cfg posts retries r :
  api_enabled cfg = false →
  saveToServerWithRetry cfg posts retries r
  = (false,
     AskedRetry 1
     :: (if retries 1%nat
         then AskedRetry 2 :: (if retries 2%nat then [AlertedFailure] else [])
         else [])).
Proof.
  intros Hoff. unfold saveToServerWithRetry, maxRetries, retry_loop.
  rewrite !(saveReviewToAPI_off cfg _ r Hoff).
  by destruct (retries 1%nat), (retries 2%nat).
Qed.

Lemma saveToServerWithRetry_api_off_witness :
  saveToServerWithRetry None (λ _, Responded true (Some None)) (λ _, true)
    (Sample.mk_review "r1" "Q1" "bob" 0 "x" true)
  = (false, [AskedRetry 1; AskedRetry 2; AlertedFailure]).
Proof.
  apply (saveToServerWithRetry_api_off None (λ _, Responded true (Some None)) (λ _, true)
           (Sample.mk_review "r1" "Q1" "bob" 0 "x" true)).
  reflexivity.
Defined.

End retry.

Section session.
Import StorageManager QuizApp.

(** Showing a question that exists succeeds and resets the answer. *)
Lemma showQuestion_shown (st : State) (i : nat) :
  (i < length (questions st))%nat →
  ∃ st', showQuestion (set_currentIndex i st) = Normal st'
         ∧ questions st' = questions st
         ∧ currentIndex st' = i
         ∧ app_reviewerName st' = app_reviewerName st
         ∧ app_category st' = app_category st
         ∧ currentReviewId st' = None
         ∧ selectedAnswer st' = None
         ∧ resultShown st' = false.
Proof.
  intros Hi. destruct (lookup_lt_is_Some_2 _ _ Hi) as [q Hq].
  unfold showQuestion. cbn [set_currentIndex questions currentIndex]. rewrite Hq.
  eexists. split; [reflexivity|]. by cbn.
Qed.

Lemma start_at_started (s : Session) (st : State) (i : nat) :
  (i < length (questions st))%nat →
  ∃ st', start_at s st i
         = Normal (Started {| app := st'; missingQuestionsMode := false;
                              missingQuestionIndexes := missingQuestionIndexes s;
                              currentMissingIndex := currentMissingIndex s |} [])
         ∧ questions st' = questions st
         ∧ currentIndex st' = i
         ∧ app_reviewerName st' = app_reviewerName st
         ∧ app_category st' = app_category st.
Proof.
  intros Hi. destruct (showQuestion_shown st i Hi) as (st' & Hshow & ? & ? & ? & ? & _).
  exists st'. unfold start_at. rewrite Hshow. by cbn.
Qed.

Lemma start_missing_started (st : State) (missing : list Z) (log : list Effect) i rest :
  missing = i :: rest →
  Forall (λ j, 0 ≤ j < Z.of_nat (length (questions st))) missing →
  ∃ st', start_missing st missing log
         = Normal (Started {| app := st'; missingQuestionsMode := true;
                              missingQuestionIndexes := missing;
                              currentMissingIndex := 0 |} log)
         ∧ questions st' = questions st
         ∧ currentIndex st' = Z.to_nat i
         ∧ app_reviewerName st' = app_reviewerName st
         ∧ app_category st' = app_category st.
Proof.
  intros -> Hall. apply Forall_cons in Hall as [Hi _].
  destruct (showQuestion_shown st (Z.to_nat i)) as (st' & Hshow & ? & ? & ? & ? & _); [lia|].
  exists st'. unfold start_missing. cbn. rewrite Hshow. by cbn.
Qed.

Lemma getMissingQuestions_Forall cfg resp who cat qs :
  Forall (λ j, 0 ≤ j < Z.of_nat (length qs)) (getMissingQuestions cfg resp who cat qs).
Proof.
  apply Forall_forall. intros i Hi.
  destruct (getReviewsFromAPI cfg resp) as [l|] eqn:Hl.
  - rewrite (getMissingQuestions_array _ _ _ _ _ _ Hl) in Hi.
    apply list_elem_of_filter in Hi as [_ Hi]. apply elem_of_seqZ in Hi. lia.
  - unfold getMissingQuestions in Hi. rewrite Hl in Hi. cbn in Hi.
    by apply elem_of_nil in Hi.
Qed.

(** What [loadQuestions] comes to once the quiz file has delivered
    questions of the category. *)
Lemma loadQuestions_loaded cfg l reviews progress confirmed mc rc s ls :
  filter (λ q, q_category q = app_category (app s)) l ≠ [] →
  (∃ log, loadQuestions cfg (Normal (QuestionArray l)) reviews progress confirmed mc rc s ls
          = BackHome log)
  ∨ (∃ s' log,
       loadQuestions cfg (Normal (QuestionArray l)) reviews progress confirmed mc rc s ls
       = Started s' log
       ∧ Spec.in_bounds s'
       ∧ questions (app s') = filter (λ q, q_category q = app_category (app s)) l
       ∧ app_reviewerName (app s') = app_reviewerName (app s)
       ∧ app_category (app s') = app_category (app s)).
Proof.
  intros Hne.
  assert (l ≠ []) as Hl by (intros ->; by destruct Hne).
  unfold loadQuestions. cbn [bind].
  rewrite (bool_decide_eq_false_2 (length l = 0%nat))
    by (intros Hz%length_zero_iff_nil; done).
  set (qs := filter (λ q, q_category q = app_category (app s)) l) in *.
  rewrite (bool_decide_eq_false_2 (length qs = 0%nat))
    by (intros Hz%length_zero_iff_nil; done).
  set (st := set_questions qs (app s)).
  set (missing := getMissingQuestions cfg reviews (app_reviewerName (app s))
                    (app_category (app s)) qs).
  assert (Forall (λ j, 0 ≤ j < Z.of_nat (length (questions st))) missing) as Hmissing
    by apply getMissingQuestions_Forall.
  assert (0 < length (questions st))%nat as Hpos.
  { cbn. destruct qs; [done|cbn; lia]. }
  assert (∀ log, missing ≠ [] →
            ∃ s' , try_catch (start_missing st missing log) (λ m, ShowedError m)
                   = Started s' log
                   ∧ Spec.in_bounds s'
                   ∧ questions (app s') = qs
                   ∧ app_reviewerName (app s') = app_reviewerName (app s)
                   ∧ app_category (app s') = app_category (app s)) as Hstart_missing.
  { intros log Hm. destruct missing as [|i rest] eqn:Hmis; [done|].
    destruct (start_missing_started st (i :: rest) log i rest eq_refl Hmissing)
      as (st' & -> & Hqs & Hcur & Hwho & Hcat).
    eexists. split; [reflexivity|]. cbn.
    split_and!; try done.
    split; cbn.
    - rewrite Hcur, Hqs. apply Forall_cons in Hmissing as [? _]. lia.
    - intros _. split; [lia|]. by rewrite Hqs. }
  assert (∀ i, (i < length (questions st))%nat →
            ∃ s', try_catch (start_at s st i) (λ m, ShowedError m) = Started s' []
                  ∧ Spec.in_bounds s'
                  ∧ questions (app s') = qs
                  ∧ app_reviewerName (app s') = app_reviewerName (app s)
                  ∧ app_category (app s') = app_category (app s)) as Hstart_at.
  { intros i Hi.
    destruct (start_at_started s st i Hi) as (st' & -> & Hqs & Hcur & Hwho & Hcat).
    eexists. split; [reflexivity|]. cbn.
    split_and!; try done.
    split; cbn; [|done]. by rewrite Hcur, Hqs. }
  destruct (missingQuestionsMode s).
  { case_bool_decide as Hlen.
    - left. by eexists.
    - right. destruct (Hstart_missing [AlertedMissing (length missing) (length qs)])
        as (s' & ? & ?); [by intros ->|]. by exists s', [AlertedMissing (length missing) (length qs)]. }
  destruct (getProgress cfg progress _ _ ls) as [p|].
  2:{ right. destruct (Hstart_at 0%nat Hpos) as (s' & ? & ?). by exists s', []. }
  destruct (bool_decide (Z.of_nat (length qs) - 1 ≤ p_questionIndex p) && negb confirmed).
  { case_bool_decide as Hlen.
    - destruct mc.
      + right. destruct (Hstart_missing []) as (s' & ? & ?).
        { intros Hnil. rewrite Hnil in Hlen. cbn in Hlen. lia. }
        by exists s', [].
      + left. by eexists.
    - left. by eexists. }
  case_bool_decide as Hrange.
  2:{ right. destruct (Hstart_at 0%nat Hpos) as (s' & ? & ?). by exists s', []. }
  assert (Z.to_nat (p_questionIndex p) < length (questions st))%nat as Hp by (cbn; lia).
  destruct confirmed.
  { right. destruct (Hstart_at _ Hp) as (s' & ? & ?). by exists s', []. }
  destruct rc.
  - right. destruct (Hstart_at _ Hp) as (s' & ? & ?). by exists s', [].
  - right. destruct (Hstart_at 0%nat Hpos) as (s' & ? & ?). by exists s', [].
  - left. by eexists.
Qed.

(** X13.  A session that [loadQuestions] starts is within bounds: its
    questions are the questions of the category from the quiz file, in
    their order, the question on screen is one of them, and in the mode
    that revisits unsaved questions every index still to visit is a
    position of that list. *)
Theorem loadQuestions_started cfg data reviews progress confirmed mc rc s ls s' log :
  loadQuestions cfg data reviews progress confirmed mc rc s ls = Started s' log →
  ∃ l, data = Normal (QuestionArray l)
       ∧ questions (app s') = filter (λ q, q_category q = app_category (app s)) l
       ∧ Spec.in_bounds s'
       ∧ app_reviewerName (app s') = app_reviewerName (app s)
       ∧ app_category (app s') = app_category (app s).
Proof.
  intros Hstarted. destruct data as [[l|]|m]; [|done..].
  exists l. split; [done|].
  destruct (decide (filter (λ q, q_category q = app_category (app s)) l = [])) as [Hnil|Hne].
  - unfold loadQuestions in Hstarted. cbn [bind] in Hstarted. rewrite Hnil in Hstarted.
    cbn in Hstarted. by case_bool_decide.
  - destruct (loadQuestions_loaded cfg l reviews progress confirmed mc rc s ls Hne)
      as [[log' Hhome]|(s'' & log' & Hs & ? & ? & ? & ?)]; [congruence|].
    rewrite Hs in Hstarted. by injection Hstarted as -> ->.
Qed.

Lemma loadQuestions_started_witness :
  ∃ s' l, Normal (QuestionArray Sample.catalog) = Normal (QuestionArray l)
          ∧ questions (app s') = filter (λ q, q_category q = "food") l
          ∧ Spec.in_bounds s'
          ∧ app_reviewerName (app s') = "bob"
          ∧ app_category (app s') = "food".
Proof.
  eexists.
  apply (loadQuestions_started None (Normal (QuestionArray Sample.catalog)) Rejected
           Rejected false SolveMissing Continue (new_session "bob" "food" false)
           Sample.empty_storage _ []).
  vm_compute. reflexivity.
Defined.

(** X14.  [loadQuestions] shows the error panel in four cases and in no other:
    the quiz file could not be fetched, it does not hold an array, the
    array is empty, or no question of it has the category.  Once
    questions of the category are there, showing the first question
    never fails. *)
Theorem loadQuestions_error cfg data reviews progress confirmed mc rc s ls message :
  loadQuestions cfg data reviews progress confirmed mc rc s ls = ShowedError message ↔
  data = Throw message
  ∨ (data = Normal NotAQuestionArray
     ∧ message = "問題データの形式が不正です（配列である必要があります）")
  ∨ (data = Normal (QuestionArray []) ∧ message = "問題データが空です")
  ∨ (∃ l, data = Normal (QuestionArray l) ∧ l ≠ []
          ∧ filter (λ q, q_category q = app_category (app s)) l = []
          ∧ message = "カテゴリ「" +:+ app_category (app s)
                      +:+ "」の問題が見つかりませんでした").
Proof.
  destruct data as [[l|]|m].
  - destruct (decide (filter (λ q, q_category q = app_category (app s)) l = [])) as [Hnil|Hne].
    + unfold loadQuestions. cbn [bind]. rewrite Hnil. destruct l as [|q l].
      * cbn. split.
        -- intros [= <-]. right. right. by left.
        -- intros [?|[[? _]|[[_ ->]|(l & [= <-] & ? & _)]]]; done.
      * cbn. split.
        -- intros [= <-]. right. right. right. by exists (q :: l).
        -- intros [?|[[? _]|[[? _]|(l' & _ & _ & _ & ->)]]]; done.
    + destruct (loadQuestions_loaded cfg l reviews progress confirmed mc rc s ls Hne)
        as [[log' ->]|(s'' & log' & -> & _)];
        (split; [done|]);
        (intros [?|[[? _]|[[[= ->] _]|(l' & [= <-] & _ & ? & _)]]]; done).
  - cbn. split.
    + intros [= <-]. right. by left.
    + intros [?|[[_ ->]|[[? _]|(l' & ? & _)]]]; done.
  - cbn. split.
    + intros [= <-]. by left.
    + intros [[= ->]|[[? _]|[[? _]|(l' & ? & _)]]]; done.
Qed.

(** X15.  Entered in the mode that revisits unsaved questions, [loadQuestions]
    does not look at the progress marker: with nothing unsaved it goes
    back to the entry page, and otherwise it announces the number of
    unsaved questions and starts at the first, which is the smallest,
    unsaved index. *)
Theorem loadQuestions_missing_mode cfg l reviews progress confirmed mc rc s ls :
  missingQuestionsMode s = true →
  filter (λ q, q_category q = app_category (app s)) l ≠ [] →
  match getMissingQuestions cfg reviews (app_reviewerName (app s)) (app_category (app s))
          (filter (λ q, q_category q = app_category (app s)) l) with
  | [] =>
      loadQuestions cfg (Normal (QuestionArray l)) reviews progress confirmed mc rc s ls
      = BackHome [AlertedAllSaved; WentHome]
  | i :: rest =>
      ∃ st',
        loadQuestions cfg (Normal (QuestionArray l)) reviews progress confirmed mc rc s ls
        = Started {| app := st'; missingQuestionsMode := true;
                     missingQuestionIndexes := i :: rest; currentMissingIndex := 0 |}
            [AlertedMissing (S (length rest))
               (length (filter (λ q, q_category q = app_category (app s)) l))]
        ∧ currentIndex st' = Z.to_nat i
        ∧ Forall (λ j, i < j) rest
  end.
Proof.
  intros Hmode Hne.
  assert (l ≠ []) as Hl by (intros ->; by destruct Hne).
  unfold loadQuestions. cbn [bind]. rewrite Hmode.
  rewrite (bool_decide_eq_false_2 (length l = 0%nat))
    by (intros Hz%length_zero_iff_nil; done).
  set (qs := filter (λ q, q_category q = app_category (app s)) l) in *.
  rewrite (bool_decide_eq_false_2 (length qs = 0%nat))
    by (intros Hz%length_zero_iff_nil; done).
  pose proof (getMissingQuestions_Forall cfg reviews (app_reviewerName (app s))
                (app_category (app s)) qs) as Hall.
  pose proof (proj1 (getMissingQuestions_sorted cfg reviews (app_reviewerName (app s))
                       (app_category (app s)) qs)) as Hsorted.
  destruct (getMissingQuestions _ _ _ _ qs) as [|i rest] eqn:Hmissing; [done|].
  cbn [length]. rewrite bool_decide_eq_false_2 by done.
  destruct (start_missing_started (set_questions qs (app s)) (i :: rest)
              [AlertedMissing (S (length rest)) (length qs)] i rest eq_refl Hall)
    as (st' & -> & _ & Hcur & _).
  exists st'. split; [done|]. split; [done|].
  by apply StronglySorted_inv in Hsorted as [_ ?].
Qed.

Lemma loadQuestions_missing_mode_witness :
  ∃ st',
    loadQuestions (Some Sample.config) (Normal (QuestionArray Sample.four_questions))
      (Sample.served Sample.alice_remote) Rejected false SolveMissing Continue
      (new_session "alice" "food" true) Sample.empty_storage
    = Started {| app := st'; missingQuestionsMode := true;
                 missingQuestionIndexes := [2]; currentMissingIndex := 0 |}
        [AlertedMissing 1 4]
    ∧ currentIndex st' = 2%nat
    ∧ Forall (λ j, 2 < j) [].
Proof.
  apply (loadQuestions_missing_mode (Some Sample.config) Sample.four_questions
           (Sample.served Sample.alice_remote) Rejected false SolveMissing Continue
           (new_session "alice" "food" true) Sample.empty_storage).
  - reflexivity.
  - by vm_compute.
Defined.

(** ** nextQuestion and completeReview *)

Lemma sync_comment_progress w note s ls :
  review_progress (sync_comment w note s ls).1 = review_progress ls.
Proof.
  unfold sync_comment. destruct (truthy (currentReviewId (app s))); [|done].
  unfold updateComment. destruct (list_find _ (getAllResults ls)) as [[i R]|]; cbn.
  - by destruct (list_find _ _) as [[? ?]|].
  - by destruct (list_find _ _) as [[? ?]|].
Qed.

Lemma sync_comment_kinds w note s ls e :
  e ∈ (sync_comment w note s ls).2 →
  (∃ r, e = Posted r) ∨ (∃ n, e = AskedRetry n) ∨ e = AlertedFailure.
Proof.
  unfold sync_comment. destruct (truthy (currentReviewId (app s))).
  2:{ cbn. by intros ?%elem_of_nil. }
  destruct (list_find _ (getAllResults _)) as [[? R]|]; cbn.
  - intros [->|[->|[->| ->]]]%retry_log_kinds; eauto.
  - by intros ?%elem_of_nil.
Qed.

Lemma getAllProgress_progress ls ls' :
  review_progress ls' = review_progress ls → getAllProgress ls' = getAllProgress ls.
Proof. unfold getAllProgress. by intros ->. Qed.

(** X16.  In the mode that revisits unsaved questions, [nextQuestion] leaves
    the progress markers alone, locally and on the server, and moves to
    the next unsaved index, staying where it is on the last one; a
    session within bounds stays within bounds and no step fails. *)
Theorem nextQuestion_missing_mode w note s ls :
  Spec.in_bounds s →
  missingQuestionsMode s = true →
  ∃ s' ls' log,
    nextQuestion w note s ls = Normal (s', ls', log)
    ∧ review_progress ls' = review_progress ls
    ∧ (∀ ev, Stored ev ∉ log)
    ∧ Spec.in_bounds s'
    ∧ missingQuestionsMode s' = true
    ∧ missingQuestionIndexes s' = missingQuestionIndexes s
    ∧ (if decide (S (currentMissingIndex s) < length (missingQuestionIndexes s))%nat
       then currentMissingIndex s' = S (currentMissingIndex s)
            ∧ missingQuestionIndexes s !! S (currentMissingIndex s)
              = Some (Z.of_nat (currentIndex (app s')))
       else s' = s).
Proof.
  intros [Hcur Hmissing] Hmode. destruct (Hmissing Hmode) as [Hplace Hall].
  unfold nextQuestion.
  pose proof (sync_comment_progress w note s ls) as Hprogress.
  pose proof (sync_comment_kinds w note s ls) as Hkinds.
  destruct (sync_comment w note s ls) as [ls0 synced]. cbn [fst snd] in *.
  rewrite Hmode. cbn [negb]. rewrite app_nil_r.
  assert (∀ ev, Stored ev ∉ synced) as Hnone.
  { intros ev [(? & ?)|[(? & ?)| ?]]%Hkinds; done. }
  destruct (decide (S (currentMissingIndex s) < length (missingQuestionIndexes s))%nat)
    as [Hnext|Hnext].
  - rewrite bool_decide_eq_true_2 by done.
    destruct (lookup_lt_is_Some_2 _ _ Hnext) as [i Hi]. rewrite Hi. cbn [from_option bind].
    assert (0 ≤ i < Z.of_nat (length (questions (app s)))) as Hrange
      by by eapply (proj1 (Forall_lookup _ _) Hall).
    destruct (showQuestion_shown (app s) (Z.to_nat i)) as (st' & -> & Hqs & Hidx & _);
      [lia|].
    eexists _, _, _. split; [reflexivity|]. cbn.
    split_and!; try done.
    + split; cbn; [rewrite Hidx, Hqs; lia|]. intros _. by rewrite Hqs.
    + rewrite Hidx. f_equal. lia.
  - rewrite bool_decide_eq_false_2 by done.
    eexists _, _, _. split; [reflexivity|]. by split_and!.
Qed.

Lemma nextQuestion_missing_mode_witness :
  ∃ s' ls' log,
    nextQuestion {| w_config := Some Sample.config; w_posts := λ _, Rejected;
                    w_retries := λ _, false; w_put := Rejected;
                    w_iso := "2025-01-01T00:00:00.000Z" |} "a note"
      {| app := Sample.app_state Sample.four_questions 1; missingQuestionsMode := true;
         missingQuestionIndexes := [1; 3]; currentMissingIndex := 0 |}
      Sample.empty_storage
    = Normal (s', ls', log)
    ∧ review_progress ls' = review_progress Sample.empty_storage
    ∧ (∀ ev, Stored ev ∉ log)
    ∧ Spec.in_bounds s'
    ∧ missingQuestionsMode s' = true
    ∧ missingQuestionIndexes s' = [1; 3]
    ∧ currentMissingIndex s' = 1%nat
    ∧ [1; 3] !! 1%nat = Some (Z.of_nat (currentIndex (app s'))).
Proof.
  destruct (nextQuestion_missing_mode
              {| w_config := Some Sample.config; w_posts := λ _, Rejected;
                 w_retries := λ _, false; w_put := Rejected;
                 w_iso := "2025-01-01T00:00:00.000Z" |} "a note"
              {| app := Sample.app_state Sample.four_questions 1;
                 missingQuestionsMode := true;
                 missingQuestionIndexes := [1; 3]; currentMissingIndex := 0 |}
              Sample.empty_storage)
    as (s' & ls' & log & ? & ? & ? & ? & ? & ? & ? & ?).
  - split; cbn; [lia|]. intros _. split; [lia|]. repeat constructor; lia.
  - reflexivity.
  - by exists s', ls', log.
Defined.

(** X17.  In the ordinary mode [nextQuestion] writes the marker of the
    reviewer and category with the index of the question just left, and
    then shows the question after it, or stays on the last question; a
    session within bounds stays within bounds and no step fails. *)
Theorem nextQuestion_normal_mode w note s ls :
  Spec.in_bounds s →
  missingQuestionsMode s = false →
  ∃ s' ls' log,
    nextQuestion w note s ls = Normal (s', ls', log)
    ∧ getAllProgress ls' !! progress_key (app_reviewerName (app s)) (app_category (app s))
      = Some {| p_reviewerName := app_reviewerName (app s);
                p_category := app_category (app s);
                p_questionIndex := Z.of_nat (currentIndex (app s));
                p_timestamp := w_iso w |}
    ∧ (∀ k, k ≠ progress_key (app_reviewerName (app s)) (app_category (app s)) →
         getAllProgress ls' !! k = getAllProgress ls !! k)
    ∧ Spec.in_bounds s'
    ∧ missingQuestionsMode s' = false
    ∧ questions (app s') = questions (app s)
    ∧ currentIndex (app s')
      = (if decide (S (currentIndex (app s)) < length (questions (app s)))%nat
         then S (currentIndex (app s)) else currentIndex (app s)).
Proof.
  intros [Hcur _] Hmode. unfold nextQuestion.
  pose proof (sync_comment_progress w note s ls) as Hprogress.
  destruct (sync_comment w note s ls) as [ls0 synced]. cbn [fst snd] in *.
  apply getAllProgress_progress in Hprogress.
  rewrite Hmode. cbn [negb].
  pose proof (saveProgress_local (w_config w) (w_put w) (w_iso w) (app_reviewerName (app s))
                (app_category (app s)) (Z.of_nat (currentIndex (app s))) ls0) as Hlocal.
  destruct (saveProgress _ _ _ _ _ _ ls0) as [ls1 saved]. cbn [fst] in Hlocal.
  rewrite Hprogress in Hlocal.
  destruct (decide (S (currentIndex (app s)) < length (questions (app s)))%nat)
    as [Hnext|Hnext].
  - rewrite bool_decide_eq_true_2 by done.
    destruct (showQuestion_shown (app s) (S (currentIndex (app s))) Hnext)
      as (st' & -> & Hqs & Hidx & _).
    eexists _, _, _. split; [reflexivity|]. cbn. rewrite Hlocal.
    split_and!; try done.
    + apply lookup_insert_eq.
    + intros k Hk. by apply lookup_insert_ne.
    + split; cbn; [by rewrite Hidx, Hqs|done].
  - rewrite bool_decide_eq_false_2 by done.
    eexists _, _, _. split; [reflexivity|]. rewrite Hlocal.
    split_and!; try done.
    + apply lookup_insert_eq.
    + intros k Hk. by apply lookup_insert_ne.
    + split; [done|]. by rewrite Hmode.
Qed.

Lemma nextQuestion_normal_mode_witness :
  ∃ s' ls' log,
    nextQuestion {| w_config := None; w_posts := λ _, Rejected;
                    w_retries := λ _, false; w_put := Rejected;
                    w_iso := "2025-01-01T00:00:00.000Z" |} "a note"
      {| app := Sample.app_state Sample.catalog 0; missingQuestionsMode := false;
         missingQuestionIndexes := []; currentMissingIndex := 0 |}
      Sample.empty_storage
    = Normal (s', ls', log)
    ∧ getAllProgress ls' !! progress_key "bob" "food"
      = Some {| p_reviewerName := "bob"; p_category := "food"; p_questionIndex := 0;
                p_timestamp := "2025-01-01T00:00:00.000Z" |}
    ∧ currentIndex (app s') = 1%nat.
Proof.
  destruct (nextQuestion_normal_mode
              {| w_config := None; w_posts := λ _, Rejected;
                 w_retries := λ _, false; w_put := Rejected;
                 w_iso := "2025-01-01T00:00:00.000Z" |} "a note"
              {| app := Sample.app_state Sample.catalog 0; missingQuestionsMode := false;
                 missingQuestionIndexes := []; currentMissingIndex := 0 |}
              Sample.empty_storage)
    as (s' & ls' & log & ? & ? & ? & ? & ? & ? & ?).
  - split; cbn; [lia|done].
  - reflexivity.
  - by exists s', ls', log.
Defined.

(** X18.  A reviewer who leaves a question with [nextQuestion] and later comes
    back and chooses to continue is shown that same question again, not
    the one after it: the marker holds the index of the question that
    was left, and [loadQuestions] starts at the index of the marker. *)
Theorem resume_at_saved_index w note s ls l reviews progress mc :
  api_enabled (w_config w) = false →
  missingQuestionsMode s = false →
  questions (app s) = filter (λ q, q_category q = app_category (app s)) l →
  (S (currentIndex (app s)) < length (questions (app s)))%nat →
  ∃ s1 ls1 log1 s2,
    nextQuestion w note s ls = Normal (s1, ls1, log1)
    ∧ currentIndex (app s1) = S (currentIndex (app s))
    ∧ loadQuestions (w_config w) (Normal (QuestionArray l)) reviews progress false mc
        Continue (new_session (app_reviewerName (app s)) (app_category (app s)) false) ls1
      = Started s2 []
    ∧ currentIndex (app s2) = currentIndex (app s).
Proof.
  intros Hoff Hmode Hqs Hnext. unfold nextQuestion.
  pose proof (sync_comment_progress w note s ls) as Hprogress.
  destruct (sync_comment w note s ls) as [ls0 synced]. cbn [fst snd] in *.
  rewrite Hmode. cbn [negb].
  pose proof (saveProgress_local (w_config w) (w_put w) (w_iso w) (app_reviewerName (app s))
                (app_category (app s)) (Z.of_nat (currentIndex (app s))) ls0) as Hlocal.
  destruct (saveProgress _ _ _ _ _ _ ls0) as [ls1 saved]. cbn [fst] in Hlocal.
  rewrite bool_decide_eq_true_2 by done.
  destruct (showQuestion_shown (app s) (S (currentIndex (app s))) Hnext)
    as (st' & -> & _ & Hidx & _).
  cbn [bind].
  assert (l ≠ []) as Hl.
  { intros ->. rewrite Hqs in Hnext. cbn in Hnext. lia. }
  assert (∃ s2,
            loadQuestions (w_config w) (Normal (QuestionArray l)) reviews progress false mc
              Continue (new_session (app_reviewerName (app s)) (app_category (app s)) false)
              ls1
            = Started s2 []
            ∧ currentIndex (app s2) = currentIndex (app s)) as (s2 & Hload & Hs2).
  { unfold loadQuestions, getProgress. rewrite Hoff, Hlocal, lookup_insert_eq.
    cbn [bind new_session app app_category app_reviewerName missingQuestionsMode
         p_questionIndex negb].
    rewrite <- Hqs.
    rewrite (bool_decide_eq_false_2 (length l = 0%nat))
      by (intros Hz%length_zero_iff_nil; done).
    rewrite (bool_decide_eq_false_2 (length (questions (app s)) = 0%nat)) by lia.
    rewrite (bool_decide_eq_false_2 (_ ≤ _)) by lia.
    cbn [andb]. rewrite bool_decide_eq_true_2 by lia.
    rewrite Nat2Z.id.
    destruct (start_at_started
                (new_session (app_reviewerName (app s)) (app_category (app s)) false)
                (set_questions (questions (app s))
                   (app (new_session (app_reviewerName (app s)) (app_category (app s))
                           false)))
                (currentIndex (app s))) as (st2 & Hstart & _ & Hidx2 & _); [cbn; lia|].
    cbn [new_session app] in Hstart. rewrite Hstart.
    eexists. split; [reflexivity|]. done. }
  eexists _, ls1, _, s2. split; [reflexivity|]. cbn. by split_and!.
Qed.

Lemma resume_at_saved_index_witness :
  ∃ s1 ls1 log1 s2,
    nextQuestion {| w_config := None; w_posts := λ _, Rejected;
                    w_retries := λ _, false; w_put := Rejected;
                    w_iso := "2025-01-01T00:00:00.000Z" |} "a note"
      {| app := Sample.app_state Sample.catalog 0; missingQuestionsMode := false;
         missingQuestionIndexes := []; currentMissingIndex := 0 |}
      Sample.empty_storage
    = Normal (s1, ls1, log1)
    ∧ currentIndex (app s1) = 1%nat
    ∧ loadQuestions None (Normal (QuestionArray Sample.catalog)) Rejected Rejected false
        SolveMissing Continue (new_session "bob" "food" false) ls1
      = Started s2 []
    ∧ currentIndex (app s2) = 0%nat.
Proof.
  apply (resume_at_saved_index
           {| w_config := None; w_posts := λ _, Rejected;
              w_retries := λ _, false; w_put := Rejected;
              w_iso := "2025-01-01T00:00:00.000Z" |} "a note"
           {| app := Sample.app_state Sample.catalog 0; missingQuestionsMode := false;
              missingQuestionIndexes := []; currentMissingIndex := 0 |}
           Sample.empty_storage Sample.catalog Rejected Rejected SolveMissing).
  - reflexivity.
  - reflexivity.
  - reflexivity.
  - cbn. lia.
Defined.

(** ** Comments on their way to the server *)

Lemma list_find_insert_same {A} (P : A → Prop) `{∀ x, Decision (P x)} (l : list A)
    (i : nat) (x y : A) :
  list_find P l = Some (i, x) → P y → list_find P (<[i:=y]> l) = Some (i, y).
Proof.
  intros (Hi & Hx & Hbefore)%list_find_Some Hy.
  apply list_find_Some. split_and!.
  - apply list_lookup_insert_eq. by eapply lookup_lt_Some.
  - done.
  - intros j z Hj Hlt. rewrite list_lookup_insert_ne in Hj by lia. by eapply Hbefore.
Qed.

Lemma truthy_nonempty (v : string) : v ≠ EmptyString → truthy (Some v) = true.
Proof. by destruct v. Qed.

(** What the first block of [nextQuestion] and [completeReview] does
    when the id of the answer on screen is the id of a stored record. *)
Lemma sync_comment_found w note s ls reviewId index R :
  currentReviewId (app s) = Some reviewId →
  reviewId ≠ EmptyString →
  list_find (λ r, review_id r = reviewId) (getAllResults ls) = Some (index, R) →
  sync_comment w note s ls
  = (setItem_results ls (<[index := set_comment R note]> (getAllResults ls)),
     (saveToServerWithRetry (w_config w) (w_posts w) (w_retries w)
        (set_comment R note)).2).
Proof.
  intros Hid Hne Hfind. unfold sync_comment, updateComment.
  rewrite Hid, truthy_nonempty by done. cbn [default from_option]. unfold id.
  rewrite Hfind.
  cbn [snd getAllResults setItem_results review_results try_catch JSON_parse].
  rewrite (list_find_insert_same _ _ _ _ (set_comment R note) Hfind); [done|].
  by apply list_find_Some in Hfind as (_ & ? & _).
Qed.

Lemma retry_log_head cfg posts retries r :
  api_enabled cfg = true →
  ∃ rest, (saveToServerWithRetry cfg posts retries r).2 = Posted r :: rest.
Proof.
  intros Hon. unfold saveToServerWithRetry, maxRetries, retry_loop.
  rewrite !(saveReviewToAPI_on cfg _ r Hon).
  destruct (accepted_dec (posts 0%nat)); [by eexists|].
  cbn. destruct (retries 1%nat); [|by eexists].
  destruct (accepted_dec (posts 1%nat)); [by eexists|].
  cbn. destruct (retries 2%nat); [|by eexists].
  destruct (accepted_dec (posts 2%nat)); by eexists.
Qed.

(** A session within bounds gets through [nextQuestion]: the effects of
    the first block come first, and the stored results are those the
    first block leaves. *)
Lemma nextQuestion_returns w note s ls :
  Spec.in_bounds s →
  ∃ s' ls' rest,
    nextQuestion w note s ls = Normal (s', ls', (sync_comment w note s ls).2 ++ rest)
    ∧ review_results ls' = review_results (sync_comment w note s ls).1.
Proof.
  intros [Hcur Hmissing]. unfold nextQuestion.
  destruct (sync_comment w note s ls) as [ls0 synced]. cbn [fst snd].
  destruct (missingQuestionsMode s) eqn:Hmode; cbn [negb].
  - destruct (Hmissing eq_refl) as [Hplace Hall].
    case_bool_decide as Hnext; [|by eexists _, _, _].
    destruct (lookup_lt_is_Some_2 _ _ Hnext) as [i Hi]. rewrite Hi. cbn [from_option bind].
    assert (0 ≤ i < Z.of_nat (length (questions (app s)))) as Hrange
      by by eapply (proj1 (Forall_lookup _ _) Hall).
    destruct (showQuestion_shown (app s) (Z.to_nat i)) as (st' & -> & _); [lia|].
    by eexists _, _, _.
  - assert (review_results
              (saveProgress (w_config w) (w_put w) (w_iso w) (app_reviewerName (app s))
                 (app_category (app s)) (Z.of_nat (currentIndex (app s))) ls0).1
            = review_results ls0) as Hresults
      by (unfold saveProgress; by destruct (api_enabled _)).
    destruct (saveProgress _ _ _ _ _ _ ls0) as [ls1 saved]. cbn [fst] in Hresults.
    case_bool_decide as Hnext; [|by eexists _, _, _].
    destruct (showQuestion_shown (app s) (S (currentIndex (app s))) Hnext)
      as (st' & -> & _).
    by eexists _, _, _.
Qed.

(** What [answer_current] leaves behind: the record at the end of the
    store, and a state that holds its id with the result on show. *)
Lemma answer_current_saved now rnd iso clicks index st ls q :
  questions st !! currentIndex st = Some q →
  (index < length (choice q))%nat →
  ∃ st' R,
    answer_current now rnd iso clicks index st ls
    = Normal (st', setItem_results ls (getAllResults ls ++ [R]))
    ∧ review_id R = "review_" +:+ now +:+ "_" +:+ rnd
    ∧ comment R = EmptyString
    ∧ currentReviewId st' = Some (review_id R)
    ∧ questions st' = questions st
    ∧ currentIndex st' = currentIndex st
    ∧ selectedAnswer st' = Some index
    ∧ resultShown st' = true.
Proof.
  intros Hq Hindex.
  destruct (lookup_lt_is_Some_2 (choice q) index Hindex) as [selectedText Hsel].
  assert (choice q ≠ []) as Hne by (intros Hnil; by rewrite Hnil in Hsel).
  unfold answer_current, showQuestion. rewrite Hq. cbn [bind].
  set (st0 := {| questions := _ |}).
  destruct (renderChoices_index_in_range (choice q) (q_answer q) st0 Hne)
    as (correctIndex & correctText & Hci & Hct).
  set (st1 := renderChoices (choice q) (q_answer q) st0) in *.
  destruct (clicks_before_submit st1 clicks eq_refl)
    as (Hhidden & Hqs & Hcur & Hcorrect & Hbuttons & Hname & Hcat).
  set (st2 := foldl (λ st i, selectAnswer i st) st1 clicks) in *.
  unfold submitAnswer, selectAnswer.
  rewrite Hhidden, andb_false_r. cbn.
  rewrite Hcorrect, Hci, Hbuttons, Hqs, Hcur. cbn. rewrite Hsel, Hct, Hq. cbn.
  eexists _, _. split; [reflexivity|]. by cbn.
Qed.

(** X19.  From the answer to the server.  An answer is stored locally with an
    empty comment and nothing is sent; with the API enabled, the
    [nextQuestion] that follows writes the comment into the stored
    record and the first thing it sends is that record with the
    comment.  The id is taken to be new to the store. *)
Theorem answer_then_next w now rnd iso clicks index note s ls q :
  api_enabled (w_config w) = true →
  Spec.in_bounds s →
  questions (app s) !! currentIndex (app s) = Some q →
  (index < length (choice q))%nat →
  (∀ r, r ∈ getAllResults ls → review_id r ≠ "review_" +:+ now +:+ "_" +:+ rnd) →
  ∃ st1 ls1 R s2 ls2 rest,
    answer_current now rnd iso clicks index (app s) ls = Normal (st1, ls1)
    ∧ getAllResults ls1 = getAllResults ls ++ [R]
    ∧ comment R = EmptyString
    ∧ nextQuestion w note
        {| app := st1; missingQuestionsMode := missingQuestionsMode s;
           missingQuestionIndexes := missingQuestionIndexes s;
           currentMissingIndex := currentMissingIndex s |} ls1
      = Normal (s2, ls2, Posted (set_comment R note) :: rest)
    ∧ getAllResults ls2 = getAllResults ls ++ [set_comment R note].
Proof.
  intros Hon Hbounds Hq Hindex Hfresh.
  destruct (answer_current_saved now rnd iso clicks index (app s) ls q Hq Hindex)
    as (st1 & R & Hanswer & HidR & Hcomment & Hid & Hqs & Hcur & _).
  set (s1 := {| app := st1; missingQuestionsMode := missingQuestionsMode s;
                missingQuestionIndexes := missingQuestionIndexes s;
                currentMissingIndex := currentMissingIndex s |}).
  set (ls1 := setItem_results ls (getAllResults ls ++ [R])) in *.
  assert (Spec.in_bounds s1) as Hbounds1.
  { destruct Hbounds as [? Hmissing]. split; cbn; [by rewrite Hqs, Hcur|].
    rewrite Hqs. apply Hmissing. }
  assert (list_find (λ r, review_id r = review_id R) (getAllResults ls1)
          = Some (length (getAllResults ls), R)) as Hfind.
  { cbn. rewrite list_find_app_r by (apply list_find_None_ne; by rewrite HidR).
    cbn. by rewrite decide_True. }
  assert (review_id R ≠ EmptyString) as Hne by by rewrite HidR.
  pose proof (sync_comment_found w note s1 ls1 (review_id R) _ R Hid Hne Hfind) as Hsync.
  destruct (nextQuestion_returns w note s1 ls1 Hbounds1) as (s2 & ls2 & rest & Hnext & Hresults).
  rewrite Hsync in Hnext, Hresults. cbn [fst snd] in Hnext, Hresults.
  destruct (retry_log_head (w_config w) (w_posts w) (w_retries w) (set_comment R note) Hon)
    as [rest' Hhead].
  rewrite Hhead in Hnext.
  exists st1, ls1, R, s2, ls2, (rest' ++ rest).
  split_and!; try done.
  unfold getAllResults at 1. rewrite Hresults. cbn.
  by rewrite insert_app_r_alt, Nat.sub_diag by done.
Qed.

Lemma answer_then_next_witness :
  ∃ st1 ls1 R s2 ls2 rest,
    answer_current "1700000000000" "abcd1234" "2025-01-01T00:00:00.000Z" [] 0
      (Sample.app_state Sample.catalog 0) Sample.empty_storage
    = Normal (st1, ls1)
    ∧ getAllResults ls1 = getAllResults Sample.empty_storage ++ [R]
    ∧ comment R = EmptyString
    ∧ nextQuestion {| w_config := Some Sample.config; w_posts := λ _, Rejected;
                      w_retries := λ _, false; w_put := Rejected;
                      w_iso := "2025-01-01T00:00:00.000Z" |} "a note"
        {| app := st1; missingQuestionsMode := false;
           missingQuestionIndexes := []; currentMissingIndex := 0 |} ls1
      = Normal (s2, ls2, Posted (set_comment R "a note") :: rest)
    ∧ getAllResults ls2 = getAllResults Sample.empty_storage ++ [set_comment R "a note"].
Proof.
  apply (answer_then_next
           {| w_config := Some Sample.config; w_posts := λ _, Rejected;
              w_retries := λ _, false; w_put := Rejected;
              w_iso := "2025-01-01T00:00:00.000Z" |}
           "1700000000000" "abcd1234" "2025-01-01T00:00:00.000Z" [] 0%nat "a note"
           {| app := Sample.app_state Sample.catalog 0; missingQuestionsMode := false;
              missingQuestionIndexes := []; currentMissingIndex := 0 |}
           Sample.empty_storage Sample.Q1).
  - reflexivity.
  - split; cbn; [lia|done].
  - reflexivity.
  - cbn. lia.
  - intros r Hr. by apply elem_of_nil in Hr.
Defined.

(** ** completeReview *)

Lemma sync_comment_results {B} (f : Review → B) w note s ls :
  (∀ r c, f (set_comment r c) = f r) →
  f <$> getAllResults (sync_comment w note s ls).1 = f <$> getAllResults ls.
Proof.
  intros Hf. unfold sync_comment. destruct (truthy (currentReviewId (app s))); [|done].
  unfold updateComment.
  destruct (list_find _ (getAllResults ls)) as [[i R]|] eqn:Hfind; cbn [snd].
  - assert (f <$> <[i:=set_comment R note]> (getAllResults ls) = f <$> getAllResults ls)
      as Hsame.
    { rewrite list_fmap_insert, Hf. apply list_insert_id.
      apply list_find_Some in Hfind as (Hi & _). by rewrite list_lookup_fmap, Hi. }
    destruct (list_find _ (getAllResults (setItem_results _ _))) as [[? ?]|]; exact Hsame.
  - by destruct (list_find _ _) as [[? ?]|].
Qed.

Lemma length_filter_fmap {A B} (g : A → B) (P : B → Prop) `{∀ y, Decision (P y)}
    (l : list A) :
  length (filter (λ x, P (g x)) l) = length (filter P (g <$> l)).
Proof.
  induction l as [|x l IH]; [done|].
  cbn [fmap list_fmap]. rewrite !filter_cons. case_decide; cbn; by rewrite IH.
Qed.

(** The entry of a group depends on the records only through their keys
    and their correctness. *)
Lemma group_entry_ext (key : Review → string) (k : string) (l l' : list Review) :
  (λ r, (key r, truthy_bool (is_correct r))) <$> l
  = (λ r, (key r, truthy_bool (is_correct r))) <$> l' →
  Spec.group_entry key k l = Spec.group_entry key k l'.
Proof.
  intros Hsame. unfold Spec.group_entry, Spec.tally.
  set (h := λ r : Review, (key r, truthy_bool (is_correct r))) in *.
  assert (∀ (P : string * bool → Prop) `{∀ y, Decision (P y)},
            length (filter (λ r, P (h r)) l) = length (filter (λ r, P (h r)) l')) as Hlen.
  { intros P ?. by rewrite !(length_filter_fmap h P), Hsame. }
  pose proof (Hlen (λ p, p.1 = k) _) as H0.
  rewrite !list_filter_filter.
  pose proof (Hlen (λ p, p.2 = true ∧ p.1 = k) _) as H1.
  pose proof (Hlen (λ p, p.2 = false ∧ p.1 = k) _) as H2.
  cbn in H0, H1, H2. rewrite H0, H1, H2.
  destruct (decide (filter (λ r, key r = k) l = [])) as [Hnil|Hnil],
    (decide (filter (λ r, key r = k) l' = [])) as [Hnil'|Hnil']; try done.
  - rewrite Hnil in H0. by destruct (filter (λ r, key r = k) l').
  - rewrite Hnil' in H0. by destruct (filter (λ r, key r = k) l).
Qed.

Lemma bind_fmap_eq {A B} (f : A → list B) (l l' : list A) :
  f <$> l = f <$> l' → l ≫= f = l' ≫= f.
Proof.
  revert l'. induction l as [|x l IH]; intros [|x' l'] Heq; try done.
  injection Heq as Hx Hl. cbn. by rewrite Hx, (IH l' Hl).
Qed.

(** What [getStatistics] leaves on [Object.prototype] depends on the
    records only through their keys and their correctness. *)
Lemma getStatistics_prototype_sync w note s ls :
  getStatistics_prototype
    (clearProgress (app_reviewerName (app s)) (app_category (app s))
       (sync_comment w note s ls).1)
  = getStatistics_prototype ls.
Proof.
  unfold getStatistics_prototype.
  replace (getAllResults (clearProgress (app_reviewerName (app s)) (app_category (app s))
                            (sync_comment w note s ls).1))
    with (getAllResults (sync_comment w note s ls).1) by done.
  f_equal; [|f_equal]; apply bind_fmap_eq, sync_comment_results; done.
Qed.

(** X20.  In the ordinary mode [completeReview] removes the local marker of
    the reviewer and category and reports the score kept under the name
    of the reviewer, which counts every stored record under that name,
    whatever its category or session.  A reviewer whose name is the name
    of a member of [Object.prototype] has no entry: the lookup finds the
    member, and the message shows no score.  For any other reviewer
    without a stored record the lookup of the score fails with a
    TypeError, unless the name is one under which the statistics have
    left a NaN on [Object.prototype], which the message then shows in
    place of a score. *)
Theorem completeReview_normal_mode w note s ls :
  missingQuestionsMode s = false →
  let name := app_reviewerName (app s) in
  let cleared (ls' : LocalStorage) :=
    getAllProgress ls' !! progress_key name (app_category (app s)) = None
    ∧ (∀ k, k ≠ progress_key name (app_category (app s)) →
         getAllProgress ls' !! k = getAllProgress ls !! k) in
  match (if inherited name then None
         else Spec.group_entry (λ r, prop_key (reviewer_name r)) name (getAllResults ls)) with
  | Some g =>
      ∃ ls',
        completeReview w note s ls
        = Normal (ls', (sync_comment w note s ls).2
                       ++ [AlertedScore (g_correct g) (g_total g) (g_accuracy g); WentHome])
        ∧ cleared ls'
  | None =>
      if inherited name || bool_decide (name ∈ getStatistics_prototype ls)
      then ∃ ls',
             completeReview w note s ls
             = Normal (ls', (sync_comment w note s ls).2 ++ [AlertedNoScore; WentHome])
             ∧ cleared ls'
      else completeReview w note s ls = Throw "TypeError: reviewerStats is undefined"
  end.
Proof.
  intros Hmode name cleared. unfold completeReview.
  pose proof (sync_comment_progress w note s ls) as Hprogress.
  pose proof (sync_comment_results
                (λ r, (prop_key (reviewer_name r), truthy_bool (is_correct r)))
                w note s ls (λ _ _, eq_refl)) as Hresults.
  pose proof (getStatistics_prototype_sync w note s ls) as Hprototype.
  destruct (sync_comment w note s ls) as [ls0 synced]. cbn [fst snd] in *.
  apply getAllProgress_progress in Hprogress.
  rewrite Hmode, Hprototype. fold name.
  set (ls1 := clearProgress name (app_category (app s)) ls0).
  assert (cleared ls1) as Hcleared.
  { subst cleared ls1. cbv beta. unfold clearProgress.
    rewrite getAllProgress_setItem, Hprogress. split.
    - apply lookup_delete_eq.
    - intros k Hk. by apply lookup_delete_ne. }
  rewrite <- (group_entry_ext _ _ _ _ Hresults).
  destruct (getStatistics_lookup ls1) as (_ & Hby & _). specialize (Hby name).
  replace (getAllResults ls1) with (getAllResults ls0) in Hby by done.
  destruct (inherited name) eqn:Hname.
  - cbn [orb].
    destruct (lookup_inherited (byReviewer (getStatistics ls1)) name Hname Hby)
      as [Hlookup|Hlookup]; rewrite Hlookup; by exists ls1.
  - rewrite lookup_ordinary, Hby by done. cbn [orb].
    destruct (Spec.group_entry _ _ (getAllResults ls0)) as [g|]; [by exists ls1|].
    case_bool_decide; [by exists ls1|done].
Qed.

Lemma completeReview_normal_mode_witness :
  ∃ ls',
    completeReview {| w_config := None; w_posts := λ _, Rejected;
                      w_retries := λ _, false; w_put := Rejected;
                      w_iso := "2025-01-01T00:00:00.000Z" |} "a note"
      {| app := Sample.app_state Sample.catalog 1; missingQuestionsMode := false;
         missingQuestionIndexes := []; currentMissingIndex := 0 |}
      (setItem_results Sample.empty_storage Sample.bob_reviews)
    = Normal (ls', [AlertedScore 1 2 5000; WentHome])
    ∧ getAllProgress ls' !! progress_key "bob" "food" = None
    ∧ (∀ k, k ≠ progress_key "bob" "food" →
         getAllProgress ls' !! k
         = getAllProgress (setItem_results Sample.empty_storage Sample.bob_reviews) !! k).
Proof.
  apply (completeReview_normal_mode
           {| w_config := None; w_posts := λ _, Rejected;
              w_retries := λ _, false; w_put := Rejected;
              w_iso := "2025-01-01T00:00:00.000Z" |} "a note"
           {| app := Sample.app_state Sample.catalog 1; missingQuestionsMode := false;
              missingQuestionIndexes := []; currentMissingIndex := 0 |}
           (setItem_results Sample.empty_storage Sample.bob_reviews)).
  reflexivity.
Defined.

(** A reviewer who signs as [constructor] and has answered a question is
    shown a message without a score. *)
Example completeReview_inherited_name :
  ∃ ls',
    completeReview {| w_config := None; w_posts := λ _, Rejected;
                      w_retries := λ _, false; w_put := Rejected;
                      w_iso := "2025-01-01T00:00:00.000Z" |} "a note"
      {| app := {| QuizApp.questions := Sample.catalog; QuizApp.currentIndex := 1;
                   QuizApp.selectedAnswer := None; QuizApp.correctAnswerIndex := None;
                   QuizApp.app_reviewerName := "constructor";
                   QuizApp.app_category := "food";
                   QuizApp.currentReviewId := None; QuizApp.choiceButtons := [];
                   QuizApp.resultShown := false |};
         missingQuestionsMode := false;
         missingQuestionIndexes := []; currentMissingIndex := 0 |}
      (setItem_results Sample.empty_storage Sample.constructor_reviews)
    = Normal (ls', [AlertedNoScore; WentHome]).
Proof. eexists. by vm_compute. Qed.

(** X21.  In the mode that revisits unsaved questions [completeReview] leaves
    the progress markers as they are, and its closing message counts the
    whole list of unsaved indexes as saved, whatever became of the
    requests. *)
Theorem completeReview_missing_mode w note s ls :
  missingQuestionsMode s = true →
  ∃ ls',
    completeReview w note s ls
    = Normal (ls', (sync_comment w note s ls).2
                   ++ [AlertedBackfilled (length (missingQuestionIndexes s)); WentHome])
    ∧ review_progress ls' = review_progress ls.
Proof.
  intros Hmode. unfold completeReview.
  pose proof (sync_comment_progress w note s ls) as Hprogress.
  destruct (sync_comment w note s ls) as [ls0 synced]. cbn [fst snd] in *.
  rewrite Hmode. by exists ls0.
Qed.

Lemma completeReview_missing_mode_witness :
  ∃ ls',
    completeReview {| w_config := Some Sample.config; w_posts := λ _, Rejected;
                      w_retries := λ _, false; w_put := Rejected;
                      w_iso := "2025-01-01T00:00:00.000Z" |} "a note"
      {| app := Sample.app_state Sample.four_questions 3; missingQuestionsMode := true;
         missingQuestionIndexes := [1; 3]; currentMissingIndex := 1 |}
      Sample.empty_storage
    = Normal (ls', [AlertedBackfilled 2; WentHome])
    ∧ review_progress ls' = review_progress Sample.empty_storage.
Proof.
  apply (completeReview_missing_mode
           {| w_config := Some Sample.config; w_posts := λ _, Rejected;
              w_retries := λ _, false; w_put := Rejected;
              w_iso := "2025-01-01T00:00:00.000Z" |} "a note"
           {| app := Sample.app_state Sample.four_questions 3; missingQuestionsMode := true;
              missingQuestionIndexes := [1; 3]; currentMissingIndex := 1 |}
           Sample.empty_storage).
  reflexivity.
Defined.

End session.

(** * Further properties of the analysis (js/analytics.js) *)

Section analysis.
Import Analytics.

(** The [Map] of the catalog holds, under an id, the last question of
    the catalog that carries the id. *)
Lemma questionMap_lookup (questions : list Question) (id : string) :
  questionMap questions !! id = last (filter (λ q, questionID q = id) questions).
Proof.
  unfold questionMap. induction questions as [|q questions IH] using rev_ind; [done|].
  rewrite foldl_snoc, filter_app, filter_cons, filter_nil.
  destruct (decide (questionID q = id)) as [<-|Hne].
  - by rewrite lookup_insert_eq, last_snoc.
  - by rewrite lookup_insert_ne, app_nil_r.
Qed.

(** X22.  The records that [analyzeData] analyses are those of the selected
    reviewers whose question id is the id of a question of the catalog,
    in the order of the reviews; each is joined with the last question of
    the catalog that carries its id. *)
Theorem enrichedReviews_resolved questions reviews (selected : gset string) :
  review <$> enrichedReviews questions reviews selected `sublist_of` reviews
  ∧ (∀ r, r ∈ review <$> enrichedReviews questions reviews selected ↔
          r ∈ reviews ∧ reviewer_of r ∈ selected
          ∧ ∃ q, q ∈ questions ∧ question_id_of r = Some (questionID q))
  ∧ (∀ e, e ∈ enrichedReviews questions reviews selected →
          ∃ q, question e = Some q
               ∧ question_id_of (review e) = Some (questionID q)
               ∧ last (filter (λ q', questionID q' = questionID q) questions) = Some q).
Proof.
  assert (∀ r, is_Some (map_get (questionMap questions) (question_id_of r)) ↔
               ∃ q, q ∈ questions ∧ question_id_of r = Some (questionID q)) as Hknown.
  { intros r. unfold map_get. destruct (question_id_of r) as [id|]; cbn.
    - rewrite questionMap_lookup. split.
      + intros [q Hq]. exists q. apply last_Some in Hq as [l' Hq].
        assert (q ∈ filter (λ q, questionID q = id) questions) as Hin
          by (rewrite Hq; set_solver).
        apply list_elem_of_filter in Hin as [<- ?]. done.
      + intros (q & Hin & [= ->]).
        destruct (last _) eqn:Hlast; [done|]. apply last_None in Hlast.
        assert (q ∈ filter (λ q', questionID q' = questionID q) questions) as Hq
          by by apply list_elem_of_filter.
        rewrite Hlast in Hq. by apply elem_of_nil in Hq.
    - split; [by intros [? ?]|by intros (? & _ & ?)]. }
  unfold enrichedReviews. rewrite <- list_fmap_compose.
  change (review ∘ _) with (@id Review). rewrite list_fmap_id.
  split_and!.
  - etrans; apply sublist_filter.
  - intros r. rewrite !list_elem_of_filter, Hknown. tauto.
  - intros e (r & -> & Hr)%list_elem_of_fmap. cbn.
    apply list_elem_of_filter in Hr as [_ Hr]. apply list_elem_of_filter in Hr as [[q Hq] _].
    exists q. split; [done|].
    unfold map_get in Hq. destruct (question_id_of r) as [id|]; [|done]. cbn in Hq.
    rewrite questionMap_lookup in Hq.
    assert (questionID q = id) as <-.
    { apply last_Some in Hq as [l' Hq].
      assert (q ∈ filter (λ q, questionID q = id) questions) as Hin
        by (rewrite Hq; set_solver).
      by apply list_elem_of_filter in Hin as [? _]. }
    done.
Qed.

(** ** The reviewer filter *)

Lemma Set_add_fold (reviews : list Review) :
  foldl (λ set r, Set_add set (reviewer_of r)) [] reviews
  = Spec.first_occurrences (reviewer_of <$> reviews).
Proof.
  induction reviews as [|r reviews IH] using rev_ind; [done|].
  rewrite foldl_snoc, fmap_app, IH. cbn [fmap list_fmap].
  rewrite first_occurrences_snoc. unfold Set_add.
  destruct (decide (reviewer_of r ∈ reviewer_of <$> reviews)) as [Hin|Hin].
  - by rewrite decide_True by by apply elem_of_first_occurrences.
  - by rewrite decide_False by by rewrite elem_of_first_occurrences.
Qed.

Lemma elem_of_allReviewers (reviews : list Review) (x : string) :
  x ∈ allReviewers (initializeReviewerFilter reviews) ↔ ∃ r, r ∈ reviews ∧ reviewer_of r = x.
Proof.
  unfold initializeReviewerFilter, sort_strings. cbn [allReviewers].
  rewrite sort_by_Permutation, Set_add_fold, elem_of_first_occurrences, list_elem_of_fmap.
  naive_solver.
Qed.

(** X23.  On the first view nobody is filtered out: [initializeReviewerFilter]
    lists every reviewer name of the reviews once and selects them all,
    so that [analyzeData] analyses every review whose question is in the
    catalog. *)
Theorem initializeReviewerFilter_selects_all questions reviews :
  NoDup (allReviewers (initializeReviewerFilter reviews))
  ∧ (∀ x, x ∈ allReviewers (initializeReviewerFilter reviews)
          ↔ ∃ r, r ∈ reviews ∧ reviewer_of r = x)
  ∧ (∀ x, x ∈ selectedReviewers (initializeReviewerFilter reviews)
          ↔ x ∈ allReviewers (initializeReviewerFilter reviews))
  ∧ review <$> enrichedReviews questions reviews
                 (selectedReviewers (initializeReviewerFilter reviews))
    = filter (λ r, is_Some (map_get (questionMap questions) (question_id_of r))) reviews.
Proof.
  split_and!.
  - unfold initializeReviewerFilter, sort_strings. cbn [allReviewers].
    rewrite sort_by_Permutation, Set_add_fold. apply NoDup_first_occurrences.
  - apply elem_of_allReviewers.
  - intros x. cbn [initializeReviewerFilter selectedReviewers allReviewers].
    by rewrite elem_of_list_to_set.
  - unfold enrichedReviews. rewrite <- list_fmap_compose.
    change (review ∘ _) with (@id Review). rewrite list_fmap_id.
    apply filter_all. intros r [_ Hr]%list_elem_of_filter.
    cbn [initializeReviewerFilter selectedReviewers]. rewrite elem_of_list_to_set.
    apply elem_of_allReviewers. by exists r.
Qed.

(** X24.  Unticking a reviewer takes exactly the records of that reviewer out
    of the analysed set and leaves the others in their order; ticking
    all, or none, analyses all reviewers of the list, or nothing. *)
Theorem toggleReviewer_off questions reviews (f : ReviewerFilter) (reviewer : string) :
  enrichedReviews questions reviews (selectedReviewers (toggleReviewer reviewer false f))
  = filter (λ e, reviewer_of (review e) ≠ reviewer)
      (enrichedReviews questions reviews (selectedReviewers f))
  ∧ enrichedReviews questions reviews (selectedReviewers (deselectAllReviewers f)) = []
  ∧ (∀ x, x ∈ selectedReviewers (selectAllReviewers f) ↔ x ∈ allReviewers f).
Proof.
  split_and!.
  - unfold enrichedReviews. cbn [toggleReviewer selectedReviewers].
    set (known := filter _ reviews).
    induction known as [|r known IH]; [done|].
    rewrite !filter_cons.
    destruct (decide (reviewer_of r ∈ selectedReviewers f)) as [Hin|Hout].
    + cbn [fmap list_fmap]. rewrite filter_cons. cbn [review].
      destruct (decide (reviewer_of r ≠ reviewer)) as [Hne|Heq].
      * rewrite decide_True by set_solver. cbn [fmap list_fmap]. by rewrite IH.
      * rewrite decide_False by set_solver. done.
    + rewrite decide_False by set_solver. done.
  - apply enrichedReviews_empty_selection.
  - intros x. cbn [selectAllReviewers selectedReviewers allReviewers].
    by rewrite elem_of_list_to_set.
Qed.

End analysis.

Section loading.
Import Analytics.

(** Where the analysis takes its reviews from: from the server if the
    request for the list delivers a non-empty array of records, and from
    the local store in every other case, be it that no endpoint is
    configured, that the request fails, that the answer is not of the
    expected form or that the array is empty. *)
Lemma loadReviews_source cfg resp ls :
  loadReviews cfg resp ls
  = match loadFromAPI cfg resp with
    | Normal (r :: reviews) => r :: reviews
    | _ => StorageManager.getAllResults ls
    end.
Proof.
  unfold loadReviews. destruct cfg as [c|]; [|done].
  case_bool_decide as Hend.
  - destruct (loadFromAPI (Some c) resp) as [[|r reviews]|m]; cbn; try done.
  - unfold loadFromAPI. rewrite bool_decide_eq_true_2; [done|].
    destruct (decide (apiEndpoint c = EmptyString)); [done|]. by destruct Hend.
Qed.

(** X25.  The switch [enableS3Upload] does not reach the analysis: with an
    endpoint configured and the switch off, the analysis still reads the
    reviews of the server, while the quiz pages then take the server to
    hold no review at all. *)
Theorem loadReviews_ignores_upload_switch c r reviews ls :
  apiEndpoint c ≠ EmptyString →
  enableS3Upload c = false →
  loadReviews (Some c) (Sample.served (r :: reviews)) ls = r :: reviews
  ∧ StorageManager.getReviewsFromAPI (Some c) (Sample.served (r :: reviews)) = ReviewArray [].
Proof.
  intros Hend Hoff. split.
  - unfold loadReviews, loadFromAPI.
    by rewrite bool_decide_eq_true_2, bool_decide_eq_false_2.
  - unfold StorageManager.getReviewsFromAPI. by rewrite Hoff.
Qed.

Lemma loadReviews_ignores_upload_switch_witness :
  loadReviews (Some {| apiEndpoint := "https://example.invalid/review";
                       enableS3Upload := false |})
    (Sample.served Sample.bob_reviews) Sample.empty_storage
  = Sample.bob_reviews
  ∧ StorageManager.getReviewsFromAPI
      (Some {| apiEndpoint := "https://example.invalid/review"; enableS3Upload := false |})
      (Sample.served Sample.bob_reviews)
    = ReviewArray [].
Proof.
  apply (loadReviews_ignores_upload_switch
           {| apiEndpoint := "https://example.invalid/review"; enableS3Upload := false |}
           (Sample.mk_review "r1" "Q1" "bob" 0 "x" true)
           [Sample.mk_review "r2" "Q2" "bob" 1 "p" false] Sample.empty_storage).
  - done.
  - reflexivity.
Defined.

End loading.

(** ** The wide export *)

Section table.
Import Analytics.

Lemma length_bind_pairs {A B} (f : A → list B) (l : list A) :
  (∀ x, length (f x) = 2%nat) → length (l ≫= f) = (2 * length l)%nat.
Proof.
  intros Hf. induction l as [|x l IH]; [done|].
  cbn. rewrite length_app, Hf, IH. lia.
Qed.

Lemma length_csv_cells (questionReviews : Cells) (reviewer : string) :
  length (csv_cells questionReviews reviewer) = 2%nat.
Proof. unfold csv_cells. by repeat case_match. Qed.

(** The rows before they are joined: the header and the row of every
    question have nine cells for the question and two for each selected
    reviewer, and there is one row for each question of the catalog. *)
Lemma csv_rows_shape questions enriched (selected : gset string) :
  length (csv_rows questions enriched selected) = S (length questions)
  ∧ Forall (λ row, length row = (9 + 2 * size selected)%nat)
      (csv_rows questions enriched selected).
Proof.
  unfold csv_rows.
  assert (length (sort_strings (elements selected)) = size selected) as Hsize.
  { unfold sort_strings. by rewrite sort_by_Permutation. }
  split; [cbn; by rewrite length_fmap|].
  constructor.
  - unfold csv_headers. cbv beta.
    rewrite length_app, length_bind_pairs by done. cbn [length]. lia.
  - apply Forall_fmap, Forall_forall. intros q _. cbv beta. unfold compose.
    unfold csv_row. rewrite length_app, length_bind_pairs; [cbn [length csv_question_cells]; lia|].
    apply length_csv_cells.
Qed.

Lemma drop_last_snoc (str : string) (c : Ascii.ascii) :
  Spec.drop_last (str +:+ String c EmptyString) = str.
Proof.
  induction str as [|x str IH]; [done|].
  change (String x str +:+ String c EmptyString)
    with (String x (str +:+ String c EmptyString)).
  cbn [Spec.drop_last]. rewrite IH.
  destruct str; done.
Qed.

Lemma undouble_double_quotes (str : string) : Spec.undouble (double_quotes str) = str.
Proof.
  induction str as [|x str IH]; [done|].
  cbn [double_quotes]. case_bool_decide as Hx.
  - subst x. cbn [Spec.undouble]. rewrite !bool_decide_eq_true_2 by done. cbn. by rewrite IH.
  - destruct (double_quotes str) as [|y rest] eqn:Hrest.
    + cbn. by rewrite <- IH.
    + change (Spec.undouble (String x (String y rest)))
        with (if bool_decide (x = dquote) && bool_decide (y = dquote)
              then String dquote (Spec.undouble rest)
              else String x (Spec.undouble (String y rest))).
      rewrite (bool_decide_eq_false_2 (x = dquote)) by done.
      cbn [andb]. by rewrite IH.
Qed.

Lemma includes_head (c : Ascii.ascii) (str : string) :
  includes c (String c str) = true.
Proof. cbn. by rewrite bool_decide_eq_true_2. Qed.

(** A field in double quotes is read as the text whose double quotes
    were doubled. *)
Lemma read_field_quoted (str : string) :
  Spec.read_field (String dquote (double_quotes str +:+ String dquote EmptyString)) = str.
Proof.
  cbn [Spec.read_field]. rewrite bool_decide_eq_true_2 by done.
  by rewrite drop_last_snoc, undouble_double_quotes.
Qed.

(** A field without a double quote is read as it is. *)
Lemma read_field_plain (str : string) :
  includes dquote str = false → Spec.read_field str = str.
Proof.
  intros Hq. destruct str as [|c str]; [done|]. cbn [Spec.read_field].
  case_bool_decide as Hc; [|done].
  subst c. by rewrite includes_head in Hq.
Qed.

(** X27.  A text survives [escapeCSV]: a reader that takes a field in double
    quotes for the text between them, with doubled quotes read as one,
    and any other field for itself, reads back the text that was
    escaped.  Hence two different texts never give the same cell. *)
Theorem escapeCSV_read_back (str : string) :
  Spec.read_field (escapeCSV (Some str)) = str.
Proof.
  unfold escapeCSV.
  destruct (includes comma str || includes newline str || includes dquote str) eqn:Hq.
  - apply read_field_quoted.
  - apply read_field_plain.
    by destruct (includes comma str), (includes newline str), (includes dquote str).
Qed.

(** *** Reading the export *)

Lemma append_nil_r (str : string) : str +:+ EmptyString = str.
Proof.
  induction str as [|x str IH]; [done|].
  change (String x str +:+ "") with (String x (str +:+ "")). by rewrite IH.
Qed.

Lemma read_from_app (r : Spec.Reader) (a b : string) :
  Spec.read_from r (a +:+ b) = Spec.read_from (Spec.read_from r a) b.
Proof.
  revert r. induction a as [|c a IH]; intros r; [done|].
  change (String c a +:+ b) with (String c (a +:+ b)). cbn [Spec.read_from]. apply IH.
Qed.

Lemma includes_app (c : Ascii.ascii) (a b : string) :
  includes c (a +:+ b) = includes c a || includes c b.
Proof.
  induction a as [|x a IH]; [done|].
  change (String x a +:+ b) with (String x (a +:+ b)). cbn [includes].
  by rewrite IH, orb_assoc.
Qed.

Lemma plain_text_cons (c : Ascii.ascii) (str : string) :
  Spec.plain_text (String c str) →
  c ≠ comma ∧ c ≠ newline ∧ c ≠ dquote ∧ Spec.plain_text str.
Proof.
  unfold Spec.plain_text. cbn [includes].
  repeat case_bool_decide; cbn; by rewrite ?orb_true_r.
Qed.

(** A text without comma, line feed and double quote, met outside
    quotes, joins the field as it is. *)
Lemma read_plain (str : string) (r : Spec.Reader) :
  Spec.plain_text str → Spec.rd_mode r ≠ Spec.Quoted →
  ∃ m, m ≠ Spec.Quoted
       ∧ Spec.read_from r str
         = {| Spec.rd_rows := Spec.rd_rows r; Spec.rd_fields := Spec.rd_fields r;
              Spec.rd_field := Spec.rd_field r +:+ str; Spec.rd_mode := m |}.
Proof.
  revert r. induction str as [|c str IH]; intros r Hplain Hmode.
  - exists (Spec.rd_mode r). split; [done|]. cbn. rewrite append_nil_r. by destruct r.
  - apply plain_text_cons in Hplain as (Hcomma & Hnewline & Hdquote & Hplain).
    cbn [Spec.read_from].
    assert (Spec.read_char r c = Spec.push c Spec.Unquoted r) as ->.
    { unfold Spec.read_char.
      rewrite !bool_decide_eq_false_2 by done. by destruct (Spec.rd_mode r). }
    destruct (IH (Spec.push c Spec.Unquoted r) Hplain) as (m & Hm & ->); [done|].
    exists m. split; [done|]. cbn. f_equal. by rewrite append_assoc.
Qed.

(** Inside quotes, a text whose double quotes are doubled joins the
    field with its double quotes single. *)
Lemma read_quoted (str : string) (r : Spec.Reader) :
  Spec.rd_mode r = Spec.Quoted →
  Spec.read_from r (double_quotes str)
  = {| Spec.rd_rows := Spec.rd_rows r; Spec.rd_fields := Spec.rd_fields r;
       Spec.rd_field := Spec.rd_field r +:+ str; Spec.rd_mode := Spec.Quoted |}.
Proof.
  revert r. induction str as [|c str IH]; intros r Hmode.
  - cbn. rewrite append_nil_r, <- Hmode. by destruct r.
  - cbn [double_quotes]. case_bool_decide as Hc.
    + subst c. cbn [Spec.read_from].
      assert (Spec.read_char (Spec.read_char r dquote) dquote
              = Spec.push dquote Spec.Quoted r) as ->.
      { unfold Spec.read_char at 2. rewrite Hmode. rewrite bool_decide_eq_true_2 by done.
        unfold Spec.read_char. cbn. by destruct r. }
      rewrite IH by done. cbn. f_equal. by rewrite append_assoc.
    + cbn [Spec.read_from].
      assert (Spec.read_char r c = Spec.push c Spec.Quoted r) as ->.
      { unfold Spec.read_char. rewrite Hmode. by rewrite bool_decide_eq_false_2. }
      rewrite IH by done. cbn. f_equal. by rewrite append_assoc.
Qed.


(** An escaped text, met where a field starts, is read as the text. *)
Lemma read_escaped (v : string) (r : Spec.Reader) :
  Spec.rd_mode r = Spec.FieldStart → Spec.rd_field r = EmptyString →
  ∃ m, m ≠ Spec.Quoted
       ∧ Spec.read_from r (escapeCSV (Some v))
         = {| Spec.rd_rows := Spec.rd_rows r; Spec.rd_fields := Spec.rd_fields r;
              Spec.rd_field := v; Spec.rd_mode := m |}.
Proof.
  intros Hmode Hfield. unfold escapeCSV.
  destruct (includes comma v || includes newline v || includes dquote v) eqn:Hplain.
  - exists Spec.QuoteSeen. split; [done|]. cbn [Spec.read_from].
    assert (Spec.read_char r dquote = Spec.set_mode Spec.Quoted r) as ->.
    { unfold Spec.read_char. by rewrite Hmode. }
    rewrite read_from_app, read_quoted by done. cbn. by rewrite Hfield.
  - destruct (read_plain v r Hplain) as (m & Hm & ->); [by rewrite Hmode|].
    exists m. split; [done|]. by rewrite Hfield.
Qed.

Lemma read_comma (r : Spec.Reader) :
  Spec.rd_mode r ≠ Spec.Quoted → Spec.read_char r comma = Spec.end_field r.
Proof. unfold Spec.read_char. by destruct (Spec.rd_mode r). Qed.

Lemma read_newline (r : Spec.Reader) :
  Spec.rd_mode r ≠ Spec.Quoted → Spec.read_char r newline = Spec.end_row r.
Proof. unfold Spec.read_char. by destruct (Spec.rd_mode r). Qed.

Lemma concat_cons (sep x y : string) (l : list string) :
  String.concat sep (x :: y :: l) = x +:+ sep +:+ String.concat sep (y :: l).
Proof. done. Qed.

(** A line of escaped texts is read as the fields of one record. *)
Lemma read_row (vs : list string) (v : string) (r : Spec.Reader) :
  Spec.rd_mode r = Spec.FieldStart → Spec.rd_field r = EmptyString →
  let r' := Spec.read_from r
              (String.concat (String comma EmptyString) (escapeCSV ∘ Some <$> v :: vs)) in
  Spec.rd_rows r' = Spec.rd_rows r
  ∧ Spec.rd_fields r' ++ [Spec.rd_field r'] = Spec.rd_fields r ++ v :: vs
  ∧ Spec.rd_mode r' ≠ Spec.Quoted.
Proof.
  revert v r. induction vs as [|v' vs IH]; intros v r Hmode Hfield r'; subst r'.
  - cbn [fmap list_fmap String.concat compose].
    by destruct (read_escaped v r Hmode Hfield) as (m & Hm & ->).
  - rewrite !fmap_cons, concat_cons, read_from_app. cbn [compose].
    destruct (read_escaped v r Hmode Hfield) as (m & Hm & ->).
    change (String comma "" +:+ ?rest) with (String comma rest).
    cbn [Spec.read_from]. rewrite read_comma by done.
    match goal with |- context [Spec.read_from ?r1 _] =>
      destruct (IH v' r1 eq_refl eq_refl) as (Hrows & Hfields & Hquoted) end.
    rewrite fmap_cons in Hrows, Hfields, Hquoted. cbn [compose] in Hrows, Hfields, Hquoted.
    rewrite Hrows, Hfields. cbn. by rewrite <- app_assoc.
Qed.

(** Lines of escaped texts are read as the records they were made of. *)
Lemma read_rows (rows : list (list string)) (row : list string) (r : Spec.Reader) :
  Forall (λ row, row ≠ []) (row :: rows) →
  Spec.rd_mode r = Spec.FieldStart → Spec.rd_field r = EmptyString → Spec.rd_fields r = [] →
  let r' := Spec.read_from r
              (String.concat (String newline EmptyString)
                 (String.concat (String comma EmptyString)
                    <$> (fmap (escapeCSV ∘ Some) <$> row :: rows))) in
  Spec.rd_rows r' ++ [Spec.rd_fields r' ++ [Spec.rd_field r']] = Spec.rd_rows r ++ row :: rows
  ∧ Spec.rd_mode r' ≠ Spec.Quoted.
Proof.
  revert row r. induction rows as [|row' rows IH]; intros row r Hrows Hmode Hfield Hfields r';
    subst r'; apply Forall_cons in Hrows as [Hrow Hrows];
    destruct row as [|v vs]; try done.
  - destruct (read_row vs v r Hmode Hfield) as (Hr & Hf & Hq).
    change (String.concat (String newline "")
              (String.concat (String comma "") <$> (fmap (escapeCSV ∘ Some) <$> [v :: vs])))
      with (String.concat (String comma "") (escapeCSV ∘ Some <$> v :: vs)).
    by rewrite Hr, Hf, Hfields.
  - rewrite !fmap_cons, concat_cons, read_from_app.
    destruct (read_row vs v r Hmode Hfield) as (Hr & Hf & Hq).
    set (r1 := Spec.read_from r _) in *.
    change (String newline "" +:+ ?rest) with (String newline rest).
    cbn [Spec.read_from]. rewrite read_newline by done.
    destruct (IH row' (Spec.end_row r1) Hrows eq_refl eq_refl eq_refl) as (Hrows' & Hquoted).
    rewrite !fmap_cons in Hrows', Hquoted.
    split; [|done]. rewrite Hrows'. cbn [Spec.end_row Spec.rd_rows].
    rewrite Hr, Hf, Hfields. cbn [app]. by rewrite <- app_assoc.
Qed.

(** The reader reads back a table that was written with [escapeCSV],
    commas and line feeds. *)
Lemma read_csv_escaped (rows : list (list string)) :
  rows ≠ [] → Forall (λ row, row ≠ []) rows →
  Spec.read_csv
    (String.concat (String newline EmptyString)
       (String.concat (String comma EmptyString) <$> (fmap (escapeCSV ∘ Some) <$> rows)))
  = rows.
Proof.
  intros Hne Hrows. destruct rows as [|row rows]; [done|]. unfold Spec.read_csv.
  match goal with |- context [Spec.read_from ?r0 _] =>
    destruct (read_rows rows row r0 Hrows eq_refl eq_refl eq_refl) as (Hread & _) end.
  cbn [Spec.end_row Spec.rd_rows]. by rewrite Hread.
Qed.

(** What [escapeCSV] returns is the escaped form of what the reader takes
    it for. *)
Lemma escapeCSV_fixed (value : option string) :
  escapeCSV (Some (Spec.read_field (escapeCSV value))) = escapeCSV value.
Proof.
  destruct value as [str|]; [|done]. f_equal. f_equal. unfold escapeCSV.
  destruct (includes comma str || includes newline str || includes dquote str) eqn:Hq.
  - apply read_field_quoted.
  - apply read_field_plain.
    by destruct (includes comma str), (includes newline str), (includes dquote str).
Qed.

(** A text without comma, line feed and double quote is its own escaped
    form. *)
Lemma plain_text_fixed (str : string) :
  Spec.plain_text str → escapeCSV (Some (Spec.read_field str)) = str.
Proof.
  intros Hplain. rewrite read_field_plain.
  - unfold escapeCSV. by rewrite Hplain.
  - unfold Spec.plain_text in Hplain.
    by destruct (includes comma str), (includes newline str), (includes dquote str).
Qed.

Lemma plain_text_app (a b : string) :
  Spec.plain_text a → Spec.plain_text b → Spec.plain_text (a +:+ b).
Proof.
  unfold Spec.plain_text. rewrite !includes_app.
  destruct (includes comma a), (includes newline a), (includes dquote a),
    (includes comma b), (includes newline b), (includes dquote b); done.
Qed.

Lemma csv_cells_fixed (questionReviews : Cells) (reviewer : string) :
  Forall (λ cell, escapeCSV (Some (Spec.read_field cell)) = cell)
    (csv_cells questionReviews reviewer).
Proof.
  assert (∀ r, Forall (λ cell, escapeCSV (Some (Spec.read_field cell)) = cell) (cells_of r))
    as Hcell.
  { intros r. unfold cells_of. repeat constructor; [apply escapeCSV_fixed|].
    by destruct (cell_is_correct r). }
  unfold csv_cells. repeat case_match; try apply Hcell; by repeat constructor.
Qed.

(** When the names of the selected reviewers hold no comma, no line feed
    and no double quote, every cell of the export is the escaped form of
    the text the reader takes it for. *)
Lemma csv_rows_fixed questions enriched (selected : gset string) :
  (∀ reviewer, reviewer ∈ selected → Spec.plain_text reviewer) →
  Forall (Forall (λ cell, escapeCSV (Some (Spec.read_field cell)) = cell))
    (csv_rows questions enriched selected).
Proof.
  intros Hplain. unfold csv_rows. cbv zeta.
  assert (∀ reviewer, reviewer ∈ sort_strings (elements selected) → Spec.plain_text reviewer)
    as Hsorted.
  { intros reviewer Hin. apply Hplain, elem_of_elements.
    unfold sort_strings in Hin. by rewrite sort_by_Permutation in Hin. }
  constructor.
  - unfold csv_headers. apply Forall_app. split; [by repeat constructor|].
    apply Forall_forall. intros cell (reviewer & Hcell & Hin)%list_elem_of_bind.
    apply plain_text_fixed.
    apply elem_of_cons in Hcell as [->|Hcell];
      [|apply list_elem_of_singleton in Hcell as ->];
      by apply plain_text_app; [apply Hsorted|].
  - apply Forall_fmap, Forall_forall. intros q _. unfold compose, csv_row. cbv zeta.
    apply Forall_app. split.
    + unfold csv_question_cells. repeat constructor; apply escapeCSV_fixed.
    + apply Forall_forall. intros cell (reviewer & Hcell & _)%list_elem_of_bind.
      revert cell Hcell. apply Forall_forall, csv_cells_fixed.
Qed.

Lemma fmap_fixed {A} (f : A → A) (l : list A) : Forall (λ x, f x = x) l → f <$> l = l.
Proof. induction 1 as [|x l Hx _ IH]; [done|]. cbn. by rewrite Hx, IH. Qed.

(** X26.  When the names of the selected reviewers hold no comma, no line
    feed and no double quote, the exported text is read by a CSV reader
    as a rectangular table: one record for the header and one for each
    question of the catalog, reviewed or not, each of nine fields for
    the question and two for each selected reviewer, and every field is
    the text that its cell escapes. *)
Theorem downloadQuestionCSV_reads_back questions enriched (selected : gset string) :
  (∀ reviewer, reviewer ∈ selected → Spec.plain_text reviewer) →
  Spec.read_csv (downloadQuestionCSV questions enriched selected)
  = fmap (M := list) Spec.read_field <$> csv_rows questions enriched selected
  ∧ length (Spec.read_csv (downloadQuestionCSV questions enriched selected))
    = S (length questions)
  ∧ Forall (λ record, length record = (9 + 2 * size selected)%nat)
      (Spec.read_csv (downloadQuestionCSV questions enriched selected)).
Proof.
  intros Hplain.
  destruct (csv_rows_shape questions enriched selected) as [Hlength Hwidth].
  assert (Spec.read_csv (downloadQuestionCSV questions enriched selected)
          = fmap (M := list) Spec.read_field <$> csv_rows questions enriched selected) as Hread.
  { unfold downloadQuestionCSV.
    rewrite <- (fmap_fixed (fmap (M := list) (escapeCSV ∘ Some ∘ Spec.read_field))
                  (csv_rows questions enriched selected)) at 1.
    2: { eapply Forall_impl; [by apply csv_rows_fixed|]. intros row. apply fmap_fixed. }
    rewrite (list_fmap_ext (fmap (M := list) (escapeCSV ∘ Some ∘ Spec.read_field))
               (fmap (M := list) (escapeCSV ∘ Some) ∘ fmap (M := list) Spec.read_field)
               (csv_rows questions enriched selected))
      by (intros _ row _; apply list_fmap_compose).
    rewrite (list_fmap_compose (fmap (M := list) Spec.read_field)).
    apply read_csv_escaped.
    - destruct (csv_rows questions enriched selected); [done|]. done.
    - apply Forall_fmap. eapply Forall_impl; [exact Hwidth|].
      intros row Hrow. cbn. destruct row; [cbn in Hrow; lia|done]. }
  rewrite Hread. split_and!; [done|by rewrite length_fmap|].
  apply Forall_fmap. eapply Forall_impl; [exact Hwidth|].
  intros row Hrow. cbn. by rewrite length_fmap.
Qed.

Lemma downloadQuestionCSV_reads_back_witness :
  Spec.read_csv
    (downloadQuestionCSV Sample.catalog
       (enrichedReviews Sample.catalog Sample.carol_reviews {["carol"]}) {["carol"]})
  = fmap (M := list) Spec.read_field
      <$> csv_rows Sample.catalog
            (enrichedReviews Sample.catalog Sample.carol_reviews {["carol"]}) {["carol"]}
  ∧ length (Spec.read_csv
              (downloadQuestionCSV Sample.catalog
                 (enrichedReviews Sample.catalog Sample.carol_reviews {["carol"]})
                 {["carol"]}))
    = S (length Sample.catalog)
  ∧ Forall (λ record, length record = (9 + 2 * size ({["carol"]} : gset string))%nat)
      (Spec.read_csv
         (downloadQuestionCSV Sample.catalog
            (enrichedReviews Sample.catalog Sample.carol_reviews {["carol"]})
            {["carol"]})).
Proof.
  apply (downloadQuestionCSV_reads_back Sample.catalog
           (enrichedReviews Sample.catalog Sample.carol_reviews {["carol"]}) {["carol"]}).
  intros reviewer Hin. apply elem_of_singleton in Hin. rewrite Hin. reflexivity.
Defined.

(** A header cell is written as it is: a comma in the name of a selected
    reviewer splits each of the two header cells of that reviewer, and
    the header has two fields more than the records below it. *)
Example downloadQuestionCSV_comma_in_name :
  length <$> Spec.read_csv (downloadQuestionCSV Sample.catalog [] {["a,b"]})
  = [13; 11; 11]%nat.
Proof. by vm_compute. Qed.

End table.

(** ** Statistics by question *)

Section counted_once.
Import Analytics.

Lemma sum_indicator_absent (ks : list string) (k0 : string) :
  k0 ∉ ks → sum_list_with (λ k, if decide (k0 = k) then 1%nat else 0%nat) ks = 0%nat.
Proof.
  induction ks as [|k ks IH]; intros Hk; [done|].
  cbn [sum_list_with]. rewrite decide_False by set_solver. rewrite IH by set_solver. done.
Qed.

Lemma sum_indicator (ks : list string) (k0 : string) :
  NoDup ks → k0 ∈ ks →
  sum_list_with (λ k, if decide (k0 = k) then 1%nat else 0%nat) ks = 1%nat.
Proof.
  induction 1 as [|k ks Hk Hks IH]; [by intros ?%elem_of_nil|].
  cbn [sum_list_with]. intros Hin. destruct (decide (k0 = k)) as [->|Hne].
  - by rewrite sum_indicator_absent.
  - rewrite IH; [done|]. set_solver.
Qed.

(** Sorting the elements of a list by key into the groups of a list of
    distinct keys that has all their keys sorts each element into one
    group. *)
Lemma sum_groups {A} (key : A → string) (ks : list string) (l : list A) :
  NoDup ks → (∀ x, x ∈ l → key x ∈ ks) →
  sum_list_with (λ k, length (filter (λ x, key x = k) l)) ks = length l.
Proof.
  intros Hks. induction l as [|x l IH]; intros Hkeys.
  - clear. induction ks as [|k ks IHks]; [done|]. by cbn.
  - cbn [length]. rewrite <- IH by (intros y Hy; apply Hkeys, elem_of_cons; by right).
    assert (key x ∈ ks) as Hx by (apply Hkeys; here).
    rewrite <- (Nat.add_1_l (sum_list_with _ ks)), <- (sum_indicator ks (key x) Hks Hx).
    clear. induction ks as [|k ks IHks]; [done|].
    cbn [sum_list_with]. rewrite IHks, filter_cons.
    destruct (decide (key x = k)); cbn; lia.
Qed.

Lemma sum_omap {K S} (entry : K → option S) (π : S → nat) (c : K → nat) (ks : list K) :
  (∀ k, k ∈ ks → ∃ s, entry k = Some s ∧ π s = c k) →
  sum_list_with π (omap entry ks) = sum_list_with c ks.
Proof.
  induction ks as [|k ks IH]; intros Hentry; [done|].
  destruct (Hentry k) as (s & Hs & Hπ); [here|].
  cbn. rewrite Hs. cbn. rewrite Hπ, IH; [done|].
  intros k' Hk'. apply Hentry, elem_of_cons. by right.
Qed.

(** The entries in grouping order count every record once. *)
Lemma grouped_sums (l : list Enriched) :
  sum_list_with qs_total (Spec.grouped l) = length l
  ∧ sum_list_with qs_correct (Spec.grouped l)
    = length (filter (λ e, correct_of (review e) = true) l).
Proof.
  unfold Spec.grouped.
  rewrite !(sum_list_with_Permutation_proper _ _ _
              (omap_Permutation _ _ _ (own_keys_Permutation _))).
  assert (NoDup (Spec.first_occurrences (Spec.question_key <$> l))) as Hnodup
    by apply NoDup_first_occurrences.
  split.
  - rewrite (sum_omap _ _ (λ k, length (filter (λ e, Spec.question_key e = k) l))).
    + apply sum_groups; [done|]. intros e He.
      apply elem_of_first_occurrences, list_elem_of_fmap. by exists e.
    + intros k Hk. unfold Spec.question_entry, Spec.answers_to.
      destruct (filter _ l) as [|e theirs] eqn:Hfilter; [|by eexists].
      apply elem_of_first_occurrences, list_elem_of_fmap in Hk as (e & -> & He).
      by destruct (filter_nil_not_elem_of (λ e', Spec.question_key e' = Spec.question_key e)
                     l e Hfilter eq_refl He).
  - rewrite (sum_omap _ _
               (λ k, length (filter (λ e, Spec.question_key e = k)
                               (filter (λ e, correct_of (review e) = true) l)))).
    + apply sum_groups; [done|]. intros e [_ He]%list_elem_of_filter.
      apply elem_of_first_occurrences, list_elem_of_fmap. by exists e.
    + intros k Hk. unfold Spec.question_entry, Spec.answers_to.
      destruct (filter (λ e, Spec.question_key e = k) l) as [|e theirs] eqn:Hfilter.
      * apply elem_of_first_occurrences, list_elem_of_fmap in Hk as (e & -> & He).
        by destruct (filter_nil_not_elem_of
                       (λ e', Spec.question_key e' = Spec.question_key e) l e Hfilter
                       eq_refl He).
      * eexists. split; [reflexivity|]. cbn [qs_correct].
        rewrite <- Hfilter, !list_filter_filter.
        f_equal. apply list_filter_iff. tauto.
Qed.

(** X28.  The table by question counts in exactly one row every analysed
    record whose question id is not the name of a member of
    [Object.prototype], and counts no other record: the totals of the
    rows add up to the number of those records, and their correct counts
    to the number of the correct ones among them.  They add up to the
    number of analysed records and of correct analysed records when no
    question id is such a name. *)
Theorem calculateByQuestion_counts_once (l : list Enriched) :
  sum_list_with qs_total (calculateByQuestion l) = length (Spec.keyed l)
  ∧ sum_list_with qs_correct (calculateByQuestion l)
    = length (filter (λ e, correct_of (review e) = true) (Spec.keyed l))
  ∧ (Forall (λ e, inherited (Spec.question_key e) = false) l →
     sum_list_with qs_total (calculateByQuestion l) = length l
     ∧ sum_list_with qs_correct (calculateByQuestion l)
       = length (filter (λ e, correct_of (review e) = true) l)).
Proof.
  rewrite calculateByQuestion_sort. unfold sort_by_key.
  rewrite !(sum_list_with_Permutation_proper _ _ _ (sort_by_Permutation _ _)).
  destruct (grouped_sums (Spec.keyed l)) as [Htotal Hcorrect].
  split_and!; [done..|].
  intros Hall. apply (proj2 (filter_all_iff _ _)) in Hall.
  rewrite Htotal, Hcorrect. unfold Spec.keyed. by rewrite Hall.
Qed.

End counted_once.

(** * The migration of the progress markers (scripts/migrate-progress.mjs) *)

Section migration.
Import Migrate.

Lemma migrate_step_group (progressMap : obj Marker) (r : Review) :
  migrate_step progressMap r = Loops.group_step marker_key Loops.marker_update progressMap r.
Proof.
  unfold migrate_step, Loops.group_step, Loops.marker_update.
  destruct (obj_get progressMap (marker_key r)) as [m|] eqn:Hget; [|done].
  destruct (less _ _); [done|]. by rewrite obj_set_same.
Qed.

Lemma migrateProgress_lookup (reviews : list Review) (k : string) :
  obj_get (migrateProgress reviews) k
  = Loops.fold_value Loops.marker_update (filter (λ r, marker_key r = k) reviews).
Proof.
  unfold migrateProgress.
  rewrite (foldl_ext_eq _ (Loops.group_step marker_key Loops.marker_update))
    by (intros; apply migrate_step_group).
  apply group_fold_get.
Qed.

(** The marker folded from records that all carry an index is the marker
    of one of them, and no record has a larger index. *)
Lemma marker_fold_max (mine : list Review) (m : Marker) :
  (∀ r, r ∈ mine → is_Some (question_index r)) →
  Loops.fold_value Loops.marker_update mine = Some m →
  (∃ r, r ∈ mine ∧ m = marker_of r)
  ∧ ∃ top, m_questionIndex m = Some top
           ∧ ∀ r i, r ∈ mine → question_index r = Some i → i ≤ top.
Proof.
  revert m. induction mine as [|r mine IH] using rev_ind; intros m Hindex; [done|].
  rewrite fold_value_snoc. intros [= <-].
  destruct (Hindex r) as [i Hi]; [set_solver|].
  destruct (Loops.fold_value Loops.marker_update mine) as [m0|] eqn:Hfold.
  - destruct (IH m0) as [(r0 & Hr0 & Hm0) (top & Htop & Hmax)]; [set_solver|done|].
    cbn [Loops.marker_update]. rewrite Htop, Hi. cbn [less].
    case_bool_decide as Hlt.
    + split; [exists r; set_solver|].
      exists i. split; [done|].
      intros r' i' [Hr'|Hr']%elem_of_app Hi'.
      * specialize (Hmax r' i' Hr' Hi'). lia.
      * apply list_elem_of_singleton in Hr' as ->. rewrite Hi in Hi'. injection Hi' as <-. lia.
    + split; [exists r0; set_solver|].
      exists top. split; [done|].
      intros r' i' [Hr'|Hr']%elem_of_app Hi'.
      * by apply (Hmax r' i').
      * apply list_elem_of_singleton in Hr' as ->. rewrite Hi in Hi'. injection Hi' as <-. lia.
  - destruct mine as [|r0 mine _] using rev_ind.
    + cbn. split; [exists r; set_solver|].
      exists i. split; [done|].
      intros r' i' Hr' Hi'. apply list_elem_of_singleton in Hr' as ->.
      rewrite Hi in Hi'. injection Hi' as <-. lia.
    + by rewrite fold_value_snoc in Hfold.
Qed.

(** X29.  When every record carries a question index, the marker that the
    migration writes for a reviewer and category is taken from one of
    their records and holds the largest index among them; a reviewer and
    category have a marker exactly when they have a record. *)
Theorem migrateProgress_largest_index (reviews : list Review) (k : string) :
  (∀ r, r ∈ reviews → is_Some (question_index r)) →
  match obj_get (migrateProgress reviews) k with
  | Some m =>
      (∃ r, r ∈ reviews ∧ marker_key r = k ∧ m = marker_of r)
      ∧ ∃ top, m_questionIndex m = Some top
               ∧ ∀ r i, r ∈ reviews → marker_key r = k → question_index r = Some i → i ≤ top
  | None => ∀ r, r ∈ reviews → marker_key r ≠ k
  end.
Proof.
  intros Hindex. rewrite migrateProgress_lookup.
  destruct (Loops.fold_value _ _) as [m|] eqn:Hfold.
  - destruct (marker_fold_max (filter (λ r, marker_key r = k) reviews) m)
      as [(r & Hr & Hm) (top & Htop & Hmax)]; [|done|].
    { intros r [_ Hr]%list_elem_of_filter. by apply Hindex. }
    apply list_elem_of_filter in Hr as [Hk Hr].
    split; [by exists r|].
    exists top. split; [done|].
    intros r' i Hr' Hk' Hi. apply (Hmax r' i); [|done]. by apply list_elem_of_filter.
  - intros r Hr Hk.
    destruct (filter (λ r, marker_key r = k) reviews) as [|r0 mine _] eqn:Hfilter
      using rev_ind.
    + by destruct (filter_nil_not_elem_of _ reviews r Hfilter Hk Hr).
    + by rewrite fold_value_snoc in Hfold.
Qed.

Lemma migrateProgress_largest_index_witness :
  (∃ r, r ∈ Sample.alice_remote ∧ marker_key r = "alice__food"
        ∧ {| m_reviewerName := Some "alice"; m_category := Some "food";
             m_questionIndex := Some 3; m_timestamp := "2025-01-01T00:00:00.000Z" |}
          = marker_of r)
  ∧ ∃ top, Some 3 = Some top
           ∧ ∀ r i, r ∈ Sample.alice_remote → marker_key r = "alice__food" →
                    question_index r = Some i → i ≤ top.
Proof.
  apply (migrateProgress_largest_index Sample.alice_remote "alice__food").
  intros r Hr.
  apply elem_of_cons in Hr as [->|Hr]; [by eexists|].
  apply elem_of_cons in Hr as [->|Hr]; [by eexists|].
  apply elem_of_cons in Hr as [->|Hr]; [by eexists|].
  by apply elem_of_nil in Hr.
Defined.

(** X30.  A record without a question index is never replaced and never
    replaces: if the first record of a reviewer and category has no
    index, the migration keeps its marker whatever indexes follow. *)
Theorem migrateProgress_undefined_index (r : Review) (reviews : list Review) :
  question_index r = None →
  obj_get (migrateProgress (r :: reviews)) (marker_key r) = Some (marker_of r).
Proof.
  intros Hnone. rewrite migrateProgress_lookup, filter_cons, decide_True by done.
  induction (filter _ reviews) as [|r' mine IH] using rev_ind; [done|].
  rewrite app_comm_cons, fold_value_snoc, IH.
  cbn. by rewrite Hnone.
Qed.

Lemma migrateProgress_undefined_index_witness :
  obj_get (migrateProgress
             ({| review_id := "old"; question_id := Some "Q1"; question_set := Some "food";
                 question_index := None; keyword := EmptyString; category := Some "food";
                 question_text := None; reviewer_name := Some "alice"; answer := Some "x";
                 correct_answer := None; is_correct := Some true;
                 timestamp := "2024-12-31T00:00:00.000Z"; comment := EmptyString;
                 questionId := None; reviewerName := None; isCorrect := None |}
              :: Sample.alice_remote))
    "alice__food"
  = Some {| m_reviewerName := Some "alice"; m_category := Some "food";
            m_questionIndex := None; m_timestamp := "2024-12-31T00:00:00.000Z" |}.
Proof.
  apply (migrateProgress_undefined_index
           {| review_id := "old"; question_id := Some "Q1"; question_set := Some "food";
              question_index := None; keyword := EmptyString; category := Some "food";
              question_text := None; reviewer_name := Some "alice"; answer := Some "x";
              correct_answer := None; is_correct := Some true;
              timestamp := "2024-12-31T00:00:00.000Z"; comment := EmptyString;
              questionId := None; reviewerName := None; isCorrect := None |}
           Sample.alice_remote).
  reflexivity.
Defined.

End migration.
